(** * Content Scheduler of the social-media CMS

    A shallow embedding of
    [src/plugins/content-scheduler/server/services/scheduler.ts]:
    the Job Table, the trigger registration, the publish fan-out and the
    post formatter, followed by the properties the specification states
    about them.

    The service is written in TypeScript over values of type [any]; the
    embedding therefore starts with the fragment of JavaScript's dynamic
    semantics the service relies on (truthiness, [||], [??], [?.], member
    access, object spread), and models the effects of the service
    (Post Store, platform connectors, node-cron registry, log) in a small
    state-and-exception monad.

    An [async] method is modelled as one uninterrupted computation: the
    specification asks that the operations of the scheduler do not
    interleave, and the model runs each [await] to its end before the next
    statement. *)

From stdpp Require Import gmap strings list fin_maps pretty.

Set Warnings "-register-all".
Set Default Proof Using "Type".
Open Scope Z_scope.

(** ** JavaScript values *)

Module JS.

(** JSON data plus [Date] objects.  Numbers are the integers the service
    meets (entity ids, clock fields); the service performs no floating
    point arithmetic.  [VDate None] is an Invalid Date. *)
Inductive value : Type :=
| VUndef
| VNull
| VBool (b : bool)
| VNum (n : Z)
| VStr (s : string)
| VDate (t : option Z)
| VArr (l : list value)
| VObj (o : gmap string value).

(** The outcome of a computation that may throw; the payload of [Throw] is
    the [message] of the thrown error, the only part the service reads. *)
Inductive result (A : Type) : Type :=
| Ok (a : A)
| Throw (msg : value).
Global Arguments Ok {A} a.
Global Arguments Throw {A} msg.

Definition rbind {A B} (r : result A) (k : A → result B) : result B :=
  match r with
  | Ok a => k a
  | Throw e => Throw e
  end.

Definition rmap {A B} (f : A → B) (r : result A) : result B :=
  rbind r (λ a, Ok (f a)).

(** ToBoolean. *)
Definition truthy (v : value) : bool :=
  match v with
  | VUndef | VNull => false
  | VBool b => b
  | VNum n => negb (n =? 0)
  | VStr s => negb (String.eqb s "")
  | VDate _ | VArr _ | VObj _ => true
  end.

Definition nullish (v : value) : bool :=
  match v with
  | VUndef | VNull => true
  | _ => false
  end.

(** [a || b] and [a ?? b], for operands without effects. *)
Definition or_else (a b : value) : value := if truthy a then a else b.
Definition coalesce (a b : value) : value := if nullish a then b else a.

(** The characters of a string, each as a one-character string. *)
Definition chars (s : string) : list value :=
  (λ c, VStr (String c EmptyString)) <$> String.list_ascii_of_string s.

(** An array index written as a property key. *)
Definition index_of_key (k : string) (len : nat) : option nat :=
  fst <$> list_find (λ i : nat, pretty i = k) (seq 0 len).

Definition elements (l : list value) (k : string) : value :=
  default VUndef (i ← index_of_key k (length l); l !! i).

(** [v[k]] on a value that is neither [null] nor [undefined], for data
    properties.  Inherited members (methods of the prototypes) are
    functions; the service reads none of them as data. *)
Definition member (v : value) (k : string) : value :=
  match v with
  | VObj o => default VUndef (o !! k)
  | VArr l =>
      if String.eqb k "length" then VNum (Z.of_nat (length l))
      else elements l k
  | VStr s =>
      if String.eqb k "length" then VNum (Z.of_nat (String.length s))
      else elements (chars s) k
  | _ => VUndef
  end.

Definition typeof_nullish (v : value) : string :=
  match v with VNull => "null" | _ => "undefined" end.

(** The message of V8's TypeError (Node 16 and later) for a property read
    on [null] or [undefined]. *)
Definition cannot_read (v : value) (k : string) : value :=
  VStr ("Cannot read properties of " +:+ typeof_nullish v
        +:+ " (reading '" +:+ k +:+ "')").

(** [v.k]. *)
Definition get (v : value) (k : string) : result value :=
  if nullish v then Throw (cannot_read v k) else Ok (member v k).

(** [v?.k] and [v?.[k]]. *)
Definition get_opt (v : value) (k : string) : value :=
  if nullish v then VUndef else member v k.

(** The own enumerable properties an object spread [{...v}] copies. *)
Definition indexed (l : list value) : gmap string value :=
  list_to_map (imap (λ (i : nat) x, (pretty i, x)) l).

Definition own_props (v : value) : gmap string value :=
  match v with
  | VObj o => o
  | VArr l => indexed l
  | VStr s => indexed (chars s)
  | _ => ∅
  end.

(** String(v) for a primitive. *)
Definition show (v : value) : string :=
  match v with
  | VStr s => s
  | VNum n => pretty n
  | VBool true => "true"
  | VBool false => "false"
  | VNull => "null"
  | _ => "undefined"
  end.

Definition typeof (v : value) : string :=
  match v with
  | VStr _ => "string"
  | VNum _ => "number"
  | VBool _ => "boolean"
  | VUndef => "undefined"
  | _ => "object"
  end.

(** [target[k] = x] in strict mode (the service is an ES module).  The
    result is the target after the assignment, in its JSON view: a named
    property set on an array or on a Date is not part of what the store
    serialises. *)
Definition set_member (target : value) (k : string) (x : value) : result value :=
  match target with
  | VObj o => Ok (VObj (<[k := x]> o))
  | VArr _ | VDate _ => Ok target
  | VUndef | VNull =>
      Throw (VStr ("Cannot set properties of " +:+ typeof_nullish target
                   +:+ " (setting '" +:+ k +:+ "')"))
  | _ =>
      Throw (VStr ("Cannot create property '" +:+ k +:+ "' on "
                   +:+ typeof target +:+ " '" +:+ show target +:+ "'"))
  end.

(** The values a [for ... of] loop visits. *)
Definition iterate (what : string) (v : value) : result (list value) :=
  match v with
  | VArr l => Ok l
  | VStr s => Ok (chars s)
  | _ => Throw (VStr (what +:+ " is not iterable"))
  end.

Fixpoint mapM {A B} (f : A → result B) (l : list A) : result (list B) :=
  match l with
  | [] => Ok []
  | x :: l' => rbind (f x) (λ y, rbind (mapM f l') (λ ys, Ok (y :: ys)))
  end.

End JS.
Export JS.

(** ** Posts *)

(** An entity of the Post Store: its primary key and its attributes.
    [post.id] is a number: the [ScheduledJob] interface and every [postId]
    parameter of the service declare it so.  It is an integer, whose
    [toString()] is the decimal form that [pretty] gives. *)
Record Post : Type := mkPost {
  id : Z;
  fields : gmap string value;
}.

(** [post.k] for an attribute. *)
Definition attr (post : Post) (k : string) : value :=
  default VUndef (fields post !! k).

(** [{...post, k: v}]. *)
Definition with_attr (k : string) (v : value) (post : Post) : Post :=
  mkPost (id post) (<[k := v]> (fields post)).

(** ** Post Formatter *)

(** [post.media?.map((m) => m.url) || []] *)
Definition media_urls (post : Post) : result value :=
  match attr post "media" with
  | VUndef | VNull => Ok (VArr [])
  | VArr l => rmap VArr (mapM (λ m, get m "url") l)
  | _ => Throw (VStr "post.media?.map is not a function")
  end.

(** [post.media?.[0]?.url || ''] *)
Definition first_media_url (post : Post) : value :=
  or_else (get_opt (get_opt (attr post "media") "0") "url") (VStr "").

(** [post.platformSpecific?.[platform] || {}] *)
Definition overrides (post : Post) (platform : string) : value :=
  or_else (get_opt (attr post "platformSpecific") platform) (VObj ∅).

Definition formatPostForPlatform (post : Post) (platform : string) : result value :=
  let platformSpecific := overrides post platform in
  if decide (platform = "facebook" ∨ platform = "instagram") then
    rbind (media_urls post) (λ media,
      Ok (VObj (own_props platformSpecific ∪
                <["message" := attr post "content"]> (<["media" := media]> ∅))))
  else if decide (platform = "twitter") then
    rbind (media_urls post) (λ media,
      Ok (VObj (list_to_map [
        ("text", attr post "content");
        ("media", media);
        ("threadMode", or_else (member platformSpecific "threadMode") (VBool false));
        ("threadPosts", or_else (member platformSpecific "threadPosts") (VArr []))])))
  else if decide (platform = "linkedin") then
    rbind (media_urls post) (λ media,
      Ok (VObj (list_to_map [
        ("text", attr post "content");
        ("media", media);
        ("visibility", or_else (member platformSpecific "visibility") (VStr "PUBLIC"))])))
  else if decide (platform = "youtube") then
    Ok (VObj (list_to_map [
      ("title", or_else (member platformSpecific "title") (attr post "title"));
      ("description", or_else (member platformSpecific "description") (attr post "content"));
      ("videoUrl", first_media_url post);
      ("category", member platformSpecific "category");
      ("privacy", or_else (member platformSpecific "privacy") (VStr "public"));
      ("tags", or_else (or_else (member platformSpecific "tags") (attr post "hashtags")) (VArr []))]))
  else if decide (platform = "tiktok") then
    Ok (VObj (list_to_map [
      ("videoUrl", first_media_url post);
      ("caption", attr post "content");
      ("privacy", or_else (member platformSpecific "privacy") (VStr "PUBLIC"));
      ("allowComment", coalesce (member platformSpecific "allowComments") (VBool true));
      ("allowDuet", coalesce (member platformSpecific "allowDuet") (VBool true));
      ("allowStitch", coalesce (member platformSpecific "allowStitch") (VBool true))]))
  else Ok (VObj ∅).

(** ** The world of the service *)

(** A call to a service of the social-media-connector plugin. *)
Record Call : Type := mkCall {
  service : string;
  method : string;
  payload : value;
}.

(** The calls made so far, each with the answer it got. *)
Abbreviation Calls := (list (Call * result value)).

(** A request to the Post Store ([strapi.entityService]): [findOne] with
    the relations to populate, [update] with the attributes to write. *)
Inductive Request : Type :=
| FindOne (postId : Z) (populate : list string)
| Update (postId : Z) (data : gmap string value).

(** The local wall-clock fields of a zoned [Date]: [getMinutes()],
    [getHours()], [getDate()], [getMonth()]. *)
Record WallClock : Type := mkWallClock {
  getMinutes : Z;
  getHours : Z;
  getDate : Z;
  getMonth : Z;
}.

(** What the service is linked against and does not own: the platform
    connectors, the availability of the Post Store, the Date functions of
    the JavaScript runtime, date-fns-tz and node-cron's validator.  The
    connectors and the store may answer differently from one request to the
    next: they see the requests made before. *)
Class Runtime : Type := {
  (** [strapi.plugin('social-media-connector').service(s).m(payload)] *)
  connector : Calls → Call → result value;
  (** the error a request to the Post Store is rejected with, if any *)
  store_fault : list Request → Request → option value;
  (** [new Date(v)] for [v] that is not a Date; [None] is Invalid Date *)
  Date_parse : value → option Z;
  (** [d.toISOString()] of a valid Date *)
  toISOString : Z → string;
  (** [utcToZonedTime(d, timezone)] read through its local getters; [None]
      is an Invalid Date, whose getters all return NaN *)
  utcToZonedTime : option Z → value → result (option WallClock);
  (** [cron.validate(expression)] *)
  cron_validate : string → bool;
}.

(** A task registered with node-cron by [cron.schedule]: its expression and
    timezone, the post its callback closes over, and whether it is still
    running (not stopped). *)
Record ScheduledTask : Type := mkTask {
  expression : string;
  task_timezone : value;
  target : Z;
  running : bool;
}.

(** An entry of the Job Table; [task] is the handle of the registered task,
    its position in node-cron's registry. *)
Record ScheduledJob : Type := mkJob {
  job_id : string;
  task : nat;
  postId : Z;
  scheduledAt : option Z;
}.

Inductive LogEntry : Type :=
| LogInfo (message : list value)
| LogError (message : list value) (error : value).

Record World : Type := mkWorld {
  store : gmap Z (gmap string value);
  requests : list Request;
  calls : Calls;
  jobs : gmap string ScheduledJob;
  tasks : list ScheduledTask;
  log : list LogEntry;
  now : Z;
}.

Definition set_store (f : gmap Z (gmap string value) → gmap Z (gmap string value)) (w : World) : World :=
  mkWorld (f (store w)) (requests w) (calls w) (jobs w) (tasks w) (log w) (now w).
Definition set_requests (f : list Request → list Request) (w : World) : World :=
  mkWorld (store w) (f (requests w)) (calls w) (jobs w) (tasks w) (log w) (now w).
Definition set_calls (f : Calls → Calls) (w : World) : World :=
  mkWorld (store w) (requests w) (f (calls w)) (jobs w) (tasks w) (log w) (now w).
Definition set_jobs (f : gmap string ScheduledJob → gmap string ScheduledJob) (w : World) : World :=
  mkWorld (store w) (requests w) (calls w) (f (jobs w)) (tasks w) (log w) (now w).
Definition set_tasks (f : list ScheduledTask → list ScheduledTask) (w : World) : World :=
  mkWorld (store w) (requests w) (calls w) (jobs w) (f (tasks w)) (log w) (now w).
Definition set_log (f : list LogEntry → list LogEntry) (w : World) : World :=
  mkWorld (store w) (requests w) (calls w) (jobs w) (tasks w) (f (log w)) (now w).
Definition set_now (t : Z) (w : World) : World :=
  mkWorld (store w) (requests w) (calls w) (jobs w) (tasks w) (log w) t.

(** ** Effects *)

(** A computation over a state [S] that returns or throws.  The state
    reached when it throws is kept: a [catch] handler runs in it. *)
Definition Eff (S A : Type) : Type := S → result A * S.

Definition ret {S A} (a : A) : Eff S A := λ s, (Ok a, s).
Definition throw {S A} (e : value) : Eff S A := λ s, (Throw e, s).
Definition bind {S A B} (m : Eff S A) (k : A → Eff S B) : Eff S B :=
  λ s, match m s with
       | (Ok a, s') => k a s'
       | (Throw e, s') => (Throw e, s')
       end.
Definition try_catch {S A} (m : Eff S A) (handler : value → Eff S A) : Eff S A :=
  λ s, match m s with
       | (Ok a, s') => (Ok a, s')
       | (Throw e, s') => handler e s'
       end.
Definition gets {S A} (f : S → A) : Eff S A := λ s, (Ok (f s), s).
Definition modify {S} (f : S → S) : Eff S unit := λ s, (Ok (), f s).
Definition of_result {S A} (r : result A) : Eff S A := λ s, (r, s).

(** A computation on the world, run where there are locals [L] too. *)
Definition lift {L S A} (m : Eff S A) : Eff (L * S) A :=
  λ ls, let '(r, s') := m ls.2 in (r, (ls.1, s')).
Definition locals {L S A} (f : L → A) : Eff (L * S) A :=
  gets (λ ls : L * S, f ls.1).
Definition assign {L S} (f : L → L) : Eff (L * S) unit :=
  modify (λ ls : L * S, (f ls.1, ls.2)).
(** Runs a block with its locals; it returns their final values. *)
Definition block {L S A} (init : L) (m : Eff (L * S) A) : Eff S (A * L) :=
  λ s, let '(r, ls) := m (init, s) in (rmap (λ a, (a, ls.1)) r, ls.2).

Global Instance Eff_ret {S} : MRet (Eff S) := λ A, ret.
Global Instance Eff_bind {S} : MBind (Eff S) := λ A B k m, bind m k.

(** ** Collaborators *)

Section Service.
Context `{RT : Runtime}.

Definition log_info (message : list value) : Eff World unit :=
  modify (set_log (λ l, l ++ [LogInfo message])).
Definition log_error (message : list value) (error : value) : Eff World unit :=
  modify (set_log (λ l, l ++ [LogError message error])).

(** Sends a request to the Post Store: the request is recorded, and it is
    rejected when the store is unavailable. *)
Definition request (r : Request) : Eff World unit :=
  λ w, let w' := set_requests (λ l, l ++ [r]) w in
       match store_fault (requests w) r with
       | Some e => (Throw e, w')
       | None => (Ok (), w')
       end.

(** [strapi.entityService.findOne('api::social-post.social-post', postId,
    {populate})]: the entity, or [null].  The store of the model keeps the
    media of a post with the post. *)
Definition findOne (postId : Z) (populate : list string) : Eff World (option Post) :=
  request (FindOne postId populate);;
  gets (λ w, mkPost postId <$> store w !! postId).

(** [strapi.entityService.update(uid, postId, {data})]: the attributes
    given in [data] replace those of the entity; the update of a missing
    entity writes nothing and returns [null]. *)
Definition update (postId : Z) (data : gmap string value) : Eff World (option Post) :=
  request (Update postId data);;
  modify (set_store (alter (λ o, data ∪ o) postId));;
  gets (λ w, mkPost postId <$> store w !! postId).

(** A call to a connector service. *)
Definition call (service method : string) (payload : value) : Eff World value :=
  λ w, let c := mkCall service method payload in
       let answer := connector (calls w) c in
       (answer, set_calls (λ l, l ++ [(c, answer)]) w).

(** [new Date(v)] *)
Definition new_Date (v : value) : option Z :=
  match v with
  | VDate t => t
  | _ => Date_parse v
  end.

(** [d.toISOString()] *)
Definition Date_toISOString (d : option Z) : result string :=
  match d with
  | Some t => Ok (toISOString t)
  | None => Throw (VStr "Invalid time value")
  end.

(** [cron.schedule(expression, callback, {scheduled: true, timezone})],
    where [callback] is the closure of [schedulePost] over [post]: the new
    task is running, and its handle is returned. *)
Definition cron_schedule (expression : string) (post : Z) (timezone : value) : Eff World nat :=
  h ← gets (λ w, length (tasks w));
  modify (set_tasks (λ l, l ++ [mkTask expression timezone post true]));;
  ret h.

(** [task.stop()] *)
Definition task_stop (h : nat) : Eff World unit :=
  modify (set_tasks (alter (λ t, mkTask (expression t) (task_timezone t) (target t) false) h)).

(** ** Publish Orchestrator *)

(** The locals of the fan-out loop of [publishPost]: the two arrays it
    pushes to, and the loaded [post], whose [externalIds] object the loop
    assigns to in place. *)
Record Fanout : Type := mkFanout {
  results : list value;
  errors : list value;
  post : Post;
}.

Definition push_result (r : value) (f : Fanout) : Fanout :=
  mkFanout (results f ++ [r]) (errors f) (post f).
Definition push_error (e : value) (f : Fanout) : Fanout :=
  mkFanout (results f) (errors f ++ [e]) (post f).
Definition set_post (g : Post → Post) (f : Fanout) : Fanout :=
  mkFanout (results f) (errors f) (g (post f)).

(** [{ platform, error }] *)
Definition error_entry (platform error : value) : value :=
  VObj (<["platform" := platform]> (<["error" := error]> ∅)).

(** The [switch (platform)] of [publishPost]: the connector call of the
    platform; no case matches another value, and [result] stays
    [undefined]. *)
Definition dispatch (post : Post) (platform : value) : Eff World value :=
  match platform with
  | VStr p =>
      if decide (p = "facebook") then
        payload ← of_result (formatPostForPlatform post "facebook");
        call "facebook" "publishPost" payload
      else if decide (p = "instagram") then
        payload ← of_result (formatPostForPlatform post "instagram");
        call "facebook" "publishPost" payload
      else if decide (p = "twitter") then
        payload ← of_result (formatPostForPlatform post "twitter");
        call "twitter" "publishPost" payload
      else if decide (p = "linkedin") then
        payload ← of_result (formatPostForPlatform post "linkedin");
        call "linkedin" "publishPost" payload
      else if decide (p = "youtube") then
        payload ← of_result (formatPostForPlatform post "youtube");
        call "youtube" "uploadVideo" payload
      else if decide (p = "tiktok") then
        payload ← of_result (formatPostForPlatform post "tiktok");
        call "tiktok" "uploadVideo" payload
      else ret VUndef
  | _ => ret VUndef
  end.

(** The body of the [try] of one iteration. *)
Definition attempt (postId : Z) (platform : value) : Eff (Fanout * World) unit :=
  post ← locals post;
  result ← lift (dispatch post platform);
  success ← of_result (get result "success");
  if truthy success then
    assign (push_result result);;
    let externalIds := or_else (attr post "externalIds") (VObj ∅) in
    let externalId := or_else (member result "postId") (member result "videoId") in
    externalIds ← of_result (set_member externalIds (show platform) externalId);
    (* a truthy [post.externalIds] is the very object assigned to *)
    (if truthy (attr post "externalIds")
     then assign (set_post (with_attr "externalIds" externalIds))
     else ret ());;
    lift (update postId {["externalIds" := externalIds]});;
    ret ()
  else
    assign (push_error (error_entry platform (member result "error"))).

(** One iteration of [for (const platform of post.platforms)]. *)
Definition publish_to (postId : Z) (platform : value) : Eff (Fanout * World) unit :=
  try_catch (attempt postId platform)
    (λ error,
       lift (log_error [VStr "Error publishing to "; platform; VStr ":"] error);;
       assign (push_error (error_entry platform error))).

Fixpoint for_each {S A} (body : A → Eff S unit) (l : list A) : Eff S unit :=
  match l with
  | [] => ret ()
  | x :: l' => body x;; for_each body l'
  end.

Definition final_status (f : Fanout) : string :=
  if bool_decide (errors f = []) then "published"
  else if bool_decide (results f = []) then "failed"
  else "published".

(** The [try] block of [publishPost]. *)
Definition publishPost_try (postId : Z) : Eff World value :=
  log_info [VStr "Publishing scheduled post "; VNum postId];;
  found ← findOne postId ["media"; "campaign"; "template"];
  match found with
  | None => throw (VStr "Post not found")
  | Some post =>
      platforms ← of_result (iterate "post.platforms" (attr post "platforms"));
      '(_, f) ← block (mkFanout [] [] post) (for_each (publish_to postId) platforms);
      t ← gets now;
      update postId (list_to_map [
        ("status", VStr (final_status f));
        ("publishedAt", VStr (toISOString t));
        ("publishErrors", VArr (errors f))]);;
      ret (VObj (list_to_map [
        ("success", VBool (bool_decide (errors f = [])));
        ("results", VArr (results f));
        ("errors", VArr (errors f));
        ("postId", VNum postId)]))
  end.

(** Its [catch] block. *)
Definition publishPost_catch (postId : Z) (error : value) : Eff World value :=
  log_error [VStr "Error publishing post:"] error;;
  update postId (list_to_map [
    ("status", VStr "failed");
    ("publishErrors", VArr [VObj {["error" := error]}])]);;
  ret (VObj (list_to_map [
    ("success", VBool false);
    ("error", error);
    ("postId", VNum postId)])).

Definition publishPost (postId : Z) : Eff World value :=
  try_catch (publishPost_try postId) (publishPost_catch postId).

(** ** Scheduler *)

(** A template-literal field: a number, or NaN. *)
Definition cron_field (x : option Z) : string :=
  match x with
  | Some n => pretty n
  | None => "NaN"
  end.

(** [`${minute} ${hour} ${day} ${month} *`] *)
Definition cron_expression (zonedTime : option WallClock) : string :=
  let minute := getMinutes <$> zonedTime in
  let hour := getHours <$> zonedTime in
  let day := getDate <$> zonedTime in
  let month := (λ z, getMonth z + 1) <$> zonedTime in
  cron_field minute +:+ " " +:+ cron_field hour +:+ " " +:+ cron_field day
    +:+ " " +:+ cron_field month +:+ " *".

(** [scheduledAt <= now] on Dates; a comparison with an Invalid Date is
    false. *)
Definition Date_le (d : option Z) (t : Z) : bool :=
  match d with
  | Some x => x <=? t
  | None => false
  end.

Definition schedulePost (post : Post) : Eff World value :=
  try_catch
    (let scheduledAt := new_Date (attr post "scheduledAt") in
     t ← gets now;
     if Date_le scheduledAt t then
       publishPost (id post);;
       ret VUndef
     else
       let timezone := or_else (attr post "timezone") (VStr "UTC") in
       zonedTime ← of_result (utcToZonedTime scheduledAt timezone);
       let cronExpression := cron_expression zonedTime in
       if negb (cron_validate cronExpression) then
         throw (VStr ("Invalid cron expression: " +:+ cronExpression))
       else
         task ← cron_schedule cronExpression (id post) timezone;
         modify (set_jobs (<[pretty (id post) :=
           mkJob (pretty (id post)) task (id post) scheduledAt]>));;
         iso ← of_result (Date_toISOString scheduledAt);
         log_info [VStr "Scheduled post "; VNum (id post); VStr " for "; VStr iso];;
         ret (VObj (list_to_map [
           ("success", VBool true);
           ("postId", VNum (id post));
           ("scheduledAt", VDate scheduledAt);
           ("cronExpression", VStr cronExpression)])))
    (λ error,
       log_error [VStr "Error scheduling post:"] error;;
       ret (VObj (list_to_map [
         ("success", VBool false);
         ("error", error)]))).

(** The callback [schedulePost] registers with node-cron. *)
Definition on_fire (post : Z) : Eff World unit :=
  publishPost post;;
  modify (set_jobs (delete (pretty post))).

Definition unschedulePost (postId : Z) : Eff World value :=
  try_catch
    (let jobId := pretty postId in
     job ← gets (λ w, jobs w !! jobId);
     match job with
     | Some job =>
         task_stop (task job);;
         modify (set_jobs (delete jobId));;
         log_info [VStr "Unscheduled post "; VNum postId];;
         ret (VObj {["success" := VBool true]})
     | None =>
         ret (VObj (list_to_map [
           ("success", VBool false);
           ("error", VStr "Job not found")]))
     end)
    (λ error,
       log_error [VStr "Error unscheduling post:"] error;;
       ret (VObj (list_to_map [
         ("success", VBool false);
         ("error", error)]))).

Definition reschedulePost (postId : Z) (newScheduledAt : option Z) : Eff World value :=
  try_catch
    (unschedulePost postId;;
     found ← findOne postId [];
     match found with
     | None => throw (VStr "Post not found")
     | Some post =>
         iso ← of_result (Date_toISOString newScheduledAt);
         update postId {["scheduledAt" := VStr iso]};;
         schedulePost (with_attr "scheduledAt" (VDate newScheduledAt) post)
     end)
    (λ error,
       log_error [VStr "Error rescheduling post:"] error;;
       ret (VObj (list_to_map [
         ("success", VBool false);
         ("error", error)]))).

(** [{ postId, scheduledAt }] of every entry of the Job Table. *)
Definition getScheduledJobs (w : World) : list value :=
  (λ kj : string * ScheduledJob,
     VObj (list_to_map [
       ("postId", VNum (postId kj.2));
       ("scheduledAt", VDate (scheduledAt kj.2))]))
  <$> map_to_list (jobs w).

(** ** node-cron *)

(** node-cron runs the callback of a task at every instant that matches
    its expression, for as long as the task is running.  An expression
    [m h d M *] has no year field: it matches once every year.  [fire h]
    is one such run of the task with handle [h]; a stopped task does not
    run. *)
Definition fire (h : nat) : Eff World unit :=
  t ← gets (λ w, tasks w !! h);
  match t with
  | Some t => if running t then on_fire (target t) else ret ()
  | None => ret ()
  end.

End Service.

(** ** Observations *)

(** The first thing [publishPost] does is to log its start: the number of
    these entries is the number of times the orchestrator was invoked for
    the post. *)
Definition is_publish_start (postId : Z) (e : LogEntry) : bool :=
  match e with
  | LogInfo [VStr s; VNum n] =>
      String.eqb s "Publishing scheduled post " && (n =? postId)
  | _ => false
  end.

Definition publish_starts (postId : Z) (l : list LogEntry) : nat :=
  length (filter (λ e, is_publish_start postId e = true) l).

(** The answer of a connector that [publishPost] counts as a success. *)
Definition succeeded (c : Call * result value) : option value :=
  match c.2 with
  | Ok r => if truthy (get_opt r "success") then Some r else None
  | Throw _ => None
  end.

(** The running tasks whose callback publishes the post. *)
Definition live_triggers (postId : Z) (w : World) : list ScheduledTask :=
  filter (λ t, running t = true ∧ target t = postId) (tasks w).

(** The attributes the Post Store holds for a post. *)
Definition stored (w : World) (postId : Z) (k : string) : value :=
  default VUndef (o ← store w !! postId; o !! k).

(** ** The payload table of the specification *)

Definition payload_table : list string :=
  ["facebook"; "instagram"; "twitter"; "linkedin"; "youtube"; "tiktok"].

(** The platform's computed default fields: the payload of the post taken
    without its overrides. *)
Definition platform_defaults (post : Post) (platform : string) : result value :=
  formatPostForPlatform (with_attr "platformSpecific" VUndef post) platform.

(** The payload as the specification words it: every field of
    [post.platformSpecific[platform]] merged shallowly over the defaults,
    the override taking precedence. *)
Definition merged_payload (post : Post) (platform : string) : result value :=
  rmap (λ d, VObj (own_props (overrides post platform) ∪ own_props d))
       (platform_defaults post platform).

(** How a payload field takes its value from a field of the overrides. *)
Inductive Uptake : Type :=
| IfTruthy      (* [override || default] *)
| IfNotNullish  (* [override ?? default] *)
| Always.       (* [override] *)

Definition taken (u : Uptake) (v : value) : bool :=
  match u with
  | IfTruthy => truthy v
  | IfNotNullish => negb (nullish v)
  | Always => true
  end.

(** For the platforms whose payload is built field by field: the payload
    fields fed from the overrides, each with the override field it reads. *)
Definition override_fields (platform : string) : list (string * string * Uptake) :=
  if decide (platform = "twitter") then
    [("threadMode", "threadMode", IfTruthy); ("threadPosts", "threadPosts", IfTruthy)]
  else if decide (platform = "linkedin") then
    [("visibility", "visibility", IfTruthy)]
  else if decide (platform = "youtube") then
    [("title", "title", IfTruthy); ("description", "description", IfTruthy);
     ("category", "category", Always); ("privacy", "privacy", IfTruthy);
     ("tags", "tags", IfTruthy)]
  else if decide (platform = "tiktok") then
    [("privacy", "privacy", IfTruthy); ("allowComment", "allowComments", IfNotNullish);
     ("allowDuet", "allowDuet", IfNotNullish); ("allowStitch", "allowStitch", IfNotNullish)]
  else [].

(** ** Start-up and shutdown of the service *)

(** The answer of the Post Store to
    [strapi.entityService.findMany('api::social-post.social-post', query)]:
    the entities the store selects for the query, or the error it rejects
    the query with.  Which entities match is the store's business. *)
Class Listing : Type := {
  findMany : gmap Z (gmap string value) → value → result (list Post);
}.

(** [{filters: {status: 'scheduled', scheduledAt: {$gte: iso}}}] *)
Definition scheduled_from (iso : string) : value :=
  VObj {["filters" := VObj (list_to_map [
    ("status", VStr "scheduled");
    ("scheduledAt", VObj {["$gte" := VStr iso]})])]}.

(** A task after [task.stop()]. *)
Definition stopped (t : ScheduledTask) : ScheduledTask :=
  mkTask (expression t) (task_timezone t) (target t) false.

Section Lifecycle.
Context `{RT : Runtime} `{LS : Listing}.

Definition loadScheduledPosts : Eff World unit :=
  try_catch
    (t ← gets now;
     contents ← gets store;
     scheduledPosts ← of_result (findMany contents (scheduled_from (toISOString t)));
     for_each (λ post, schedulePost post;; ret ()) scheduledPosts;;
     log_info [VStr "Loaded "; VNum (Z.of_nat (length scheduledPosts));
               VStr " scheduled posts"])
    (λ error, log_error [VStr "Error loading scheduled posts:"] error).

Definition initialize : Eff World unit :=
  loadScheduledPosts;;
  log_info [VStr "Content Scheduler initialized"].

(** [this.jobs.forEach((job) => job.task.stop()); this.jobs.clear()].  The
    stops commute: the order in which the entries are visited does not
    show. *)
Definition destroy : Eff World unit :=
  entries ← gets (λ w, map_to_list (jobs w));
  for_each (λ entry : string * ScheduledJob, task_stop (task entry.2)) entries;;
  modify (set_jobs (λ _, ∅));;
  log_info [VStr "Content Scheduler destroyed"].

End Lifecycle.

(** ** Runs of the service *)

(** What happens to the service between its start-up and its shutdown:
    its operations on a post are called, node-cron runs a task, time
    passes, the rest of the application writes the Post Store. *)
Inductive Event : Type :=
| SchedulePost (post : Post)
| UnschedulePost (postId : Z)
| ReschedulePost (postId : Z) (newScheduledAt : option Z)
| PublishPost (postId : Z)
| Fire (h : nat)
| Tick (t : Z)
| Edit (posts : gmap Z (gmap string value)).

Section Runs.
Context `{RT : Runtime} `{LS : Listing}.

Definition exec (e : Event) (w : World) : World :=
  match e with
  | SchedulePost post => (schedulePost post w).2
  | UnschedulePost postId => (unschedulePost postId w).2
  | ReschedulePost postId t => (reschedulePost postId t w).2
  | PublishPost postId => (publishPost postId w).2
  | Fire h => (fire h w).2
  | Tick t => set_now t w
  | Edit posts => set_store (λ _, posts) w
  end.

(** The service starts with an empty Job Table and no task registered. *)
Definition start (posts : gmap Z (gmap string value)) (t : Z) : World :=
  mkWorld posts [] [] ∅ [] [] t.

(** The states of the service: it is constructed with an empty Job Table;
    the bootstrap of the application calls [initialize], which loads the
    scheduled posts; the events above happen; [loadScheduledPosts] and
    [destroy] are called, in any order and any number of times. *)
Inductive reachable : World → Prop :=
| reachable_start posts t : reachable (start posts t)
| reachable_initialize w : reachable w → reachable (initialize w).2
| reachable_loadScheduledPosts w : reachable w → reachable (loadScheduledPosts w).2
| reachable_destroy w : reachable w → reachable (destroy w).2
| reachable_exec e w : reachable w → reachable (exec e w).

(** The Job Table is keyed by the string form of the post id, and every
    entry holds the handle of a running task that publishes its post. *)
Definition jobs_wf (w : World) : Prop :=
  ∀ k j, jobs w !! k = Some j →
    k = pretty (postId j) ∧
    ∃ t, tasks w !! task j = Some t ∧ target t = postId j ∧ running t = true.

(** An observation of the scheduler's side of the world: the traffic with
    the Post Store (whose entities the service only updates) and the
    connectors and the logging of errors do not change it. *)
Record Unaffected {B} (obs : World → B) : Prop := {
  unaffected_store f postId w : obs (set_store (alter f postId) w) = obs w;
  unaffected_requests f w : obs (set_requests f w) = obs w;
  unaffected_calls f w : obs (set_calls f w) = obs w;
  unaffected_log_error m e w :
    obs (set_log (λ l, l ++ [LogError m e]) w) = obs w;
}.

(** A computation leaves an observation of the state as it was. *)
Definition leaves {S A B} (obs : S → B) (m : Eff S A) : Prop :=
  ∀ s, obs (m s).2 = obs s.

(** The Post Store is available: it rejects no request. *)
Definition available : Prop := ∀ history r, store_fault history r = None.

(** A computation keeps an invariant of the state, whether it returns or
    throws. *)
Definition keeps {S A} (inv : S → Prop) (m : Eff S A) : Prop :=
  ∀ s, inv s → inv (m s).2.

End Runs.

(** ** A concrete runtime *)

Module Fixture.

(** The civil date of a day count since 1970-01-01 (proleptic Gregorian
    calendar): month (1 to 12) and day of the month. *)
Definition civil_from_days (days : Z) : Z * Z :=
  let z := days + 719468 in
  let era := z / 146097 in
  let doe := z - era * 146097 in
  let yoe := (doe - doe / 1460 + doe / 36524 - doe / 146096) / 365 in
  let doy := doe - (365 * yoe + yoe / 4 - yoe / 100) in
  let mp := (5 * doy + 2) / 153 in
  let d := doy - (153 * mp + 2) / 5 + 1 in
  let m := if mp <? 10 then mp + 3 else mp - 9 in
  (m, d).

(** The wall clock at a fixed offset from UTC. *)
Definition wall_clock (offset_minutes t : Z) : WallClock :=
  let local := t + offset_minutes * 60000 in
  let '(m, d) := civil_from_days (local / 86400000) in
  mkWallClock ((local / 60000) `mod` 60) ((local / 3600000) `mod` 24) d (m - 1).

(** Two zones, the second at its standard-time offset. *)
Definition zoned (d : option Z) (timezone : value) : result (option WallClock) :=
  match timezone with
  | VStr tz =>
      if decide (tz = "UTC") then Ok (wall_clock 0 <$> d)
      else if decide (tz = "America/New_York") then Ok (wall_clock (-300) <$> d)
      else Throw (VStr ("Invalid time zone specified: " +:+ tz))
  | _ => Throw (VStr "Invalid time zone specified")
  end.

(** The facebook service accepts every post, the other services reject
    theirs. *)
Definition facebook_only (history : Calls) (c : Call) : result value :=
  if decide (service c = "facebook") then
    Ok (VObj (list_to_map [("success", VBool true); ("postId", VStr "fb_123")]))
  else
    Ok (VObj (list_to_map [("success", VBool false); ("error", VStr "rate limited")])).

Definition epoch_ms (v : value) : option Z :=
  match v with
  | VNum n => Some n
  | _ => None
  end.

(** A runtime with an available store and node-cron's validator accepting
    every expression. *)
Definition runtime : Runtime := {|
  connector := facebook_only;
  store_fault := λ _ _, None;
  Date_parse := epoch_ms;
  toISOString := λ t, "@" +:+ pretty t;
  utcToZonedTime := zoned;
  cron_validate := λ _, true;
|}.

(** The same runtime with a Post Store that rejects every request. *)
Definition offline : Runtime := {|
  connector := facebook_only;
  store_fault := λ _ _, Some (VStr "connect ECONNREFUSED");
  Date_parse := epoch_ms;
  toISOString := λ t, "@" +:+ pretty t;
  utcToZonedTime := zoned;
  cron_validate := λ _, true;
|}.

(** The write of the final status: the one update with [publishedAt]. *)
Definition final_write (r : Request) : bool :=
  match r with
  | Update _ data => bool_decide (is_Some (data !! "publishedAt"))
  | FindOne _ _ => false
  end.

(** The same runtime with a Post Store that rejects the write of the final
    status and accepts every other request. *)
Definition wavering : Runtime := {|
  connector := facebook_only;
  store_fault := λ _ r,
    if final_write r then Some (VStr "Lock wait timeout exceeded") else None;
  Date_parse := epoch_ms;
  toISOString := λ t, "@" +:+ pretty t;
  utcToZonedTime := zoned;
  cron_validate := λ _, true;
|}.

(** The two zones again, any other zone rendered as an Invalid Date. *)
Definition rendered (d : option Z) (timezone : value) : result (option WallClock) :=
  match zoned d timezone with
  | Ok z => Ok z
  | Throw _ => Ok None
  end.

(** A validator that rejects the expressions of an Invalid Date. *)
Definition numeric (expression : string) : bool :=
  negb (String.prefix "NaN" expression).

Definition strict : Runtime := {|
  connector := facebook_only;
  store_fault := λ _ _, None;
  Date_parse := epoch_ms;
  toISOString := λ t, "@" +:+ pretty t;
  utcToZonedTime := rendered;
  cron_validate := numeric;
|}.

Definition posts (l : list Post) : gmap Z (gmap string value) :=
  list_to_map ((λ p, (id p, fields p)) <$> l).

Definition post1 : Post := mkPost 1 (list_to_map [
  ("content", VStr "Test");
  ("platforms", VArr [VStr "facebook"; VStr "twitter"]);
  ("media", VArr []);
  ("platformSpecific", VObj ∅);
  ("externalIds", VObj ∅)]).

(** A tweet whose overrides name the [text] of the payload. *)
Definition tweet : Post := mkPost 2 (list_to_map [
  ("content", VStr "Test tweet");
  ("platformSpecific",
   VObj {["twitter" := VObj (list_to_map [
     ("text", VStr "override"); ("threadMode", VBool true)])]})]).

(** The clock at the start: 2026-11-01T18:33:20Z. *)
Definition t0 : Z := 1793558000000.
Definition day : Z := 86400000.

(** A post due a day from the start, for facebook. *)
Definition due_tomorrow : Post := mkPost 1 (list_to_map [
  ("content", VStr "Test");
  ("platforms", VArr [VStr "facebook"]);
  ("scheduledAt", VDate (Some (t0 + day)));
  ("timezone", VStr "UTC")]).

(** The same post for readers in New York, and the post due a day
    later. *)
Definition due_tomorrow_ny : Post :=
  with_attr "timezone" (VStr "America/New_York") due_tomorrow.
Definition due_in_two_days : Post :=
  with_attr "scheduledAt" (VDate (Some (t0 + 2 * day))) due_tomorrow.

(** The same post with a timezone that is none. *)
Definition due_nowhere : Post :=
  with_attr "timezone" (VStr "Mars/Olympus") due_tomorrow.

(** A post that targets no platform, and one that targets a platform
    without a connector between two that have one. *)
Definition draft : Post := mkPost 3 (list_to_map [
  ("content", VStr "Draft"); ("platforms", VArr [])]).
Definition toot : Post := mkPost 4 (list_to_map [
  ("content", VStr "Toot");
  ("platforms", VArr [VStr "facebook"; VStr "mastodon"; VStr "twitter"])]).

(** The service started over a store that holds the posts. *)
Definition w0 : World := start (posts [post1; tweet; draft; toot]) 1000.
Definition w1 : World := start (posts [due_tomorrow]) t0.

End Fixture.



(** The store of the fixture selects the posts whose status is
    [scheduled] and whose [scheduledAt] is a Date not before [t]; the
    second store rejects the query. *)
Module FixtureListing.

Definition selects (t : Z) (o : gmap string value) : bool :=
  match o !! "status", o !! "scheduledAt" with
  | Some (VStr status), Some (VDate (Some s)) =>
      String.eqb status "scheduled" && (t <=? s)
  | _, _ => false
  end.

Definition listing (t : Z) : Listing := {|
  findMany contents _ :=
    Ok ((λ entry : Z * gmap string value, mkPost entry.1 entry.2)
        <$> map_to_list (filter (λ entry : Z * gmap string value,
                                   selects t entry.2 = true) contents));
|}.

Definition rejecting : Listing := {|
  findMany _ _ := Throw (VStr "connect ECONNREFUSED");
|}.

(** Two posts waiting to be published, and one that is published. *)
Definition waiting (postId : Z) (s : Z) : Post := mkPost postId (list_to_map [
  ("content", VStr "Test");
  ("platforms", VArr [VStr "facebook"]);
  ("status", VStr "scheduled");
  ("scheduledAt", VDate (Some s));
  ("timezone", VStr "UTC")]).

Definition w2 : World :=
  start (Fixture.posts [
    waiting 1 (Fixture.t0 + Fixture.day);
    waiting 2 (Fixture.t0 + 2 * Fixture.day);
    with_attr "status" (VStr "published") (waiting 3 (Fixture.t0 + Fixture.day))])
    Fixture.t0.

End FixtureListing.


(** ** Requests of one post *)

(** The request addresses the entity [postId]. *)
Definition addresses (postId : Z) (r : Request) : bool :=
  match r with
  | FindOne p _ => p =? postId
  | Update p _ => p =? postId
  end.

(** An observation of the world that the traffic about one post does not
    change: updates of the entity [postId], requests that address it,
    connector calls and error logs. *)
Record Confined {B} (postId : Z) (obs : World → B) : Prop := {
  confined_store f w : obs (set_store (alter f postId) w) = obs w;
  confined_requests r w :
    addresses postId r = true → obs (set_requests (λ l, l ++ [r]) w) = obs w;
  confined_calls f w : obs (set_calls f w) = obs w;
  confined_log_error m e w :
    obs (set_log (λ l, l ++ [LogError m e]) w) = obs w;
}.

(** ** What the formatter reads of the media *)

(** [post.media?.map((m) => m.url)] evaluates: [post.media] is [null] or
    [undefined], or it is an array and none of its elements is. *)
Definition mappable (media : value) : bool :=
  match media with
  | VUndef | VNull => true
  | VArr l => forallb (λ m, negb (nullish m)) l
  | _ => false
  end.

(** The platforms whose payload lists the URL of every media of the post. *)
Definition maps_media : list string :=
  ["facebook"; "instagram"; "twitter"; "linkedin"].

(** The fields of the payloads that the formatter writes out field by
    field. *)
Definition payload_fields (platform : string) : list string :=
  if decide (platform = "twitter") then
    ["text"; "media"; "threadMode"; "threadPosts"]
  else if decide (platform = "linkedin") then
    ["text"; "media"; "visibility"]
  else if decide (platform = "youtube") then
    ["title"; "description"; "videoUrl"; "category"; "privacy"; "tags"]
  else if decide (platform = "tiktok") then
    ["videoUrl"; "caption"; "privacy"; "allowComment"; "allowDuet"; "allowStitch"]
  else [].

(** A post with a media that was deleted, and one published before on
    another platform. *)
Module FixtureMedia.




End FixtureMedia.

(** * The platform connectors *)

(** The services of the social-media-connector plugin that the
    orchestrator calls.  In their models the payload of [Throw] is the
    error object that was thrown: the [catch] blocks of the connectors
    read [error.response] and [error.message]. *)

(** [new Error(message)], read through its [message]. *)
Definition Error (message : value) : value := VObj {["message" := message]}.

(** The TypeError of a failed property read, as an error object. *)
Definition TypeError {A} (r : result A) : result A :=
  match r with
  | Ok a => Ok a
  | Throw message => Throw (Error message)
  end.

(** Whatever the computation throws is an error object, not [null] or
    [undefined]. *)
Definition throws_errors {S R} (m : Eff S R) : Prop :=
  ∀ s e s', m s = (Throw e, s') → nullish e = false.

(** What the computation returns is of the kind [P]. *)
Definition returns {S R} (P : R → Prop) (m : Eff S R) : Prop :=
  ∀ s v s', m s = (Ok v, s') → P v.

(** The computation takes every state to one that is related to it by
    [step], whether it returns or throws. *)
Definition moves {S R} (step : S → S → Prop) (m : Eff S R) : Prop :=
  ∀ s, step s (m s).2.

(** ** The facebook connector *)

(** The publishing half of
    [src/plugins/social-media-connector/server/services/facebook.ts], the
    service the orchestrator calls for facebook and instagram:
    [initialize], [publishPost], [publishVideo], [publishAlbum] and
    [getMediaType].  The service talks to the Graph API through
    [axios.post]; what the API answers is not the service's to decide. *)
Module Facebook.

Record FacebookConfig : Type := mkConfig {
  appId : string;
  appSecret : string;
  accessToken : string;
  pageId : option string;
}.

(** A query parameter of a request: a value, or the number NaN. *)
Inductive Param : Type :=
| Val (v : value)
| NaN.

(** [axios.post(endpoint, null, { params })] *)
Record HttpRequest : Type := mkRequest {
  endpoint : string;
  params : gmap string Param;
}.

(** The requests sent so far, each with the response it got or the error
    it was rejected with. *)
Abbreviation Exchange := (list (HttpRequest * result value)).

Inductive MediaType : Type :=
| photo
| video.

(** What the service is linked against: the Graph API behind axios, and
    the parts of the JavaScript runtime that the model does not spell
    out. *)
Class Http : Type := {
  (** the response of [axios.post], or the error it rejects with *)
  axios_post : Exchange → HttpRequest → result value;
  (** [s.toLowerCase()] *)
  toLowerCase : string → string;
  (** [JSON.stringify(v)] of JSON data *)
  JSON_stringify : value → string;
  (** [v > 0] for [v] that is neither a number nor [undefined] nor [null] *)
  greater_than_zero : value → result bool;
  (** the TypeError of a [for ... of] over a value that is not iterable *)
  not_iterable : value → value;
  (** [process.env[name]] *)
  env : string → option string;
}.

Record Service : Type := mkService {
  config : option FacebookConfig;
  exchange : Exchange;
  log : list LogEntry;
}.

Definition set_config (c : option FacebookConfig) (s : Service) : Service :=
  mkService c (exchange s) (log s).
Definition set_exchange (f : Exchange → Exchange) (s : Service) : Service :=
  mkService (config s) (f (exchange s)) (log s).
Definition set_log (f : list LogEntry → list LogEntry) (s : Service) : Service :=
  mkService (config s) (exchange s) (f (log s)).

(** [needle] occurs in [hay]: [hay.includes(needle)]. *)
Fixpoint includes (needle hay : string) : bool :=
  String.prefix needle hay ||
  match hay with
  | EmptyString => false
  | String _ rest => includes needle rest
  end.

Definition videoExtensions : list string :=
  [".mp4"; ".mov"; ".avi"; ".wmv"; ".flv"; ".mkv"].

Definition graph (page edge : string) : string :=
  "https://graph.facebook.com/v18.0/" +:+ page +:+ "/" +:+ edge.

Section Connector.
Context `{H : Http}.

(** [process.env[name] || ''] *)
Definition env_or_empty (name : string) : string := default "" (env name).

Definition initialize : Eff Service unit :=
  modify (set_config (Some (mkConfig
    (env_or_empty "FACEBOOK_APP_ID")
    (env_or_empty "FACEBOOK_APP_SECRET")
    (env_or_empty "FACEBOOK_ACCESS_TOKEN")
    (Some (env_or_empty "FACEBOOK_PAGE_ID")))));;
  modify (set_log (λ l, l ++ [LogInfo [VStr "Facebook service initialized"]])).

(** [v.k] *)
Definition read (v : value) (k : string) : Eff Service value :=
  of_result (TypeError (get v k)).

(** The guard of the three publishing methods:
    [!this.config?.accessToken || !this.config?.pageId]; past it, the
    access token and the page id. *)
Definition credentials : Eff Service (string * string) :=
  c ← gets config;
  match c with
  | Some (mkConfig _ _ token (Some page)) =>
      if String.eqb token "" || String.eqb page ""
      then throw (Error (VStr "Facebook credentials not configured"))
      else ret (token, page)
  | _ => throw (Error (VStr "Facebook credentials not configured"))
  end.

Definition post (endpoint : string) (params : gmap string Param) : Eff Service value :=
  λ s, let r := mkRequest endpoint params in
       let answer := axios_post (exchange s) r in
       (answer, set_exchange (λ l, l ++ [(r, answer)]) s).

(** [{ success: true, postId: response.data.id, platform: 'facebook',
      ...type, data: response.data }] *)
Definition published (response : value) (type : list (string * value)) : Eff Service value :=
  data ← read response "data";
  postId ← read data "id";
  ret (VObj (list_to_map (
    [("success", VBool true); ("postId", postId); ("platform", VStr "facebook")]
    ++ type ++ [("data", data)]))).

(** The [catch] block of the three methods. *)
Definition failed (label : string) (error : value) : Eff Service value :=
  modify (set_log (λ l, l ++ [LogError [VStr label] error]));;
  response ← read error "response";
  ret (VObj (list_to_map [
    ("success", VBool false);
    ("error", or_else (get_opt response "data") (member error "message"));
    ("platform", VStr "facebook")])).

Definition getMediaType (url : value) : result MediaType :=
  match url with
  | VStr url =>
      let urlLower := toLowerCase url in
      Ok (if existsb (λ ext, includes ext urlLower) videoExtensions
          then video else photo)
  | VUndef | VNull => Throw (Error (cannot_read url "toLowerCase"))
  | _ => Throw (Error (VStr "url.toLowerCase is not a function"))
  end.

Definition publishVideo (postData : value) : Eff Service value :=
  try_catch
    ('(token, page) ← credentials;
     let endpoint := graph page "videos" in
     description ← read postData "message";
     let params : gmap string Param := list_to_map [
       ("description", Val description);
       ("file_url", Val (get_opt (member postData "media") "0"));
       ("access_token", Val (VStr token))] in
     response ← post endpoint params;
     published response [("type", VStr "video")])
    (failed "Facebook video publish error:").

(** Step 1 of [publishAlbum]: the photos are uploaded one by one, and the
    loop ends at the first upload that fails. *)
Fixpoint upload (token page : string) (media : list value) : Eff Service (list value) :=
  match media with
  | [] => ret []
  | url :: rest =>
      let params : gmap string Param := list_to_map [
        ("url", Val url);
        ("published", Val (VBool false));
        ("access_token", Val (VStr token))] in
      response ← post (graph page "photos") params;
      data ← read response "data";
      media_fbid ← read data "id";
      uploadedPhotos ← upload token page rest;
      ret (VObj {["media_fbid" := media_fbid]} :: uploadedPhotos)
  end.

(** The values [for (const media of postData.media || [])] visits. *)
Definition each (media : value) : result (list value) :=
  match or_else media (VArr []) with
  | VArr l => Ok l
  | VStr s => Ok (chars s)
  | v => Throw (not_iterable v)
  end.

Definition publishAlbum (postData : value) : Eff Service value :=
  try_catch
    ('(token, page) ← credentials;
     media ← read postData "media";
     media ← of_result (each media);
     uploadedPhotos ← upload token page media;
     let endpoint := graph page "feed" in
     let params : gmap string Param := list_to_map [
       ("message", Val (member postData "message"));
       ("attached_media", Val (VStr (JSON_stringify (VArr uploadedPhotos))));
       ("access_token", Val (VStr token))] in
     response ← post endpoint params;
     published response [("type", VStr "album")])
    (failed "Facebook album publish error:").

(** [v > 0] *)
Definition positive (v : value) : result bool :=
  match v with
  | VNum n => Ok (0 <? n)
  | VUndef | VNull => Ok false
  | _ => greater_than_zero v
  end.

(** [v === 1] *)
Definition is_one (v : value) : bool :=
  match v with
  | VNum n => n =? 1
  | _ => false
  end.

(** [Math.floor(scheduledTime.getTime() / 1000)] *)
Definition scheduled_publish_time (scheduledTime : value) : result Param :=
  match scheduledTime with
  | VDate (Some t) => Ok (Val (VNum (t / 1000)))
  | VDate None => Ok NaN
  | _ => Throw (Error (VStr "postData.scheduledTime.getTime is not a function"))
  end.

Definition publishPost (postData : value) : Eff Service value :=
  try_catch
    ('(token, page) ← credentials;
     let endpoint := graph page "feed" in
     message ← read postData "message";
     let params : gmap string Param := list_to_map [
       ("message", Val message);
       ("access_token", Val (VStr token))] in
     (* the statements after the handling of the media *)
     let feed (params : gmap string Param) : Eff Service value :=
       let scheduledTime := member postData "scheduledTime" in
       params ← (if truthy scheduledTime then
                   time ← of_result (scheduled_publish_time scheduledTime);
                   ret (<["scheduled_publish_time" := time]>
                          (<["published" := Val (VBool false)]> params))
                 else ret params);
       response ← post endpoint params;
       published response [] in
     let media := member postData "media" in
     if truthy media then
       some ← of_result (positive (member media "length"));
       if (some : bool) then
         if is_one (member media "length") then
           mediaType ← of_result (getMediaType (member media "0"));
           match mediaType with
           | photo => feed (<["url" := Val (member media "0")]> params)
           | video => publishVideo postData
           end
         else publishAlbum postData
       else feed params
     else feed params)
    (failed "Facebook publish error:").

End Connector.

(** The access token and the page id of a service that has both. *)
Definition configured (s : Service) : option (string * string) :=
  match config s with
  | Some (mkConfig _ _ token (Some page)) =>
      if String.eqb token "" || String.eqb page "" then None else Some (token, page)
  | _ => None
  end.

(** What the orchestrator reads of the answer of a connector: an object
    that names the platform and says whether the post was published, with
    the id of the post, or with the error. *)
Definition well_formed (answer : value) : Prop :=
  ∃ o : gmap string value,
    answer = VObj o ∧
    o !! "platform" = Some (VStr "facebook") ∧
    ((o !! "success" = Some (VBool true) ∧ is_Some (o !! "postId")) ∨
     (o !! "success" = Some (VBool false) ∧ is_Some (o !! "error"))).

(** The libraries the service is linked against reject with error
    objects. *)
Definition rejects_with_errors `{H : Http} : Prop :=
  (∀ exchange r e, axios_post exchange r = Throw e → nullish e = false) ∧
  (∀ v e, greater_than_zero v = Throw e → nullish e = false) ∧
  (∀ v, nullish (not_iterable v) = false).

(** The upload of a photo of an album. *)
Definition photo_upload (token page : string) (url : value) : HttpRequest :=
  mkRequest (graph page "photos") (list_to_map [
    ("url", Val url);
    ("published", Val (VBool false));
    ("access_token", Val (VStr token))]).

(** A page with credentials, and a Graph API that accepts every request
    and names the objects it creates after the number of requests it has
    seen. *)
Definition accepting : Http := {|
  axios_post exchange _ :=
    Ok (VObj {["data" := VObj {["id" := VStr ("fb_" +:+ pretty (length exchange))]}]});
  toLowerCase s := s;
  JSON_stringify _ := "[]";
  greater_than_zero _ := Ok false;
  not_iterable _ := Error (VStr "postData.media is not iterable");
  env _ := None;
|}.

Definition page : Service :=
  mkService (Some (mkConfig "app" "secret" "token" (Some "42"))) [] [].

Definition clip : value := VObj (list_to_map [
  ("message", VStr "Watch");
  ("media", VArr [VStr "https://example.com/clip.mp4"]);
  ("scheduledTime", VDate (Some 1793558000000))]).

Definition album : value := VObj (list_to_map [
  ("message", VStr "Look");
  ("media", VArr [VStr "https://example.com/a.jpg"; VStr "https://example.com/b.jpg"])]).

End Facebook.

(** ** The twitter connector *)

(** The publishing half of the twitter service of the plugin
    ([initialize], [publishPost], [publishThread], [uploadMedia]), which
    the orchestrator calls for twitter.  The service talks to the Twitter
    API through a [TwitterApi] client and downloads the media with
    axios. *)
Module Twitter.

Record TwitterConfig : Type := mkConfig {
  appKey : string;
  appSecret : string;
  accessToken : string;
  accessSecret : string;
  bearerToken : string;
}.

(** [new TwitterApi({ appKey, appSecret, accessToken, accessSecret })] *)
Record TwitterApi : Type := mkClient {
  client_appKey : string;
  client_appSecret : string;
  client_accessToken : string;
  client_accessSecret : string;
}.

(** The calls that leave the service. *)
Inductive ApiCall : Type :=
| v2_tweet (tweetData : value)
| axios_get (mediaUrl : value)
| v1_uploadMedia (buffer : value) (mimeType : value).

Abbreviation Exchange := (list (ApiCall * result value)).

Inductive Entry : Type :=
| info (message : string)
| warn (message : string)
| error (message : string) (thrown : value).

Class Api : Type := {
  (** what a call resolves with, or the error it rejects with *)
  answer : Exchange → ApiCall → result value;
  (** [Buffer.from(data)] *)
  Buffer_from : value → result value;
  (** [v > 0] for [v] that is neither a number nor [undefined] nor [null] *)
  greater_than_zero : value → result bool;
  (** the TypeError of a [for ... of] over a value that is not iterable *)
  not_iterable : value → value;
  (** [process.env[name]] *)
  env : string → option string;
}.

Record Service : Type := mkService {
  client : option TwitterApi;
  config : option TwitterConfig;
  exchange : Exchange;
  log : list Entry;
}.

Definition set_client (c : option TwitterApi) (s : Service) : Service :=
  mkService c (config s) (exchange s) (log s).
Definition set_config (c : option TwitterConfig) (s : Service) : Service :=
  mkService (client s) c (exchange s) (log s).
Definition set_exchange (f : Exchange → Exchange) (s : Service) : Service :=
  mkService (client s) (config s) (f (exchange s)) (log s).
Definition set_log (f : list Entry → list Entry) (s : Service) : Service :=
  mkService (client s) (config s) (exchange s) (f (log s)).

Section Connector.
Context `{A : Api}.

Definition env_or_empty (name : string) : string := default "" (env name).

Definition strapi_log (e : Entry) : Eff Service unit :=
  modify (set_log (λ l, l ++ [e])).

Definition initialize : Eff Service unit :=
  let config := mkConfig
    (env_or_empty "TWITTER_API_KEY")
    (env_or_empty "TWITTER_API_SECRET")
    (env_or_empty "TWITTER_ACCESS_TOKEN")
    (env_or_empty "TWITTER_ACCESS_TOKEN_SECRET")
    (env_or_empty "TWITTER_BEARER_TOKEN") in
  modify (set_config (Some config));;
  if negb (String.eqb (appKey config) "") && negb (String.eqb (appSecret config) "")
     && negb (String.eqb (accessToken config) "")
     && negb (String.eqb (accessSecret config) "")
  then
    modify (set_client (Some (mkClient (appKey config) (appSecret config)
                                (accessToken config) (accessSecret config))));;
    strapi_log (info "Twitter service initialized")
  else
    strapi_log (warn "Twitter credentials not fully configured").

(** [v.k] *)
Definition read (v : value) (k : string) : Eff Service value :=
  of_result (TypeError (get v k)).

(** [if (!this.client) throw new Error('Twitter client not initialized')] *)
Definition ready : Eff Service unit :=
  c ← gets client;
  match c with
  | Some _ => ret ()
  | None => throw (Error (VStr "Twitter client not initialized"))
  end.

Definition call (c : ApiCall) : Eff Service value :=
  λ s, let a := answer (exchange s) c in
       (a, set_exchange (λ l, l ++ [(c, a)]) s).

(** [v > 0] *)
Definition positive (v : value) : result bool :=
  match v with
  | VNum n => Ok (0 <? n)
  | VUndef | VNull => Ok false
  | _ => greater_than_zero v
  end.

(** The values a [for ... of] over [v] visits. *)
Definition each (v : value) : result (list value) :=
  match v with
  | VArr l => Ok l
  | VStr s => Ok (chars s)
  | _ => Throw (not_iterable v)
  end.

(** The [catch] block of [publishPost] and of [publishThread]:
    [error.message || fallback]. *)
Definition failed (label fallback : string) (thrown : value) : Eff Service value :=
  strapi_log (error label thrown);;
  message ← read thrown "message";
  ret (VObj (list_to_map [
    ("success", VBool false);
    ("error", or_else message (VStr fallback));
    ("platform", VStr "twitter")])).

(** The loop of [uploadMedia]: every media is downloaded and uploaded in
    turn. *)
Fixpoint upload (mediaUrls : list value) : Eff Service (list value) :=
  match mediaUrls with
  | [] => ret []
  | mediaUrl :: rest =>
      response ← call (axios_get mediaUrl);
      data ← read response "data";
      buffer ← of_result (Buffer_from data);
      headers ← read response "headers";
      mimeType ← read headers "content-type";
      mediaId ← call (v1_uploadMedia buffer mimeType);
      mediaIds ← upload rest;
      ret (mediaId :: mediaIds)
  end.

Definition uploadMedia (mediaUrls : value) : Eff Service value :=
  try_catch
    (ready;;
     mediaUrls ← of_result (each mediaUrls);
     mediaIds ← upload mediaUrls;
     ret (VArr mediaIds))
    (λ thrown,
       strapi_log (error "Twitter media upload error:" thrown);;
       ret (VArr [])).

(** The loop of [publishThread]: every text is tweeted in reply to the
    tweet before it; the result is the [data] of the tweets. *)
Fixpoint reply (replyToId : value) (threadPosts : list value) : Eff Service (list value) :=
  match threadPosts with
  | [] => ret []
  | threadText :: rest =>
      threadTweet ← call (v2_tweet (VObj (list_to_map [
        ("text", threadText);
        ("reply", VObj {["in_reply_to_tweet_id" := replyToId]})])));
      data ← read threadTweet "data";
      replyToId ← read data "id";
      tweets ← reply replyToId rest;
      ret (data :: tweets)
  end.

Definition publishThread (postData : value) : Eff Service value :=
  try_catch
    (ready;;
     text ← read postData "text";
     firstTweet ← call (v2_tweet (VObj {["text" := text]}));
     first ← read firstTweet "data";
     replyToId ← read first "id";
     let threadPosts := member postData "threadPosts" in
     tweets ← (if truthy threadPosts then
                 threadPosts ← of_result (each threadPosts);
                 reply replyToId threadPosts
               else ret []);
     let tweets := first :: tweets in
     ret (VObj (list_to_map [
       ("success", VBool true);
       ("postId", replyToId);
       ("threadIds", VArr ((λ data, member data "id") <$> tweets));
       ("platform", VStr "twitter");
       ("type", VStr "thread");
       ("data", VArr tweets)])))
    (failed "Twitter thread publish error:" "Failed to publish thread").

Definition publishPost (postData : value) : Eff Service value :=
  try_catch
    (ready;;
     threadMode ← read postData "threadMode";
     let threadPosts := member postData "threadPosts" in
     thread ← (if truthy threadMode && truthy threadPosts
               then of_result (positive (member threadPosts "length"))
               else ret false);
     if (thread : bool) then publishThread postData
     else
       let tweetData : gmap string value := {["text" := member postData "text"]} in
       let media := member postData "media" in
       some ← (if truthy media
               then of_result (positive (member media "length"))
               else ret false);
       tweetData ← (if (some : bool) then
                      mediaIds ← uploadMedia media;
                      uploaded ← of_result (positive (member mediaIds "length"));
                      if (uploaded : bool)
                      then ret (<["media" := VObj {["media_ids" := mediaIds]}]> tweetData)
                      else ret tweetData
                    else ret tweetData);
       let poll := member postData "poll" in
       let tweetData :=
         if truthy poll
         then <["poll" := VObj (list_to_map [
                  ("options", member poll "options");
                  ("duration_minutes", member poll "durationMinutes")])]> tweetData
         else tweetData in
       tweet ← call (v2_tweet (VObj tweetData));
       data ← read tweet "data";
       postId ← read data "id";
       ret (VObj (list_to_map [
         ("success", VBool true);
         ("postId", postId);
         ("platform", VStr "twitter");
         ("data", data)])))
    (failed "Twitter publish error:" "Failed to publish tweet").

End Connector.

(** What the orchestrator reads of the answer of the connector. *)
Definition well_formed (answer : value) : Prop :=
  ∃ o : gmap string value,
    answer = VObj o ∧
    o !! "platform" = Some (VStr "twitter") ∧
    ((o !! "success" = Some (VBool true) ∧ is_Some (o !! "postId")) ∨
     (o !! "success" = Some (VBool false) ∧ ∃ e, o !! "error" = Some e ∧ truthy e = true)).

(** The libraries the service is linked against reject with error
    objects. *)
Definition rejects_with_errors `{A : Api} : Prop :=
  (∀ exchange c e, answer exchange c = Throw e → nullish e = false) ∧
  (∀ v e, Buffer_from v = Throw e → nullish e = false) ∧
  (∀ v e, greater_than_zero v = Throw e → nullish e = false) ∧
  (∀ v, nullish (not_iterable v) = false).

(** The tweets among the calls. *)
Definition tweets_of (exchange : Exchange) : list (value * result value) :=
  omap (λ x : ApiCall * result value,
          match x.1 with
          | v2_tweet tweetData => Some (tweetData, x.2)
          | _ => None
          end) exchange.

(** The id the API gave a tweet, [tweet.data.id]. *)
Definition tweet_id (answer : result value) : value :=
  match answer with
  | Ok tweet => get_opt (get_opt tweet "data") "id"
  | Throw _ => VUndef
  end.

(** A tweet of a thread: its text, in reply to the tweet before it. *)
Definition thread_tweet (threadText replyToId : value) : value :=
  VObj (list_to_map [
    ("text", threadText);
    ("reply", VObj {["in_reply_to_tweet_id" := replyToId]})]).

(** The tweet of a post that is not a thread, given the media ids that
    [uploadMedia] returned. *)
Definition tweet_data (postData : value) (mediaIds : list value) : gmap string value :=
  let text : gmap string value := {["text" := member postData "text"]} in
  let with_media :=
    match mediaIds with
    | [] => text
    | _ => <["media" := VObj {["media_ids" := VArr mediaIds]}]> text
    end in
  let poll := member postData "poll" in
  if truthy poll
  then <["poll" := VObj (list_to_map [
           ("options", member poll "options");
           ("duration_minutes", member poll "durationMinutes")])]> with_media
  else with_media.

(** The service went from one state to the other without a tweet. *)
Definition without_tweets (s s' : Service) : Prop :=
  ∃ sent, exchange s' = exchange s ++ sent ∧ tweets_of sent = [].

(** The calls are tweets of a thread, each in reply to the tweet the API
    answered the call before with; the first is in reply to
    [replyToId]. *)
Fixpoint chained (replyToId : value) (threadPosts : list value) (sent : Exchange)
    {struct sent} : Prop :=
  match sent, threadPosts with
  | [], _ => True
  | (c, a) :: sent, threadText :: rest =>
      c = v2_tweet (thread_tweet threadText replyToId) ∧ chained (tweet_id a) rest sent
  | _ :: _, [] => False
  end.

(** An API that accepts every call and numbers what it creates, and a
    service with a client. *)
Definition accepting : Api := {|
  answer exchange _ :=
    Ok (VObj (list_to_map [
      ("data", VObj {["id" := VStr ("tw_" +:+ pretty (length exchange))]});
      ("headers", VObj {["content-type" := VStr "image/jpeg"]})]));
  Buffer_from data := Ok data;
  greater_than_zero _ := Ok false;
  not_iterable _ := Error (VStr "mediaUrls is not iterable");
  env _ := None;
|}.

Definition signed_in : Service :=
  mkService (Some (mkClient "key" "secret" "token" "token-secret")) None [] [].

Definition thread : value := VObj (list_to_map [
  ("text", VStr "1/3");
  ("media", VArr [VStr "https://example.com/a.jpg"]);
  ("threadMode", VBool true);
  ("threadPosts", VArr [VStr "2/3"; VStr "3/3"])]).

End Twitter.

(** * Properties *)

(** ** Reasoning about effects *)

Section Effects.
Context {S : Type}.

Lemma leaves_ret {A B} (obs : S → B) (a : A) : leaves obs (mret a : Eff S A).
Proof. by intros s. Qed.

Lemma leaves_throw {A B} (obs : S → B) e : leaves obs (throw e : Eff S A).
Proof. by intros s. Qed.

Lemma leaves_of_result {A B} (obs : S → B) (r : result A) :
  leaves obs (of_result r : Eff S A).
Proof. by intros s. Qed.

Lemma leaves_gets {A B} (obs : S → B) (f : S → A) : leaves obs (gets f).
Proof. by intros s. Qed.

Lemma leaves_modify {B} (obs : S → B) (f : S → S) :
  (∀ s, obs (f s) = obs s) → leaves obs (modify f).
Proof. intros H s. apply H. Qed.

Lemma leaves_bind {A A' B} (obs : S → B) (m : Eff S A) (k : A → Eff S A') :
  leaves obs m → (∀ a, leaves obs (k a)) → leaves obs (m ≫= k).
Proof.
  intros Hm Hk s. unfold mbind, Eff_bind, bind.
  specialize (Hm s). destruct (m s) as [[a|e] s']; simpl in *; [|done].
  by rewrite Hk.
Qed.

Lemma leaves_try_catch {A B} (obs : S → B) (m : Eff S A) (h : value → Eff S A) :
  leaves obs m → (∀ e, leaves obs (h e)) → leaves obs (try_catch m h).
Proof.
  intros Hm Hh s. unfold try_catch.
  specialize (Hm s). destruct (m s) as [[a|e] s']; simpl in *; [done|].
  by rewrite Hh.
Qed.

Lemma leaves_for_each {A B} (obs : S → B) (body : A → Eff S unit) l :
  (∀ x, leaves obs (body x)) → leaves obs (for_each body l).
Proof.
  intros Hb. induction l as [|x l IH]; simpl.
  - apply leaves_ret.
  - by apply leaves_bind.
Qed.

Lemma leaves_lift {L A B} (obs : S → B) (m : Eff S A) :
  leaves obs m → leaves (λ ls : L * S, obs ls.2) (lift m).
Proof.
  intros Hm [l s]. unfold lift; simpl.
  specialize (Hm s). by destruct (m s).
Qed.

Lemma leaves_locals {L A B} (obs : S → B) (f : L → A) :
  leaves (λ ls : L * S, obs ls.2) (locals f).
Proof. by intros [l s]. Qed.

Lemma leaves_assign {L B} (obs : S → B) (f : L → L) :
  leaves (λ ls : L * S, obs ls.2) (assign f).
Proof. by intros [l s]. Qed.

Lemma leaves_block {L A B} (obs : S → B) (init : L) (m : Eff (L * S) A) :
  leaves (λ ls : L * S, obs ls.2) m → leaves obs (block init m).
Proof.
  intros Hm s. unfold block.
  specialize (Hm (init, s)). by destruct (m (init, s)).
Qed.

Lemma keeps_bind {A A'} (inv : S → Prop) (m : Eff S A) (k : A → Eff S A') :
  keeps inv m → (∀ a, keeps inv (k a)) → keeps inv (m ≫= k).
Proof.
  intros Hm Hk s Hs. unfold mbind, Eff_bind, bind.
  specialize (Hm s Hs). destruct (m s) as [[a|e] s']; simpl in *; [|done].
  by apply Hk.
Qed.

Lemma keeps_try_catch {A} (inv : S → Prop) (m : Eff S A) (h : value → Eff S A) :
  keeps inv m → (∀ e, keeps inv (h e)) → keeps inv (try_catch m h).
Proof.
  intros Hm Hh s Hs. unfold try_catch.
  specialize (Hm s Hs). destruct (m s) as [[a|e] s']; simpl in *; [done|].
  by apply Hh.
Qed.

Lemma keeps_pure {A} (inv : S → Prop) (m : Eff S A) :
  leaves (λ s, s) m → keeps inv m.
Proof. intros Hm s Hs. by rewrite (Hm s). Qed.

End Effects.

(** Splits the goal [leaves obs m] along the structure of [m]. *)
Ltac frame_step :=
  lazymatch goal with
  | |- leaves _ (ret _) => apply leaves_ret
  | |- leaves _ (mret _) => apply leaves_ret
  | |- leaves _ (throw _) => apply leaves_throw
  | |- leaves _ (of_result _) => apply leaves_of_result
  | |- leaves _ (gets _) => apply leaves_gets
  | |- leaves _ (locals _) => apply leaves_locals
  | |- leaves _ (assign _) => apply leaves_assign
  | |- leaves _ (mbind _ _) => apply leaves_bind; [|intros ?]
  | |- leaves _ (try_catch _ _) => apply leaves_try_catch; [|intros ?]
  | |- leaves _ (for_each _ _) => apply leaves_for_each; intros ?
  | |- leaves _ (block _ _) => apply leaves_block
  | |- leaves _ (lift _) => apply leaves_lift
  | |- leaves _ (modify _) => apply leaves_modify; intros ?
  | |- leaves _ (match _ with _ => _ end) => case_match
  end.

(** ** Frames of the Publish Orchestrator *)

Section Frames.
Context `{RT : Runtime} {B : Type} (obs : World → B) (Hobs : Unaffected obs).

Lemma log_error_leaves m e : leaves obs (log_error m e).
Proof using Hobs. intros w. apply Hobs. Qed.

Lemma request_leaves r : leaves obs (request r).
Proof using Hobs.
  intros w. unfold request.
  destruct (store_fault (requests w) r); simpl; apply Hobs.
Qed.

Lemma findOne_leaves postId populate : leaves obs (findOne postId populate).
Proof using Hobs. unfold findOne. repeat frame_step. apply request_leaves. Qed.

Lemma update_leaves postId data : leaves obs (update postId data).
Proof using Hobs.
  unfold update. repeat frame_step; [apply request_leaves|apply Hobs].
Qed.

Lemma call_leaves s m p : leaves obs (call s m p).
Proof using Hobs. intros w. apply Hobs. Qed.

Lemma dispatch_leaves post platform : leaves obs (dispatch post platform).
Proof using Hobs.
  unfold dispatch. destruct platform; try apply leaves_ret.
  repeat case_decide; repeat first [apply call_leaves | frame_step].
Qed.

Lemma publish_to_leaves postId platform :
  leaves (λ fw : Fanout * World, obs fw.2) (publish_to postId platform).
Proof using Hobs.
  unfold publish_to, attempt.
  repeat first
    [ apply dispatch_leaves | apply update_leaves | apply log_error_leaves
    | frame_step ].
Qed.

Lemma publishPost_catch_leaves postId e : leaves obs (publishPost_catch postId e).
Proof using Hobs.
  unfold publishPost_catch.
  repeat first [ apply update_leaves | apply log_error_leaves | frame_step ].
Qed.

(** Past the log entry of its start, the [try] block of [publishPost]
    leaves the observation as it was, and so does [publishPost]. *)
Lemma publishPost_try_frame postId w :
  obs (publishPost_try postId w).2
  = obs (set_log (λ l, l ++ [LogInfo [VStr "Publishing scheduled post "; VNum postId]]) w).
Proof using Hobs.
  pose (body := (found ← findOne postId ["media"; "campaign"; "template"];
     match found with
     | None => throw (VStr "Post not found")
     | Some post =>
         platforms ← of_result (iterate "post.platforms" (attr post "platforms"));
         '(_, f) ← block (mkFanout [] [] post) (for_each (publish_to postId) platforms);
         t ← gets now;
         update postId (list_to_map [
           ("status", VStr (final_status f));
           ("publishedAt", VStr (toISOString t));
           ("publishErrors", VArr (errors f))]);;
         ret (VObj (list_to_map [
           ("success", VBool (bool_decide (errors f = [])));
           ("results", VArr (results f));
           ("errors", VArr (errors f));
           ("postId", VNum postId)]))
     end) : Eff World value).
  set (w1 := set_log _ w).
  assert (publishPost_try postId w = body w1) as -> by done.
  assert (leaves obs body) as H; [|apply H].
  unfold body.
  repeat first
    [ apply findOne_leaves | apply update_leaves | apply publish_to_leaves
    | frame_step ].
Qed.

Lemma publishPost_frame postId w :
  obs (publishPost postId w).2
  = obs (set_log (λ l, l ++ [LogInfo [VStr "Publishing scheduled post "; VNum postId]]) w).
Proof using Hobs.
  rewrite <-publishPost_try_frame. unfold publishPost, try_catch.
  destruct (publishPost_try postId w) as [[v|e] w1]; [done|].
  apply publishPost_catch_leaves.
Qed.

End Frames.

Lemma unaffected_jobs : Unaffected jobs.
Proof. by split. Qed.

Lemma unaffected_tasks : Unaffected tasks.
Proof. by split. Qed.

Lemma unaffected_now : Unaffected now.
Proof. by split. Qed.

(** The service creates and deletes no entity of the Post Store. *)
Lemma unaffected_entities : Unaffected (λ w, dom (store w)).
Proof. split; try done. intros f postId w; simpl. apply dom_alter_L. Qed.

Lemma publish_starts_app postId l l' :
  publish_starts postId (l ++ l') = (publish_starts postId l + publish_starts postId l')%nat.
Proof. unfold publish_starts. by rewrite filter_app, length_app. Qed.

Lemma publish_starts_error postId l m e :
  publish_starts postId (l ++ [LogError m e]) = publish_starts postId l.
Proof.
  rewrite publish_starts_app.
  change (publish_starts postId [LogError m e]) with 0%nat. lia.
Qed.

Lemma unaffected_publish_starts postId :
  Unaffected (λ w, publish_starts postId (log w)).
Proof. split; try done. intros m e w; simpl. apply publish_starts_error. Qed.

(** ** Post Formatter *)

Section Formatter.

Lemma attr_with_attr k v post : attr (with_attr k v post) k = v.
Proof. unfold attr, with_attr; simpl. by rewrite lookup_insert_eq. Qed.

Lemma attr_with_attr_ne k k' v post :
  k ≠ k' → attr (with_attr k v post) k' = attr post k'.
Proof. intros ?. unfold attr, with_attr; simpl. by rewrite lookup_insert_ne. Qed.

Lemma media_urls_ext post post' :
  attr post' "media" = attr post "media" → media_urls post' = media_urls post.
Proof. unfold media_urls. by intros ->. Qed.

Lemma first_media_url_ext post post' :
  attr post' "media" = attr post "media" →
  first_media_url post' = first_media_url post.
Proof. unfold first_media_url. by intros ->. Qed.

Lemma overrides_none post platform :
  overrides (with_attr "platformSpecific" VUndef post) platform = VObj ∅.
Proof. unfold overrides. by rewrite attr_with_attr. Qed.

(** For facebook and instagram the formatter spreads the overrides over
    the two computed fields. *)
Lemma format_spread post platform :
  platform = "facebook" ∨ platform = "instagram" →
  formatPostForPlatform post platform = merged_payload post platform.
Proof.
  intros Hp. unfold merged_payload, platform_defaults, formatPostForPlatform.
  rewrite overrides_none.
  rewrite (media_urls_ext post (with_attr _ _ _)) by by rewrite attr_with_attr_ne.
  rewrite attr_with_attr_ne by done.
  rewrite !decide_True by done.
  destruct (media_urls post) as [media|e]; simpl; [|done].
  by rewrite (left_id_L ∅ (∪)).
Qed.

(** For the four other platforms the payload is a function of the post's
    own attributes and of the override fields of [override_fields]. *)
Lemma format_reads_only post post' platform :
  platform ∈ ["twitter"; "linkedin"; "youtube"; "tiktok"] →
  (∀ k, k ≠ "platformSpecific" → attr post' k = attr post k) →
  (∀ f, f ∈ override_fields platform →
        member (overrides post' platform) f.1.2
        = member (overrides post platform) f.1.2) →
  formatPostForPlatform post' platform = formatPostForPlatform post platform.
Proof.
  intros Hp Hattr Hov. unfold formatPostForPlatform.
  rewrite (media_urls_ext post post') by by apply Hattr.
  rewrite (first_media_url_ext post post') by by apply Hattr.
  rewrite !(Hattr "content"), !(Hattr "title"), !(Hattr "hashtags") by done.
  apply Forall_forall in Hov.
  repeat (apply elem_of_cons in Hp as [->|Hp]); [..|by apply elem_of_nil in Hp];
    unfold override_fields in Hov; simpl in *;
    repeat (apply Forall_cons in Hov as [? Hov]); simpl in *;
    repeat match goal with H : member _ _ = _ |- _ => rewrite H; clear H end;
    done.
Qed.

(** An override field that is taken is the value of its payload field. *)
Lemma format_takes post platform payload field key u :
  formatPostForPlatform post platform = Ok payload →
  (field, key, u) ∈ override_fields platform →
  taken u (member (overrides post platform) key) = true →
  member payload field = member (overrides post platform) key.
Proof.
  unfold formatPostForPlatform, override_fields.
  repeat case_decide; subst; try (by intros _ ?%elem_of_nil);
    try (by destruct_or!; subst);
    (destruct (media_urls post); simpl; [|try done]);
    intros [= <-] Hin; simpl;
    repeat (apply elem_of_cons in Hin as [[= -> -> ->]|Hin]);
    try (by apply elem_of_nil in Hin);
    simpl; unfold or_else, coalesce;
    intros Ht; rewrite ?Ht; try (apply negb_true_iff in Ht; rewrite Ht);
    by simplify_map_eq.
Qed.

End Formatter.

(** C8, as stated, fails: the overrides of a tweet that name [text] are not
    merged over the payload, whose [text] stays the content of the post. *)
Lemma format_twitter_not_merged :
  "twitter" ∈ payload_table ∧
  formatPostForPlatform Fixture.tweet "twitter" ≠ merged_payload Fixture.tweet "twitter" ∧
  rmap (λ p, member p "text") (formatPostForPlatform Fixture.tweet "twitter")
    = Ok (VStr "Test tweet") ∧
  rmap (λ p, member p "text") (merged_payload Fixture.tweet "twitter")
    = Ok (VStr "override").
Proof.
  split; [unfold payload_table; repeat constructor|].
  assert (rmap (λ p, member p "text") (formatPostForPlatform Fixture.tweet "twitter")
          = Ok (VStr "Test tweet")) as H1 by by vm_compute.
  assert (rmap (λ p, member p "text") (merged_payload Fixture.tweet "twitter")
          = Ok (VStr "override")) as H2 by by vm_compute.
  split; [|done]. intros Heq. rewrite Heq, H2 in H1. discriminate.
Qed.

(** C8, amended: for facebook and instagram the payload is the computed
    default fields with every field of [post.platformSpecific[platform]]
    merged shallowly over them, the overrides taking precedence; for
    twitter, linkedin, youtube and tiktok the payload depends on the
    overrides only through the fields of [override_fields], and each of
    these, when taken ([||]: truthy, [??]: neither null nor undefined), is
    the value of its payload field. *)
Theorem formatPostForPlatform_overrides (post : Post) (platform : string) :
  platform ∈ payload_table →
  if decide (platform = "facebook" ∨ platform = "instagram") then
    formatPostForPlatform post platform = merged_payload post platform
  else
    (∀ post',
       (∀ k, k ≠ "platformSpecific" → attr post' k = attr post k) →
       (∀ f, f ∈ override_fields platform →
             member (overrides post' platform) f.1.2
             = member (overrides post platform) f.1.2) →
       formatPostForPlatform post' platform = formatPostForPlatform post platform) ∧
    (∀ payload field key u,
       formatPostForPlatform post platform = Ok payload →
       (field, key, u) ∈ override_fields platform →
       taken u (member (overrides post platform) key) = true →
       member payload field = member (overrides post platform) key).
Proof.
  intros Hp. case_decide as Hfb; [by apply format_spread|].
  assert (platform ∈ ["twitter"; "linkedin"; "youtube"; "tiktok"]) as Hp'.
  { unfold payload_table in Hp.
    apply elem_of_cons in Hp as [->|Hp]; [by destruct Hfb; left|].
    apply elem_of_cons in Hp as [->|Hp]; [by destruct Hfb; right|done]. }
  split.
  - intros post' ??. by apply format_reads_only.
  - intros payload field key u. apply format_takes.
Qed.

Lemma formatPostForPlatform_overrides_witness :
  "twitter" ∈ payload_table ∧
  member (default VUndef (match formatPostForPlatform Fixture.tweet "twitter" with
                          | Ok p => Some p | Throw _ => None end)) "threadMode"
  = VBool true.
Proof.
  assert ("twitter" ∈ payload_table) as Hp by (unfold payload_table; repeat constructor).
  split; [exact Hp|].
  pose proof (formatPostForPlatform_overrides Fixture.tweet "twitter" Hp) as H.
  rewrite decide_False in H by (intros [?|?]; discriminate).
  destruct H as [_ H].
  destruct (formatPostForPlatform Fixture.tweet "twitter") as [p|e] eqn:E;
    [|by vm_compute in E].
  simpl. rewrite (H p "threadMode" "threadMode" IfTruthy eq_refl).
  - by vm_compute.
  - unfold override_fields; simpl. repeat constructor.
  - by vm_compute.
Defined.

(** ** Publish Orchestrator *)

(** Closes one case of an iteration of the fan-out, given the calls it
    made. *)
Ltac iteration_end :=
  split; [reflexivity|]; simpl;
  unfold succeeded, get_opt; simpl;
  repeat match goal with H : _ = _ |- _ => rewrite H end;
  rewrite ?app_nil_r; by repeat split.

Ltac iteration new :=
  first [ eexists _, _, new, []; iteration_end
        | eexists _, _, new, [_]; iteration_end ].

Section Orchestrator.
Context `{RT : Runtime}.


(** [dispatch] makes at most one connector call, and it returns the answer
    of the call it makes. *)
Lemma dispatch_cases post platform w :
  dispatch post platform w = (Ok VUndef, w) ∨
  (∃ e, dispatch post platform w = (Throw e, w)) ∨
  (∃ c, dispatch post platform w
        = (connector (calls w) c,
           set_calls (λ l, l ++ [(c, connector (calls w) c)]) w)).
Proof.
  unfold dispatch. destruct platform; try by left.
  repeat case_decide; try by left.
  all: unfold mbind, Eff_bind, bind, of_result.
  all: destruct (formatPostForPlatform _ _) as [payload|e];
    [right; right; by eexists|right; left; by eexists].
Qed.


(** One iteration of the fan-out returns; the answers that report success
    are the results it pushes, and it only adds to the errors. *)
Lemma publish_to_spec postId platform f w :
  ∃ f' w' new errs,
    publish_to postId platform (f, w) = (Ok (), (f', w')) ∧
    calls w' = calls w ++ new ∧
    results f' = results f ++ omap succeeded new ∧
    errors f' = errors f ++ errs.
Proof.
  unfold publish_to, try_catch, attempt.
  unfold mbind, Eff_bind, bind, locals, lift, gets; cbn [fst snd].
  destruct (dispatch_cases (post f) platform w) as [H|[[e H]|[c H]]];
    rewrite H; clear H; simpl.
  - iteration (@nil (Call * result value)).
  - iteration (@nil (Call * result value)).
  - destruct (connector (calls w) c) as [result|e] eqn:Hc; simpl.
    2:{ iteration [(c, @Throw value e)]. }
    unfold get, get_opt, of_result, update, request, assign, modify, ret,
      mbind, Eff_bind, bind, gets.
    destruct (nullish result) eqn:Hnull; simpl.
    { iteration [(c, Ok result)]. }
    destruct (truthy (member result "success")) eqn:Hsuccess; simpl.
    2:{ iteration [(c, Ok result)]. }
    destruct (set_member _ _ _) as [externalIds|e]; simpl.
    2:{ iteration [(c, Ok result)]. }
    destruct (truthy (attr (post f) "externalIds")); simpl;
      destruct (store_fault _ _); simpl; iteration [(c, Ok result)].
Qed.


(** The fan-out visits every platform and returns. *)
Lemma fanout_spec postId platforms f w :
  ∃ f' w' new errs,
    for_each (publish_to postId) platforms (f, w) = (Ok (), (f', w')) ∧
    calls w' = calls w ++ new ∧
    results f' = results f ++ omap succeeded new ∧
    errors f' = errors f ++ errs.
Proof.
  revert f w. induction platforms as [|p platforms IH]; intros f w; simpl.
  { eexists f, w, [], []. by rewrite !app_nil_r. }
  destruct (publish_to_spec postId p f w)
    as (f1 & w1 & new1 & errs1 & Hrun & Hcalls & Hres & Herr).
  destruct (IH f1 w1) as (f2 & w2 & new2 & errs2 & Hrun2 & Hcalls2 & Hres2 & Herr2).
  exists f2, w2, (new1 ++ new2), (errs1 ++ errs2).
  unfold mbind, Eff_bind, bind. rewrite Hrun, Hrun2.
  rewrite Hcalls2, Hcalls, Hres2, Hres, Herr2, Herr, omap_app.
  by rewrite !(assoc_L (++)).
Qed.

(** What the store holds for a post after an update of it. *)
Lemma stored_update postId (data : gmap string value) w k :
  is_Some (store w !! postId) →
  stored (set_store (alter (λ o, data ∪ o) postId) w) postId k
  = default (stored w postId k) (data !! k).
Proof.
  intros [o Ho]. unfold stored; simpl. rewrite lookup_alter_eq, Ho; simpl.
  destruct (data !! k) as [v|] eqn:Hk; simpl.
  - by erewrite lookup_union_Some_l.
  - by rewrite lookup_union_r.
Qed.

(** [publishPost] on a post the store holds, when the store is available
    and [post.platforms] can be iterated: the fan-out runs from the loaded
    post, then the status is written and the result returned. *)
Lemma publishPost_loaded postId o platforms w :
  available →
  store w !! postId = Some o →
  iterate "post.platforms" (attr (mkPost postId o) "platforms") = Ok platforms →
  ∃ f w2,
    for_each (publish_to postId) platforms
      (mkFanout [] [] (mkPost postId o),
       set_requests (λ l, l ++ [FindOne postId ["media"; "campaign"; "template"]])
         (set_log (λ l, l ++ [LogInfo [VStr "Publishing scheduled post "; VNum postId]]) w))
    = (Ok (), (f, w2)) ∧
    results f = omap succeeded (drop (length (calls w)) (calls w2)) ∧
    dom (store w2) = dom (store w) ∧
    let data : gmap string value := list_to_map [
      ("status", VStr (final_status f));
      ("publishedAt", VStr (toISOString (now w2)));
      ("publishErrors", VArr (errors f))] in
    publishPost postId w =
      (Ok (VObj (list_to_map [
         ("success", VBool (bool_decide (errors f = [])));
         ("results", VArr (results f));
         ("errors", VArr (errors f));
         ("postId", VNum postId)])),
       set_store (alter (λ o, data ∪ o) postId)
         (set_requests (λ l, l ++ [Update postId data]) w2)).
Proof.
  intros Hav Hstore Hiter.
  edestruct (fanout_spec postId platforms)
    as (f & w2 & new & errs & Hrun & Hcalls & Hres & _).
  exists f, w2. split; [exact Hrun|].
  split. { simpl in Hcalls. by rewrite Hcalls, drop_app_length. }
  split.
  { pose proof (leaves_for_each _ _ platforms
      (publish_to_leaves _ unaffected_entities postId)) as Hdom.
    specialize (Hdom (mkFanout [] [] (mkPost postId o),
      set_requests (λ l, l ++ [FindOne postId ["media"; "campaign"; "template"]])
        (set_log (λ l, l ++ [LogInfo [VStr "Publishing scheduled post "; VNum postId]]) w))).
    rewrite Hrun in Hdom. exact Hdom. }
  unfold publishPost, publishPost_try, try_catch, log_info, findOne, request,
    update, request, block, mbind, Eff_bind, bind, modify, gets, of_result;
    cbn [fst snd].
  rewrite Hav. cbn [requests store set_requests set_log fmap option_fmap option_map].
  rewrite Hstore.
  change (mkPost postId <$> Some o) with (Some (mkPost postId o)). cbv beta iota.
  rewrite Hiter, Hrun. cbn [fst snd rmap rbind].
  rewrite Hav. done.
Qed.








(** The [try] block of [publishPost] for a post the store does not hold. *)
Lemma publishPost_try_absent postId w :
  store w !! postId = None →
  store_fault (requests w) (FindOne postId ["media"; "campaign"; "template"]) = None →
  publishPost_try postId w
  = (Throw (VStr "Post not found"),
     set_requests (λ l, l ++ [FindOne postId ["media"; "campaign"; "template"]])
       (set_log (λ l, l ++ [LogInfo [VStr "Publishing scheduled post "; VNum postId]]) w)).
Proof.
  intros Hstore Hok.
  unfold publishPost_try, log_info, findOne, request, mbind, Eff_bind, bind,
    modify, gets; cbn [fst snd].
  cbn [requests set_log]. rewrite Hok.
  cbn [store set_requests set_log]. by rewrite Hstore.
Qed.

Lemma alter_absent {A} (g : A → A) (m : gmap Z A) i :
  m !! i = None → alter g i m = m.
Proof.
  intros Hi. apply map_eq. intros j.
  destruct (decide (i = j)) as [<-|Hne].
  - by rewrite lookup_alter_eq, Hi.
  - by rewrite lookup_alter_ne.
Qed.

End Orchestrator.



(** C9, as stated, fails: when the Post Store rejects the write of the
    final status, [publishPost] of a post whose [platforms] list is empty
    returns [{success: false, error, postId}], and the store holds status
    [failed] and one [publishErrors] entry. *)
Lemma publishPost_no_platforms_failed :
  attr Fixture.draft "platforms" = VArr [] ∧
  store Fixture.w0 !! 3 = Some (fields Fixture.draft) ∧
  calls (publishPost (RT := Fixture.wavering) 3 Fixture.w0).2 = [] ∧
  (publishPost (RT := Fixture.wavering) 3 Fixture.w0).1
    = Ok (VObj (list_to_map [
        ("success", VBool false);
        ("error", VStr "Lock wait timeout exceeded");
        ("postId", VNum 3)])) ∧
  stored (publishPost (RT := Fixture.wavering) 3 Fixture.w0).2 3 "status"
    = VStr "failed" ∧
  stored (publishPost (RT := Fixture.wavering) 3 Fixture.w0).2 3 "publishErrors"
    = VArr [VObj {["error" := VStr "Lock wait timeout exceeded"]}].
Proof. repeat split; by vm_compute. Qed.

(** C9, amended: when the Post Store rejects no request and the loaded
    post's [platforms] list is empty, [publishPost]
    calls no platform and sends no [externalIds] update (its only requests
    to the store are the load and the final write), writes status
    [published] with an empty [publishErrors], and returns
    [{success: true, results: [], errors: [], postId}]. *)
Theorem publishPost_no_platforms `{RT : Runtime}
    (w : World) (postId : Z) (o : gmap string value) :
  available →
  store w !! postId = Some o →
  attr (mkPost postId o) "platforms" = VArr [] →
  let '(r, w') := publishPost postId w in
  r = Ok (VObj (list_to_map [
        ("success", VBool true);
        ("results", VArr []);
        ("errors", VArr []);
        ("postId", VNum postId)])) ∧
  calls w' = calls w ∧
  requests w' = requests w ++ [
    FindOne postId ["media"; "campaign"; "template"];
    Update postId (list_to_map [
      ("status", VStr "published");
      ("publishedAt", VStr (toISOString (now w)));
      ("publishErrors", VArr [])])] ∧
  stored w' postId "status" = VStr "published" ∧
  stored w' postId "publishErrors" = VArr [] ∧
  stored w' postId "externalIds" = stored w postId "externalIds".
Proof.
  intros Hav Hstore Hplat.
  destruct (publishPost_loaded postId o [] w Hav Hstore)
    as (f & w2 & Hrun & _ & _ & ->).
  { by rewrite Hplat. }
  simpl in Hrun. injection Hrun as <- <-.
  split; [done|]. split; [done|].
  split. { simpl. by rewrite <-(assoc_L (++)). }
  rewrite !stored_update by (simpl; by rewrite Hstore).
  repeat split; by vm_compute.
Qed.


(** C2, as stated, fails: with a Post Store that rejects its requests,
    [publishPost] of a post the store does not hold throws. *)
Lemma publishPost_throws_offline :
  store Fixture.w0 !! 7 = None ∧
  (publishPost (RT := Fixture.offline) 7 Fixture.w0).1
  = Throw (VStr "connect ECONNREFUSED").
Proof. split; by vm_compute. Qed.

(** C2, amended: when the Post Store accepts the failure write of the
    [catch] block, [publishPost] returns a value: an exception of the
    [try] block outside the per-platform loop is caught, written as status
    [failed] with one [publishErrors] entry, and returned as
    [{success: false, error, postId}].  For a post the store does not hold
    (and a store that answers the load), the error is "Post not found" and
    the contents of the store stay as they were: the failure write
    addresses the missing entity and writes nothing. *)
Theorem publishPost_resolves `{RT : Runtime} (w : World) (postId : Z) :
  (∀ history e,
     store_fault history (Update postId (list_to_map [
       ("status", VStr "failed");
       ("publishErrors", VArr [VObj {["error" := e]}])])) = None) →
  let '(r, w') := publishPost postId w in
  (∃ v, r = Ok v) ∧
  (∀ e w1,
     publishPost_try postId w = (Throw e, w1) →
     r = Ok (VObj (list_to_map [
           ("success", VBool false); ("error", e); ("postId", VNum postId)])) ∧
     (is_Some (store w !! postId) →
      stored w' postId "status" = VStr "failed" ∧
      stored w' postId "publishErrors" = VArr [VObj {["error" := e]}])) ∧
  (store w !! postId = None →
   store_fault (requests w) (FindOne postId ["media"; "campaign"; "template"]) = None →
   r = Ok (VObj (list_to_map [
         ("success", VBool false);
         ("error", VStr "Post not found");
         ("postId", VNum postId)])) ∧
   store w' = store w).
Proof.
  intros Hok.
  pose proof (publishPost_try_frame _ unaffected_entities postId w) as Hdom.
  pose proof (publishPost_try_absent postId w) as Habsent.
  unfold publishPost, try_catch.
  destruct (publishPost_try postId w) as [[v|e] w1] eqn:Htry.
  { split; [by eexists|]. split; [by intros ?? [=]|].
    intros Hstore Hfind. by specialize (Habsent Hstore Hfind). }
  simpl in Hdom.
  assert (publishPost_catch postId e w1
    = (Ok (VObj (list_to_map [
           ("success", VBool false); ("error", e); ("postId", VNum postId)])),
       set_store (alter (λ o, (list_to_map [
           ("status", VStr "failed");
           ("publishErrors", VArr [VObj {["error" := e]}])] : gmap string value) ∪ o)
         postId)
         (set_requests (λ l, l ++ [Update postId (list_to_map [
           ("status", VStr "failed");
           ("publishErrors", VArr [VObj {["error" := e]}])])])
            (set_log (λ l, l ++ [LogError [VStr "Error publishing post:"] e]) w1))))
    as ->.
  { unfold publishPost_catch, log_error, update, request, mbind, Eff_bind, bind,
      modify, gets; cbn [fst snd]. by rewrite Hok. }
  split; [by eexists|]. split.
  - intros e' w1' [= <- <-]. split; [done|]. intros Hsome.
    rewrite !stored_update.
    + split; by vm_compute.
    + simpl. apply elem_of_dom. rewrite Hdom. by apply elem_of_dom.
    + simpl. apply elem_of_dom. rewrite Hdom. by apply elem_of_dom.
  - intros Hstore Hfind. specialize (Habsent Hstore Hfind).
    injection Habsent as -> ->. split; [done|]. simpl.
    by apply alter_absent.
Qed.

(** ** Scheduler *)

Section Scheduler.
Context `{RT : Runtime}.

Lemma publishPost_tasks postId w : tasks (publishPost postId w).2 = tasks w.
Proof. by rewrite (publishPost_frame tasks unaffected_tasks). Qed.

Lemma publishPost_jobs postId w : jobs (publishPost postId w).2 = jobs w.
Proof. by rewrite (publishPost_frame jobs unaffected_jobs). Qed.

Lemma publishPost_now postId w : now (publishPost postId w).2 = now w.
Proof. by rewrite (publishPost_frame now unaffected_now). Qed.

(** One run of [publishPost] logs one start, for its post. *)
Lemma publishPost_starts postId postId' w :
  publish_starts postId' (log (publishPost postId w).2)
  = (publish_starts postId' (log w) + if decide (postId = postId') then 1 else 0)%nat.
Proof.
  rewrite (publishPost_frame _ (unaffected_publish_starts postId')); simpl.
  rewrite publish_starts_app. f_equal.
  unfold publish_starts; simpl.
  case_decide as Hid.
  - subst. rewrite filter_cons_True; [done|]. simpl. by rewrite Z.eqb_refl.
  - rewrite filter_cons_False; [done|]. simpl.
    intros ?%Z.eqb_eq. done.
Qed.

(** The outcome of [schedulePost] for a post that is due. *)
Lemma schedulePost_due post w s :
  new_Date (attr post "scheduledAt") = Some s → s ≤ now w →
  schedulePost post w =
    match publishPost (id post) w with
    | (Ok _, w') => (Ok VUndef, w')
    | (Throw e, w') =>
        (Ok (VObj (list_to_map [("success", VBool false); ("error", e)])),
         set_log (λ l, l ++ [LogError [VStr "Error scheduling post:"] e]) w')
    end.
Proof.
  intros Hs Hle. unfold schedulePost, try_catch at 1.
  rewrite Hs. unfold mbind, Eff_bind, bind, gets; simpl.
  rewrite (proj2 (Z.leb_le s (now w))) by done.
  by destruct (publishPost (id post) w) as [[r|e] w'].
Qed.

(** [schedulePost] either leaves the Job Table and the registry as they
    were, or registers one running task for the post and stores its
    handle under the string form of the post id. *)
Lemma schedulePost_registry post w :
  let w' := (schedulePost post w).2 in
  (tasks w' = tasks w ∧ jobs w' = jobs w) ∨
  (∃ expr tz d,
     tasks w' = tasks w ++ [mkTask expr tz (id post) true] ∧
     jobs w' = <[pretty (id post) :=
                  mkJob (pretty (id post)) (length (tasks w)) (id post) d]> (jobs w)).
Proof.
  unfold schedulePost, try_catch.
  unfold mbind, Eff_bind, bind, gets; simpl.
  destruct (Date_le _ _).
  - left.
    pose proof (publishPost_tasks (id post) w).
    pose proof (publishPost_jobs (id post) w).
    by destruct (publishPost (id post) w) as [[r|e] w1].
  - unfold of_result.
    destruct (utcToZonedTime _ _) as [z|e]; simpl; [|by left].
    destruct (cron_validate _); simpl; [|by left].
    right. eexists _, _, _.
    by destruct (Date_toISOString _).
Qed.

Lemma unschedulePost_eq postId w :
  unschedulePost postId w =
    match jobs w !! pretty postId with
    | Some job =>
        (Ok (VObj {["success" := VBool true]}),
         set_log (λ l, l ++ [LogInfo [VStr "Unscheduled post "; VNum postId]])
           (set_jobs (delete (pretty postId)) (set_tasks (alter
              (λ t, mkTask (expression t) (task_timezone t) (target t) false)
              (task job)) w)))
    | None =>
        (Ok (VObj (list_to_map [
           ("success", VBool false); ("error", VStr "Job not found")])), w)
    end.
Proof.
  unfold unschedulePost, try_catch, mbind, Eff_bind, bind, gets; simpl.
  by destruct (jobs w !! pretty postId).
Qed.

Lemma jobs_wf_ext w w' :
  jobs w' = jobs w → tasks w' = tasks w → jobs_wf w → jobs_wf w'.
Proof. unfold jobs_wf. by intros -> ->. Qed.

Lemma keeps_jobs_wf {A} (m : Eff World A) :
  leaves jobs m → leaves tasks m → keeps jobs_wf m.
Proof. intros Hj Ht w. by apply jobs_wf_ext. Qed.

Lemma publishPost_keeps postId : keeps jobs_wf (publishPost postId).
Proof.
  intros w. apply jobs_wf_ext; [apply publishPost_jobs|apply publishPost_tasks].
Qed.

Lemma schedulePost_keeps post : keeps jobs_wf (schedulePost post).
Proof.
  intros w Hw.
  destruct (schedulePost_registry post w) as [[Ht Hj]|(expr & tz & d & Ht & Hj)].
  { by apply (jobs_wf_ext w). }
  intros k j. rewrite Hj, Ht. intros Hk.
  apply lookup_insert_Some in Hk as [[<- <-]|[Hne Hk]]; simpl.
  - split; [done|]. eexists. split; [by rewrite lookup_app_r, Nat.sub_diag by lia|done].
  - destruct (Hw k j Hk) as [-> (t & Hlook & ? & ?)].
    split; [done|]. exists t. split; [|done].
    by apply lookup_app_l_Some.
Qed.

Lemma unschedulePost_keeps postId : keeps jobs_wf (unschedulePost postId).
Proof.
  intros w Hw. rewrite unschedulePost_eq.
  destruct (jobs w !! pretty postId) as [job|] eqn:Hjob; [|done].
  intros k j; simpl. intros Hk.
  apply lookup_delete_Some in Hk as [Hne Hk].
  destruct (Hw k j Hk) as [-> (t & Hlook & Htarget & Hrun)].
  destruct (Hw _ _ Hjob) as [Hkey (t' & Hlook' & Htarget' & _)].
  split; [done|]. exists t. split; [|done].
  rewrite list_lookup_alter_ne; [done|].
  intros Heq. rewrite Heq in Hlook'. simplify_eq. congruence.
Qed.

Lemma on_fire_keeps postId : keeps jobs_wf (on_fire postId).
Proof.
  unfold on_fire. apply keeps_bind; [apply publishPost_keeps|].
  intros _ w Hw k j; simpl. intros Hk.
  apply lookup_delete_Some in Hk as [_ Hk]. by apply Hw.
Qed.

Lemma fire_keeps h : keeps jobs_wf (fire h).
Proof.
  unfold fire. apply keeps_bind; [by apply keeps_pure|].
  intros [t|]; [|by apply keeps_pure].
  destruct (running t); [apply on_fire_keeps|by apply keeps_pure].
Qed.

Lemma reschedulePost_keeps postId t : keeps jobs_wf (reschedulePost postId t).
Proof.
  unfold reschedulePost.
  apply keeps_try_catch.
  - apply keeps_bind; [apply unschedulePost_keeps|intros _].
    apply keeps_bind.
    { apply keeps_jobs_wf; apply findOne_leaves;
        [apply unaffected_jobs|apply unaffected_tasks]. }
    intros [post|]; [|by apply keeps_pure].
    apply keeps_bind; [by apply keeps_pure|intros iso].
    apply keeps_bind; [|intros _; apply schedulePost_keeps].
    apply keeps_jobs_wf; apply update_leaves;
      [apply unaffected_jobs|apply unaffected_tasks].
  - intros e. apply keeps_bind; [|intros _; by apply keeps_pure].
    apply keeps_jobs_wf; by intros w.
Qed.

(** The run of a trigger stops no task: the registry is as it was. *)
Lemma fire_tasks h w : tasks (fire h w).2 = tasks w.
Proof.
  unfold fire, on_fire, mbind, Eff_bind, bind, gets, modify; simpl.
  destruct (tasks w !! h) as [t|]; [|done].
  destruct (running t); [|done].
  pose proof (publishPost_tasks (target t) w) as Ht.
  by destruct (publishPost (target t) w) as [[v|e] w1].
Qed.

(** Every run of a live trigger invokes the Publish Orchestrator for its
    post. *)
Lemma fire_starts h t w :
  tasks w !! h = Some t → running t = true →
  publish_starts (target t) (log (fire h w).2)
  = S (publish_starts (target t) (log w)).
Proof.
  intros Hh Hrun.
  unfold fire, on_fire, mbind, Eff_bind, bind, gets, modify; simpl.
  rewrite Hh, Hrun.
  pose proof (publishPost_starts (target t) (target t) w) as Hs.
  rewrite decide_True in Hs by done.
  destruct (publishPost (target t) w) as [[v|e] w1]; simpl in *; lia.
Qed.

(** A trigger that is live is live after its run, and its second run
    invokes the Publish Orchestrator again. *)
Lemma fire_twice h t w :
  tasks w !! h = Some t → running t = true →
  let w' := (fire h w).2 in
  tasks w' !! h = Some t ∧
  publish_starts (target t) (log (fire h w').2)
  = S (S (publish_starts (target t) (log w))).
Proof.
  intros Hh Hrun w'. subst w'.
  assert (tasks (fire h w).2 !! h = Some t) as Hh' by by rewrite fire_tasks.
  split; [done|].
  by rewrite (fire_starts h t _ Hh' Hrun), (fire_starts h t _ Hh Hrun).
Qed.

(** [schedulePost] stops no task: a live trigger stays live. *)
Lemma schedulePost_live post w i t :
  tasks w !! i = Some t → tasks (schedulePost post w).2 !! i = Some t.
Proof.
  intros Hi.
  destruct (schedulePost_registry post w) as [[-> _]|(expr & tz & d & -> & _)];
    [done|].
  by apply lookup_app_l_Some.
Qed.

(** The outcome of [schedulePost] for a post that is not due yet, once
    its instant is rendered in its timezone. *)
Lemma schedulePost_later post w s z :
  new_Date (attr post "scheduledAt") = Some s →
  now w < s →
  let timezone := or_else (attr post "timezone") (VStr "UTC") in
  utcToZonedTime (Some s) timezone = Ok z →
  schedulePost post w =
    if cron_validate (cron_expression z) then
      (Ok (VObj (list_to_map [
         ("success", VBool true);
         ("postId", VNum (id post));
         ("scheduledAt", VDate (Some s));
         ("cronExpression", VStr (cron_expression z))])),
       set_log (λ l, l ++ [LogInfo [VStr "Scheduled post "; VNum (id post);
                                    VStr " for "; VStr (toISOString s)]])
         (set_jobs (<[pretty (id post) :=
            mkJob (pretty (id post)) (length (tasks w)) (id post) (Some s)]>)
            (set_tasks (λ l, l ++ [mkTask (cron_expression z) timezone (id post) true])
               w)))
    else
      (Ok (VObj (list_to_map [
         ("success", VBool false);
         ("error", VStr ("Invalid cron expression: " +:+ cron_expression z))])),
       set_log (λ l, l ++ [LogError [VStr "Error scheduling post:"]
                             (VStr ("Invalid cron expression: " +:+ cron_expression z))])
         w).
Proof.
  intros Hs Hlt timezone Hz.
  unfold schedulePost, try_catch.
  rewrite Hs. unfold mbind, Eff_bind, bind, gets; simpl.
  rewrite (proj2 (Z.leb_gt s (now w))) by done.
  fold timezone. rewrite Hz. unfold of_result; simpl.
  by destruct (cron_validate (cron_expression z)).
Qed.

Lemma filter_none {A} (P : A → Prop) `{∀ x, Decision (P x)} (l : list A) :
  (∀ x, x ∈ l → ¬ P x) → filter P l = [].
Proof.
  induction l as [|x l IH]; intros Hl; [done|].
  rewrite filter_cons_False by (apply Hl; left).
  apply IH. intros y Hy. apply Hl. by right.
Qed.

(** [reschedulePost] of a post whose only live trigger is the one of its
    Job Table entry: the trigger is stopped, and the post is left with one
    entry and one live trigger, at the new time. *)
Lemma reschedulePost_replaces postId o job w t2 z :
  available →
  jobs w !! pretty postId = Some job →
  (∀ i t, tasks w !! i = Some t → running t = true → target t = postId →
          i = task job) →
  store w !! postId = Some o →
  now w < t2 →
  let timezone := or_else (attr (mkPost postId o) "timezone") (VStr "UTC") in
  utcToZonedTime (Some t2) timezone = Ok z →
  cron_validate (cron_expression z) = true →
  let w' := (reschedulePost postId (Some t2) w).2 in
  jobs w' !! pretty postId
    = Some (mkJob (pretty postId) (length (tasks w)) postId (Some t2)) ∧
  live_triggers postId w' = [mkTask (cron_expression z) timezone postId true].
Proof.
  intros Hav Hjob Honly Hstore Hlt timezone Hz Hvalid w'. subst w'.
  destruct (reschedulePost postId (Some t2) w) as [r w'] eqn:Hrun.
  unfold reschedulePost, try_catch in Hrun.
  unfold mbind, Eff_bind, bind in Hrun. rewrite unschedulePost_eq, Hjob in Hrun.
  set (wA := set_log _ _) in Hrun.
  unfold findOne, request, mbind, Eff_bind, bind, gets in Hrun.
  rewrite Hav in Hrun. cbn [fst snd] in Hrun.
  cbn [store set_requests wA set_log set_jobs set_tasks] in Hrun.
  rewrite Hstore in Hrun.
  change (mkPost postId <$> Some o) with (Some (mkPost postId o)) in Hrun.
  cbv beta iota in Hrun.
  unfold of_result in Hrun. cbn [Date_toISOString] in Hrun.
  unfold update, request, mbind, Eff_bind, bind, gets, modify in Hrun.
  rewrite Hav in Hrun. cbn [fst snd] in Hrun.
  match type of Hrun with
  | context [schedulePost ?p ?x] => set (post' := p) in Hrun; set (wB := x) in Hrun
  end.
  assert (new_Date (attr post' "scheduledAt") = Some t2) as Hdate.
  { subst post'. by rewrite attr_with_attr. }
  assert (or_else (attr post' "timezone") (VStr "UTC") = timezone) as Htz.
  { subst post'. by rewrite attr_with_attr_ne. }
  pose proof (schedulePost_later post' wB t2 z Hdate) as Hsched.
  rewrite Htz in Hsched. rewrite Hsched, Hvalid in Hrun by done.
  injection Hrun as <- <-.
  subst wB wA. unfold live_triggers.
  cbn [snd jobs tasks set_log set_jobs set_tasks set_store set_requests].
  split.
  - rewrite lookup_insert_eq. by rewrite length_alter.
  - rewrite filter_app, filter_none.
    + by rewrite filter_cons_True, filter_nil.
    + intros t Ht [Hrun Htarget].
      apply list_elem_of_lookup in Ht as [i Hi].
      destruct (decide (i = task job)) as [->|Hne].
      * rewrite list_lookup_alter_eq in Hi.
        destruct (tasks w !! task job); by simplify_eq/=.
      * rewrite list_lookup_alter_ne in Hi by done.
        by specialize (Honly i t Hi Hrun Htarget).
Qed.

End Scheduler.

(** ** The states of the service *)

Section Started.
Context `{RT : Runtime} `{LS : Listing}.

Lemma keeps_for_each {S A} (inv : S → Prop) (body : A → Eff S unit) l :
  (∀ x, keeps inv (body x)) → keeps inv (for_each body l).
Proof.
  intros Hb. induction l as [|x l IH]; simpl; [by intros s|].
  by apply keeps_bind.
Qed.

Lemma loadScheduledPosts_keeps : keeps jobs_wf loadScheduledPosts.
Proof.
  unfold loadScheduledPosts. apply keeps_try_catch.
  - apply keeps_bind; [by apply keeps_pure|intros t].
    apply keeps_bind; [by apply keeps_pure|intros contents].
    apply keeps_bind; [by apply keeps_pure|intros scheduledPosts].
    apply keeps_bind; [|intros _; apply keeps_jobs_wf; by intros w].
    apply keeps_for_each. intros post.
    apply keeps_bind; [apply schedulePost_keeps|intros _; by apply keeps_pure].
  - intros e. apply keeps_jobs_wf; by intros w.
Qed.

Lemma initialize_keeps : keeps jobs_wf initialize.
Proof.
  unfold initialize. apply keeps_bind.
  - apply loadScheduledPosts_keeps.
  - intros _. apply keeps_jobs_wf; by intros w.
Qed.

Lemma stop_entries (entries : list (string * ScheduledJob)) w :
  for_each (λ entry : string * ScheduledJob, task_stop (task entry.2)) entries w
  = (Ok (), set_tasks (λ l, foldl (λ l entry, alter stopped (task entry.2) l) l entries) w).
Proof.
  revert w. induction entries as [|entry entries IH]; intros w; simpl.
  { by destruct w. }
  unfold mbind, Eff_bind, bind, task_stop, modify. by rewrite IH.
Qed.

Lemma destroy_eq w :
  destroy w
  = (Ok (),
     set_log (λ l, l ++ [LogInfo [VStr "Content Scheduler destroyed"]])
       (set_jobs (λ _, ∅)
          (set_tasks (λ l, foldl (λ l entry, alter stopped (task entry.2) l) l
                               (map_to_list (jobs w))) w))).
Proof.
  unfold destroy, mbind, Eff_bind, bind, gets. by rewrite stop_entries.
Qed.

Lemma destroy_jobs_wf w : jobs_wf (destroy w).2.
Proof. rewrite destroy_eq. intros k j. simpl. by rewrite lookup_empty. Qed.

Lemma start_jobs_wf posts t : jobs_wf (start posts t).
Proof. intros k j. simpl. by rewrite lookup_empty. Qed.

(** The invariant of the Job Table holds in every state the service
    reaches, before and after its start-up and its shutdown. *)
Lemma reachable_jobs_wf w : reachable w → jobs_wf w.
Proof.
  induction 1 as [posts t|w _ IH|w _ IH|w _ IH|e w _ IH].
  - apply start_jobs_wf.
  - by apply initialize_keeps.
  - by apply loadScheduledPosts_keeps.
  - apply destroy_jobs_wf.
  - destruct e; simpl.
    + by apply schedulePost_keeps.
    + by apply unschedulePost_keeps.
    + by apply reschedulePost_keeps.
    + by apply publishPost_keeps.
    + by apply fire_keeps.
    + done.
    + done.
Qed.

End Started.

(** C5: a post whose [scheduledAt] is not after [now] (the instant [now]
    itself included) registers no trigger and adds no Job Table entry;
    [schedulePost] runs the Publish Orchestrator for the post, once, before
    it returns. *)
Theorem schedulePost_past `{RT : Runtime} (post : Post) (w : World) (s : Z) :
  new_Date (attr post "scheduledAt") = Some s →
  s ≤ now w →
  let w' := (schedulePost post w).2 in
  tasks w' = tasks w ∧
  jobs w' = jobs w ∧
  publish_starts (id post) (log w') = S (publish_starts (id post) (log w)) ∧
  (∀ other, other ≠ id post →
     publish_starts other (log w') = publish_starts other (log w)) ∧
  calls w' = calls (publishPost (id post) w).2 ∧
  store w' = store (publishPost (id post) w).2.
Proof.
  intros Hs Hle w'. subst w'. rewrite (schedulePost_due _ _ _ Hs Hle).
  pose proof (publishPost_tasks (id post) w) as Ht.
  pose proof (publishPost_jobs (id post) w) as Hj.
  pose proof (publishPost_starts (id post) (id post) w) as Hc.
  rewrite decide_True in Hc by done.
  assert (∀ other, other ≠ id post →
    publish_starts other (log (publishPost (id post) w).2)
    = publish_starts other (log w)) as Ho.
  { intros other Hne. rewrite publishPost_starts.
    rewrite decide_False by done. lia. }
  destruct (publishPost (id post) w) as [[r|e] w1]; simpl in *.
  - repeat split; try done. lia.
  - repeat split; try done.
    + rewrite publish_starts_error. lia.
    + intros other Hne. rewrite publish_starts_error. by apply Ho.
Qed.

(** C6: for a post whose [scheduledAt] is in the future, the trigger
    specification has the minute, hour, day-of-month and month of the
    instant as rendered in the post's timezone (UTC when the post has none)
    and a wildcard day of week; it is validated; when the validation fails
    [schedulePost] returns [{success: false, error}] and registers nothing,
    otherwise it registers the trigger and the job and returns
    [{success: true, postId, scheduledAt, cronExpression}].  A timezone in
    which the instant renders as an Invalid Date gives the specification
    [NaN NaN NaN NaN *], which is validated like any other; when the
    rendering throws, [schedulePost] returns [{success: false, error}] and
    registers nothing. *)
Theorem schedulePost_future `{RT : Runtime} (post : Post) (w : World) (s : Z) :
  new_Date (attr post "scheduledAt") = Some s →
  now w < s →
  let timezone := or_else (attr post "timezone") (VStr "UTC") in
  let field (getter : WallClock → Z) (zonedTime : option WallClock) : string :=
    match zonedTime with
    | Some local => pretty (getter local)
    | None => "NaN"
    end in
  let '(r, w') := schedulePost post w in
  match utcToZonedTime (Some s) timezone with
  | Ok zonedTime =>
      let triggerSpec :=
        field getMinutes zonedTime +:+ " " +:+ field getHours zonedTime +:+ " "
          +:+ field getDate zonedTime +:+ " "
          +:+ field (λ local, getMonth local + 1) zonedTime +:+ " *" in
      if cron_validate triggerSpec then
        r = Ok (VObj (list_to_map [
              ("success", VBool true);
              ("postId", VNum (id post));
              ("scheduledAt", VDate (Some s));
              ("cronExpression", VStr triggerSpec)])) ∧
        tasks w' = tasks w ++ [mkTask triggerSpec timezone (id post) true] ∧
        jobs w' = <[pretty (id post) :=
                     mkJob (pretty (id post)) (length (tasks w)) (id post) (Some s)]> (jobs w)
      else
        r = Ok (VObj (list_to_map [
              ("success", VBool false);
              ("error", VStr ("Invalid cron expression: " +:+ triggerSpec))])) ∧
        tasks w' = tasks w ∧
        jobs w' = jobs w
  | Throw error =>
      r = Ok (VObj (list_to_map [("success", VBool false); ("error", error)])) ∧
      tasks w' = tasks w ∧
      jobs w' = jobs w
  end.
Proof.
  intros Hs Hlt timezone field.
  destruct (utcToZonedTime (Some s) timezone) as [z|error] eqn:Hz.
  - rewrite (schedulePost_later post w s z Hs Hlt Hz).
    cbv zeta.
    assert (field getMinutes z +:+ " " +:+ field getHours z +:+ " "
              +:+ field getDate z +:+ " "
              +:+ field (λ local, getMonth local + 1) z +:+ " *"
            = cron_expression z) as -> by by destruct z.
    by destruct (cron_validate (cron_expression z)).
  - unfold schedulePost, try_catch.
    rewrite Hs. unfold mbind, Eff_bind, bind, gets; simpl.
    rewrite (proj2 (Z.leb_gt s (now w))) by done.
    fold timezone. by rewrite Hz.
Qed.

(** C7: [unschedulePost(postId)] looks the Job Table up by the string form
    of [postId]; when an entry exists it stops its task, removes the entry
    and returns [{success: true}], otherwise it returns
    [{success: false, error: "Job not found"}] and changes nothing; so
    a second call reports not-found, and [getScheduledJobs()] after an
    unschedule does not include the post.  This holds in every state of
    the service: after its construction, after its start-up, after any of
    its operations and after its shutdown. *)
Theorem unschedulePost_spec `{RT : Runtime} `{LS : Listing}
    (w : World) (postId : Z) :
  reachable w →
  let '(r, w') := unschedulePost postId w in
  match jobs w !! pretty postId with
  | Some job =>
      r = Ok (VObj {["success" := VBool true]}) ∧
      jobs w' = delete (pretty postId) (jobs w) ∧
      ∃ t, tasks w !! task job = Some t ∧ running t = true ∧
           tasks w' = <[task job :=
                         mkTask (expression t) (task_timezone t) (target t) false]>
                      (tasks w)
  | None =>
      r = Ok (VObj (list_to_map [
            ("success", VBool false); ("error", VStr "Job not found")])) ∧
      w' = w
  end ∧
  (unschedulePost postId w').1
    = Ok (VObj (list_to_map [
        ("success", VBool false); ("error", VStr "Job not found")])) ∧
  ∀ v, v ∈ getScheduledJobs w' → member v "postId" ≠ VNum postId.
Proof.
  intros Hreach.
  pose proof (reachable_jobs_wf w Hreach) as Hwf.
  pose proof (unschedulePost_keeps postId w Hwf) as Hwf'.
  destruct (unschedulePost postId w) as [r w'] eqn:Hrun.
  rewrite unschedulePost_eq in Hrun. simpl in Hwf'.
  assert (jobs w' !! pretty postId = None) as Hgone.
  { destruct (jobs w !! pretty postId) as [job|] eqn:Hjob; simplify_eq; simpl.
    - apply lookup_delete_eq.
    - done. }
  split; [|split].
  - destruct (jobs w !! pretty postId) as [job|] eqn:Hjob; simplify_eq; simpl.
    + split; [done|]. split; [done|].
      destruct (Hwf _ _ Hjob) as [_ (t & Hlook & _ & Hrun)].
      exists t. split; [done|]. split; [done|].
      apply list_eq. intros i.
      destruct (decide (i = task job)) as [->|Hne].
      * rewrite list_lookup_alter_eq, list_lookup_insert_eq, Hlook; [done|].
        by eapply lookup_lt_Some.
      * by rewrite list_lookup_alter_ne, list_lookup_insert_ne.
    + done.
  - rewrite unschedulePost_eq. by rewrite Hgone.
  - intros v Hv. unfold getScheduledJobs in Hv.
    apply list_elem_of_fmap in Hv as ([k j] & -> & Hkj).
    apply elem_of_map_to_list in Hkj. simpl.
    rewrite lookup_insert_eq. simpl. intros [= Heq].
    destruct (Hwf' _ _ Hkj) as [-> _]. rewrite Heq in Hkj. congruence.
Qed.

(** ** The trigger after its fire, and a second schedule *)

(** C3 (the code differs): the callback of the trigger publishes the post
    and removes the Job Table entry, but it does not stop the task.  For
    the post [{id: 1, platforms: ["facebook"], scheduledAt: now + 1 day,
    timezone: "UTC"}]: after the first fire the Job Table is empty and the
    trigger is still live; its expression matches again a year later, and
    the fire at that instant runs the Publish Orchestrator for the post a
    second time. *)
Theorem fired_trigger_stays_live :
  let run := exec (RT := Fixture.runtime) in
  let scheduled := run (SchedulePost Fixture.due_tomorrow) Fixture.w1 in
  let fired := run (Fire 0) (run (Tick (Fixture.t0 + Fixture.day)) scheduled) in
  let a_year_later := Fixture.t0 + Fixture.day + 365 * Fixture.day in
  let fired_again := run (Fire 0) (run (Tick a_year_later) fired) in
  tasks scheduled = [mkTask "33 18 2 11 *" (VStr "UTC") 1 true] ∧
  jobs fired = ∅ ∧
  publish_starts 1 (log fired) = 1%nat ∧
  live_triggers 1 fired = [mkTask "33 18 2 11 *" (VStr "UTC") 1 true] ∧
  cron_expression (Some (Fixture.wall_clock 0 a_year_later)) = "33 18 2 11 *" ∧
  publish_starts 1 (log fired_again) = 2%nat ∧
  length (calls fired_again) = 2%nat.
Proof. by vm_compute. Qed.

(** C4 (the code differs): [schedulePost] of a post that has an active job
    overwrites the Job Table entry without stopping the task of the prior
    job: two live triggers publish the post, and only the second has a
    Job Table entry.  [reschedulePost] stops the prior task first and
    leaves one live trigger, at the new time. *)
Theorem schedulePost_keeps_prior_trigger :
  let run := exec (RT := Fixture.runtime) in
  let scheduled := run (SchedulePost Fixture.due_tomorrow) Fixture.w1 in
  let again := run (SchedulePost Fixture.due_in_two_days) scheduled in
  let rescheduled :=
    run (ReschedulePost 1 (Some (Fixture.t0 + 2 * Fixture.day))) scheduled in
  map_to_list (jobs again)
    = [("1", mkJob "1" 1 1 (Some (Fixture.t0 + 2 * Fixture.day)))] ∧
  live_triggers 1 again
    = [mkTask "33 18 2 11 *" (VStr "UTC") 1 true;
       mkTask "33 18 3 11 *" (VStr "UTC") 1 true] ∧
  map_to_list (jobs rescheduled)
    = [("1", mkJob "1" 1 1 (Some (Fixture.t0 + 2 * Fixture.day)))] ∧
  live_triggers 1 rescheduled = [mkTask "33 18 3 11 *" (VStr "UTC") 1 true].
Proof. by vm_compute. Qed.

(** ** The theorems at work on the concrete runtime *)

Lemma fixture_available : @available Fixture.runtime.
Proof. intros history r. reflexivity. Defined.


Lemma publishPost_resolves_witness :
  (∀ history e,
     store_fault (Runtime := Fixture.runtime) history (Update 7 (list_to_map [
       ("status", VStr "failed");
       ("publishErrors", VArr [VObj {["error" := e]}])])) = None) ∧
  (publishPost (RT := Fixture.runtime) 7 Fixture.w0).1
  = Ok (VObj (list_to_map [
      ("success", VBool false);
      ("error", VStr "Post not found");
      ("postId", VNum 7)])).
Proof.
  assert (∀ history e,
     store_fault (Runtime := Fixture.runtime) history (Update 7 (list_to_map [
       ("status", VStr "failed");
       ("publishErrors", VArr [VObj {["error" := e]}])])) = None) as Hok
    by (intros; reflexivity).
  split; [exact Hok|].
  pose proof (publishPost_resolves (RT := Fixture.runtime) Fixture.w0 7 Hok) as H.
  destruct (publishPost (RT := Fixture.runtime) 7 Fixture.w0) as [r w'].
  destruct H as (_ & _ & H).
  destruct H as [Hr _]; [vm_compute; reflexivity|reflexivity|exact Hr].
Defined.

Lemma schedulePost_past_witness :
  let post := with_attr "scheduledAt" (VNum 1000) Fixture.post1 in
  new_Date (RT := Fixture.runtime) (attr post "scheduledAt") = Some 1000 ∧
  1000 ≤ now Fixture.w0 ∧
  tasks (schedulePost (RT := Fixture.runtime) post Fixture.w0).2 = [] ∧
  publish_starts 1 (log (schedulePost (RT := Fixture.runtime) post Fixture.w0).2)
    = 1%nat.
Proof.
  intros post.
  assert (new_Date (RT := Fixture.runtime) (attr post "scheduledAt") = Some 1000)
    as Hdate by (vm_compute; reflexivity).
  assert (1000 ≤ now Fixture.w0) as Hle by (simpl; lia).
  split; [exact Hdate|]. split; [exact Hle|].
  destruct (schedulePost_past (RT := Fixture.runtime) post Fixture.w0 1000 Hdate Hle)
    as (Htasks & _ & Hstarts & _).
  split; [exact Htasks|exact Hstarts].
Defined.

Lemma schedulePost_future_witness :
  (new_Date (RT := Fixture.runtime) (attr Fixture.due_tomorrow_ny "scheduledAt")
     = Some (Fixture.t0 + Fixture.day) ∧
   now Fixture.w1 < Fixture.t0 + Fixture.day ∧
   utcToZonedTime (Runtime := Fixture.runtime) (Some (Fixture.t0 + Fixture.day))
     (or_else (attr Fixture.due_tomorrow_ny "timezone") (VStr "UTC"))
     = Ok (Some (mkWallClock 33 13 2 10)) ∧
   (schedulePost (RT := Fixture.runtime) Fixture.due_tomorrow_ny Fixture.w1).1
   = Ok (VObj (list_to_map [
       ("success", VBool true);
       ("postId", VNum 1);
       ("scheduledAt", VDate (Some (Fixture.t0 + Fixture.day)));
       ("cronExpression", VStr "33 13 2 11 *")]))) ∧
  (new_Date (RT := Fixture.strict) (attr Fixture.due_nowhere "scheduledAt")
     = Some (Fixture.t0 + Fixture.day) ∧
   utcToZonedTime (Runtime := Fixture.strict) (Some (Fixture.t0 + Fixture.day))
     (or_else (attr Fixture.due_nowhere "timezone") (VStr "UTC")) = Ok None ∧
   (schedulePost (RT := Fixture.strict) Fixture.due_nowhere Fixture.w1).1
   = Ok (VObj (list_to_map [
       ("success", VBool false);
       ("error", VStr "Invalid cron expression: NaN NaN NaN NaN *")])) ∧
   tasks (schedulePost (RT := Fixture.strict) Fixture.due_nowhere Fixture.w1).2 = []).
Proof.
  assert (now Fixture.w1 < Fixture.t0 + Fixture.day) as Hlt by (vm_compute; reflexivity).
  split.
  - assert (new_Date (RT := Fixture.runtime) (attr Fixture.due_tomorrow_ny "scheduledAt")
            = Some (Fixture.t0 + Fixture.day)) as Hdate by (vm_compute; reflexivity).
    assert (utcToZonedTime (Runtime := Fixture.runtime) (Some (Fixture.t0 + Fixture.day))
              (or_else (attr Fixture.due_tomorrow_ny "timezone") (VStr "UTC"))
            = Ok (Some (mkWallClock 33 13 2 10))) as Hzone by (vm_compute; reflexivity).
    split; [exact Hdate|]. split; [exact Hlt|]. split; [exact Hzone|].
    pose proof (schedulePost_future (RT := Fixture.runtime) Fixture.due_tomorrow_ny
                  Fixture.w1 _ Hdate Hlt) as H.
    cbv zeta in H. rewrite Hzone in H.
    destruct (schedulePost (RT := Fixture.runtime) Fixture.due_tomorrow_ny Fixture.w1)
      as [r w'].
    simpl in H. destruct H as [Hr _]. rewrite Hr. vm_compute. reflexivity.
  - assert (new_Date (RT := Fixture.strict) (attr Fixture.due_nowhere "scheduledAt")
            = Some (Fixture.t0 + Fixture.day)) as Hdate by (vm_compute; reflexivity).
    assert (utcToZonedTime (Runtime := Fixture.strict) (Some (Fixture.t0 + Fixture.day))
              (or_else (attr Fixture.due_nowhere "timezone") (VStr "UTC"))
            = Ok None) as Hzone by (vm_compute; reflexivity).
    split; [exact Hdate|]. split; [exact Hzone|].
    pose proof (schedulePost_future (RT := Fixture.strict) Fixture.due_nowhere
                  Fixture.w1 _ Hdate Hlt) as H.
    cbv zeta in H. rewrite Hzone in H.
    destruct (schedulePost (RT := Fixture.strict) Fixture.due_nowhere Fixture.w1)
      as [r w'].
    simpl in H. destruct H as (Hr & Ht & _). split; [exact Hr|exact Ht].
Defined.

Lemma unschedulePost_spec_witness :
  let LS := FixtureListing.listing Fixture.t0 in
  let w := (initialize (RT := Fixture.runtime) (LS := LS) FixtureListing.w2).2 in
  dom (jobs w) = {["1"; "2"]} ∧
  @reachable Fixture.runtime LS w ∧
  (unschedulePost 1 w).1 = Ok (VObj {["success" := VBool true]}) ∧
  (unschedulePost 1 (unschedulePost 1 w).2).1
  = Ok (VObj (list_to_map [
      ("success", VBool false); ("error", VStr "Job not found")])).
Proof.
  intros LS w.
  assert (@reachable Fixture.runtime LS w) as Hreach.
  { apply reachable_initialize. apply reachable_start. }
  split; [by vm_compute|].
  split; [exact Hreach|].
  pose proof (unschedulePost_spec (RT := Fixture.runtime) (LS := LS) w 1 Hreach) as H.
  destruct (unschedulePost 1 w) as [r w'].
  assert (jobs w !! pretty 1 = Some (mkJob "1" 1 1 (Some (Fixture.t0 + Fixture.day))))
    as Hjob by by vm_compute.
  rewrite Hjob in H.
  destruct H as ((Hr & _) & H & _). split; [exact Hr|exact H].
Defined.

Lemma publishPost_no_platforms_witness :
  @available Fixture.runtime ∧
  store Fixture.w0 !! 3 = Some (fields Fixture.draft) ∧
  attr (mkPost 3 (fields Fixture.draft)) "platforms" = VArr [] ∧
  calls (publishPost (RT := Fixture.runtime) 3 Fixture.w0).2 = [] ∧
  stored (publishPost (RT := Fixture.runtime) 3 Fixture.w0).2 3 "status"
    = VStr "published".
Proof.
  assert (store Fixture.w0 !! 3 = Some (fields Fixture.draft)) as Hstore
    by (vm_compute; reflexivity).
  assert (attr (mkPost 3 (fields Fixture.draft)) "platforms" = VArr []) as Hplat
    by (vm_compute; reflexivity).
  split; [exact fixture_available|]. split; [exact Hstore|]. split; [exact Hplat|].
  pose proof (publishPost_no_platforms (RT := Fixture.runtime) Fixture.w0 3
                (fields Fixture.draft) fixture_available Hstore Hplat) as H.
  destruct (publishPost (RT := Fixture.runtime) 3 Fixture.w0) as [r w'].
  destruct H as (_ & Hcalls & _ & Hstatus & _).
  split; [exact Hcalls|exact Hstatus].
Defined.


(** * Further properties of the service *)

Set Warnings "-clear-no-such-hyp".

(** ** What the operations return, and what they keep *)

Section Lifecycle_facts.
Context `{RT : Runtime} `{LS : Listing}.

Lemma schedulePost_returns post w : ∃ v, (schedulePost post w).1 = Ok v.
Proof.
  unfold schedulePost, try_catch.
  match goal with |- context [match ?m w with _ => _ end] => destruct (m w) as [[v|e] w1] end;
    by eexists.
Qed.

Lemma unschedulePost_returns postId w : ∃ v, (unschedulePost postId w).1 = Ok v.
Proof. rewrite unschedulePost_eq. destruct (jobs w !! pretty postId); by eexists. Qed.

Lemma lookup_stop_entries (entries : list (string * ScheduledJob))
    (l : list ScheduledTask) (i : nat) :
  foldl (λ l entry, alter stopped (task entry.2) l) l entries !! i
  = if decide (i ∈ (λ entry, task entry.2) <$> entries)
    then stopped <$> l !! i else l !! i.
Proof.
  revert l. induction entries as [|entry entries IH]; intros l.
  { rewrite decide_False; [done|]. apply not_elem_of_nil. }
  cbn [foldl]. rewrite IH, fmap_cons.
  destruct (decide (i = task entry.2)) as [->|Hne].
  - rewrite list_lookup_alter_eq, (decide_True (P := _ ∈ _ :: _)) by left.
    case_decide; [|done]. by destruct (l !! task entry.2).
  - rewrite list_lookup_alter_ne by done.
    case_decide as Hin.
    + by rewrite decide_True by by right.
    + rewrite decide_False; [done|]. by intros [?|?]%elem_of_cons.
Qed.

End Lifecycle_facts.

(** X2: [destroy] stops the task of every entry of the Job Table, empties
    the table (so [getScheduledJobs] lists nothing) and leaves every other
    task of the registry and the Post Store as they were; a second
    [destroy] changes nothing more. *)
Theorem destroy_stops_jobs (w : World) :
  let '(r, w') := destroy w in
  r = Ok () ∧
  jobs w' = ∅ ∧
  getScheduledJobs w' = [] ∧
  (∀ k j t, jobs w !! k = Some j → tasks w !! task j = Some t →
            tasks w' !! task j = Some (stopped t)) ∧
  (∀ i, (∀ k j, jobs w !! k = Some j → task j ≠ i) →
        tasks w' !! i = tasks w !! i) ∧
  store w' = store w ∧
  tasks (destroy w').2 = tasks w' ∧
  jobs (destroy w').2 = ∅.
Proof.
  rewrite destroy_eq.
  split; [done|]. split; [done|].
  split. { unfold getScheduledJobs; simpl. by rewrite map_to_list_empty. }
  split.
  { intros k j t Hj Ht. simpl. rewrite lookup_stop_entries, decide_True, Ht; [done|].
    apply list_elem_of_fmap. exists (k, j). split; [done|].
    by apply elem_of_map_to_list. }
  split.
  { intros i Hi. simpl. rewrite lookup_stop_entries, decide_False; [done|].
    intros ([k j] & -> & Hin)%list_elem_of_fmap.
    apply elem_of_map_to_list in Hin. by eapply Hi. }
  split; [done|].
  rewrite destroy_eq. simpl. rewrite map_to_list_empty. done.
Qed.

Section Loading.
Context `{RT : Runtime} `{LS : Listing}.

(** What one [schedulePost] adds to the registry and to the Job Table. *)
Lemma schedulePost_adds post w :
  ∃ added,
    tasks (schedulePost post w).2 = tasks w ++ added ∧
    (length added ≤ 1)%nat ∧
    Forall (λ t, running t = true ∧ target t = id post) added ∧
    dom (jobs (schedulePost post w).2) ⊆ dom (jobs w) ∪ {[pretty (id post)]}.
Proof.
  destruct (schedulePost_registry post w) as [[-> ->]|(expr & tz & d & -> & ->)].
  - exists []. rewrite app_nil_r. repeat split; [simpl; lia|constructor|set_solver].
  - eexists [_]. repeat split; [simpl; lia|by repeat constructor|].
    rewrite dom_insert_L. set_solver.
Qed.

Lemma schedule_all_adds (found : list Post) w :
  ∃ w' added,
    for_each (λ post, schedulePost post;; ret ()) found w = (Ok (), w') ∧
    tasks w' = tasks w ++ added ∧
    (length added ≤ length found)%nat ∧
    Forall (λ t, running t = true ∧ target t ∈ id <$> found) added ∧
    dom (jobs w') ⊆ dom (jobs w) ∪ list_to_set ((λ post, pretty (id post)) <$> found).
Proof.
  revert w. induction found as [|post found IH]; intros w.
  { exists w, []. rewrite app_nil_r. repeat split; [done|constructor|set_solver]. }
  destruct (schedulePost_adds post w) as (added1 & Ht1 & Hlen1 & Hall1 & Hdom1).
  destruct (schedulePost_returns post w) as [v Hv].
  destruct (schedulePost post w) as [r w1] eqn:Hrun. simpl in *. subst r.
  destruct (IH w1) as (w' & added2 & Hrun2 & Ht2 & Hlen2 & Hall2 & Hdom2).
  exists w', (added1 ++ added2).
  unfold mbind, Eff_bind, bind. rewrite Hrun. unfold ret at 1.
  split; [exact Hrun2|].
  split; [by rewrite Ht2, Ht1, (assoc_L (++))|].
  split; [rewrite length_app; lia|].
  split.
  - apply Forall_app. split.
    + eapply Forall_impl; [exact Hall1|]. intros t [? ->]. split; [done|]. left.
    + eapply Forall_impl; [exact Hall2|]. intros t [? ?]. split; [done|]. by right.
  - set_solver.
Qed.

End Loading.

(** X3: [loadScheduledPosts] stops no task and replaces none: it appends
    to the registry at most one task per post the store answered with, each
    running and publishing one of these posts, and every key it adds to
    the Job Table is the string form of the id of one of them.  When the
    store rejects the query, the registry and the Job Table stay as they
    were, the error is logged, and [initialize] still completes. *)
Theorem loadScheduledPosts_registers `{RT : Runtime} `{LS : Listing} (w : World) :
  let answer := findMany (store w) (scheduled_from (toISOString (now w))) in
  let found := match answer with Ok l => l | Throw _ => [] end in
  let '(r, w') := loadScheduledPosts w in
  r = Ok () ∧
  (∃ added,
     tasks w' = tasks w ++ added ∧
     (length added ≤ length found)%nat ∧
     Forall (λ t, running t = true ∧ target t ∈ id <$> found) added) ∧
  dom (jobs w') ⊆ dom (jobs w) ∪ list_to_set ((λ post, pretty (id post)) <$> found) ∧
  (∀ e, answer = Throw e →
        w' = set_log (λ l, l ++ [LogError [VStr "Error loading scheduled posts:"] e]) w ∧
        initialize w
        = (Ok (), set_log (λ l, l ++ [LogInfo [VStr "Content Scheduler initialized"]]) w')).
Proof.
  intros answer found.
  unfold initialize.
  unfold loadScheduledPosts, try_catch, mbind, Eff_bind, bind, gets, of_result.
  fold answer. destruct answer as [l|e] eqn:Hanswer; subst found; cbn [fst snd].
  - destruct (schedule_all_adds l w) as (w' & added & Hrun & Ht & Hlen & Hall & Hdom).
    unfold mbind, Eff_bind, bind in Hrun. rewrite Hrun. cbn [fst snd].
    unfold log_info, modify. cbn [fst snd].
    split; [done|]. split; [by exists added|]. split; [done|]. by intros e' [=].
  - unfold log_error, log_info, modify. cbn [fst snd].
    split; [done|]. split.
    { exists []. rewrite app_nil_r. repeat split; [done|constructor]. }
    split; [set_solver|]. by intros e' [= <-].
Qed.

(** X4: the invariant of the Job Table (every entry is filed under the
    string form of its post id and holds the handle of a running task that
    publishes that post) is kept by every operation of the service, by the
    run of a trigger, by start-up and by shutdown. *)
Theorem job_table_invariant_kept `{RT : Runtime} `{LS : Listing}
    (w : World) (post : Post) (postId : Z) (t : option Z) (h : nat) :
  jobs_wf w →
  jobs_wf (schedulePost post w).2 ∧
  jobs_wf (unschedulePost postId w).2 ∧
  jobs_wf (reschedulePost postId t w).2 ∧
  jobs_wf (publishPost postId w).2 ∧
  jobs_wf (fire h w).2 ∧
  jobs_wf (loadScheduledPosts w).2 ∧
  jobs_wf (initialize w).2 ∧
  jobs_wf (destroy w).2.
Proof.
  intros Hw.
  split; [by apply schedulePost_keeps|].
  split; [by apply unschedulePost_keeps|].
  split; [by apply reschedulePost_keeps|].
  split; [by apply publishPost_keeps|].
  split; [by apply fire_keeps|].
  split; [by apply loadScheduledPosts_keeps|].
  split.
  - unfold initialize. revert Hw. apply keeps_bind.
    + apply loadScheduledPosts_keeps.
    + intros _. apply keeps_jobs_wf; by intros w1.
  - rewrite destroy_eq. intros k j. simpl. by rewrite lookup_empty.
Qed.

(** ** Scheduling, listing and cancelling *)

(** X5: after [schedulePost] of a post that is not due yet and whose
    trigger specification is valid, [getScheduledJobs] lists
    [{postId, scheduledAt}] for it; the listing has one element per entry
    of the Job Table, and the table has one entry more than before, or as
    many when the post had an entry already. *)
Theorem schedulePost_listed `{RT : Runtime}
    (post : Post) (w : World) (s : Z) (z : option WallClock) :
  new_Date (attr post "scheduledAt") = Some s →
  now w < s →
  utcToZonedTime (Some s) (or_else (attr post "timezone") (VStr "UTC")) = Ok z →
  cron_validate (cron_expression z) = true →
  let w' := (schedulePost post w).2 in
  VObj (list_to_map [("postId", VNum (id post)); ("scheduledAt", VDate (Some s))])
    ∈ getScheduledJobs w' ∧
  length (getScheduledJobs w') = size (jobs w') ∧
  size (jobs w')
    = match jobs w !! pretty (id post) with
      | Some _ => size (jobs w)
      | None => S (size (jobs w))
      end.
Proof.
  intros Hs Hlt Hz Hvalid w'. subst w'.
  rewrite (schedulePost_later post w s z Hs Hlt Hz), Hvalid.
  unfold getScheduledJobs. cbn [snd jobs set_log set_jobs set_tasks].
  split; [|split].
  - apply list_elem_of_fmap.
    exists (pretty (id post),
            mkJob (pretty (id post)) (length (tasks w)) (id post) (Some s)).
    split; [done|]. apply elem_of_map_to_list. apply lookup_insert_eq.
  - by rewrite length_fmap, length_map_to_list.
  - rewrite map_size_insert. by destruct (jobs w !! pretty (id post)).
Qed.

(** X6: [unschedulePost] undoes [schedulePost]: after the two, the post has
    no entry in the Job Table, the task that was registered is stopped, and
    the live triggers of every post are those there were before. *)
Theorem schedulePost_unschedulePost `{RT : Runtime}
    (post : Post) (w : World) (s : Z) (z : option WallClock) :
  new_Date (attr post "scheduledAt") = Some s →
  now w < s →
  let timezone := or_else (attr post "timezone") (VStr "UTC") in
  utcToZonedTime (Some s) timezone = Ok z →
  cron_validate (cron_expression z) = true →
  let '(r, w') := unschedulePost (id post) (schedulePost post w).2 in
  r = Ok (VObj {["success" := VBool true]}) ∧
  jobs w' = delete (pretty (id post)) (jobs w) ∧
  tasks w' = tasks w ++ [mkTask (cron_expression z) timezone (id post) false] ∧
  ∀ postId, live_triggers postId w' = live_triggers postId w.
Proof.
  intros Hs Hlt timezone Hz Hvalid.
  rewrite (schedulePost_later post w s z Hs Hlt Hz), Hvalid.
  rewrite unschedulePost_eq. cbn [snd jobs set_log set_jobs set_tasks].
  rewrite lookup_insert_eq. unfold live_triggers.
  cbn [task jobs tasks set_log set_jobs set_tasks].
  rewrite (alter_app_r_alt _ (tasks w) _ (length (tasks w))) by done.
  rewrite Nat.sub_diag. cbn [alter list_alter].
  cbn [expression task_timezone target].
  split; [done|]. split; [by rewrite delete_insert_eq|].
  split; [done|]. intros postId.
  rewrite filter_app, filter_cons_False, filter_nil, app_nil_r; [done|].
  by intros [? _].
Qed.

(** X7: [reschedulePost] of a post that is in the store and whose only live
    trigger is the one of its Job Table entry stops that trigger and leaves
    the post with one entry and one live trigger, both at the new time. *)
Theorem reschedulePost_one_job `{RT : Runtime}
    (postId : Z) (o : gmap string value) (job : ScheduledJob) (w : World)
    (t2 : Z) (z : option WallClock) :
  available →
  jobs w !! pretty postId = Some job →
  (∀ i t, tasks w !! i = Some t → running t = true → target t = postId →
          i = task job) →
  store w !! postId = Some o →
  now w < t2 →
  let timezone := or_else (attr (mkPost postId o) "timezone") (VStr "UTC") in
  utcToZonedTime (Some t2) timezone = Ok z →
  cron_validate (cron_expression z) = true →
  let w' := (reschedulePost postId (Some t2) w).2 in
  jobs w' !! pretty postId
    = Some (mkJob (pretty postId) (length (tasks w)) postId (Some t2)) ∧
  live_triggers postId w' = [mkTask (cron_expression z) timezone postId true] ∧
  stored w' postId "scheduledAt" = VStr (toISOString t2).
Proof.
  intros Hav Hjob Honly Hstore Hlt timezone Hz Hvalid w'.
  destruct (reschedulePost_replaces postId o job w t2 z Hav Hjob Honly Hstore Hlt
              Hz Hvalid) as [Hj Hl].
  split; [exact Hj|]. split; [exact Hl|]. subst w'.
  unfold reschedulePost, try_catch, mbind, Eff_bind, bind.
  rewrite unschedulePost_eq, Hjob.
  unfold findOne, request, mbind, Eff_bind, bind, gets. rewrite Hav.
  cbn [fst snd store set_requests set_log set_jobs set_tasks].
  rewrite Hstore.
  change (mkPost postId <$> Some o) with (Some (mkPost postId o)). cbv beta iota.
  unfold of_result. cbn [Date_toISOString].
  unfold update, request, mbind, Eff_bind, bind, gets, modify. rewrite Hav.
  cbn [fst snd].
  match goal with
  | |- context [schedulePost ?p ?x] => set (post' := p); set (wB := x)
  end.
  assert (stored wB postId "scheduledAt" = VStr (toISOString t2)) as HwB.
  { subst wB. rewrite stored_update by (simpl; by rewrite Hstore).
    by rewrite lookup_singleton_eq. }
  assert (new_Date (attr post' "scheduledAt") = Some t2) as Hdate.
  { subst post'. by rewrite attr_with_attr. }
  assert (or_else (attr post' "timezone") (VStr "UTC") = timezone) as Htz.
  { subst post'. by rewrite attr_with_attr_ne. }
  pose proof (schedulePost_later post' wB t2 z Hdate) as Hsched.
  rewrite Htz in Hsched. rewrite Hsched, Hvalid by done.
  exact HwB.
Qed.

(** X8: [reschedulePost] cancels before it checks: when the post is not in
    the store, or the new time is an Invalid Date, it reports the failure
    ("Post not found", "Invalid time value") after it has unscheduled the
    post; the post is left without a Job Table entry, and no update is sent
    to the store. *)
Theorem reschedulePost_failure `{RT : Runtime}
    (postId : Z) (newScheduledAt : option Z) (w : World) :
  store_fault (requests w) (FindOne postId []) = None →
  store w !! postId = None ∨ newScheduledAt = None →
  let '(r, w') := reschedulePost postId newScheduledAt w in
  r = Ok (VObj (list_to_map [
        ("success", VBool false);
        ("error", VStr (match store w !! postId with
                        | None => "Post not found"
                        | Some _ => "Invalid time value"
                        end))])) ∧
  jobs w' = delete (pretty postId) (jobs w) ∧
  tasks w' = tasks (unschedulePost postId w).2 ∧
  requests w' = requests w ++ [FindOne postId []] ∧
  store w' = store w.
Proof.
  intros Hfind Hcase.
  unfold reschedulePost, try_catch, mbind, Eff_bind, bind.
  assert (jobs (unschedulePost postId w).2 = delete (pretty postId) (jobs w) ∧
          requests (unschedulePost postId w).2 = requests w ∧
          store (unschedulePost postId w).2 = store w) as (Hj & Hr & Hs).
  { rewrite unschedulePost_eq.
    destruct (jobs w !! pretty postId) eqn:Hjob; simpl; [done|].
    by rewrite delete_id. }
  destruct (unschedulePost_returns postId w) as [v Hv].
  destruct (unschedulePost postId w) as [r1 w1]. simpl in *. subst r1.
  unfold findOne, request, mbind, Eff_bind, bind, gets. rewrite Hr, Hfind.
  cbn [fst snd store set_requests]. rewrite Hs.
  destruct (store w !! postId) as [o|] eqn:Hstore.
  - destruct Hcase as [?| ->]; [done|].
    change (mkPost postId <$> Some o) with (Some (mkPost postId o)). cbv beta iota.
    unfold of_result, log_error, modify. cbn [Date_toISOString fst snd].
    unfold ret. cbn [jobs tasks requests store set_log set_requests].
    by rewrite ?Hj, ?Hr, ?Hs.
  - cbn [fmap option_fmap option_map]. unfold throw, log_error, modify, ret.
    cbn [fst snd jobs tasks requests store set_log set_requests].
    by rewrite ?Hj, ?Hr, ?Hs.
Qed.

(** X9: the callback of a trigger publishes the post of the trigger and,
    when [publishPost] returns, removes the Job Table entry of that post
    and no other; when [publishPost] throws, the callback throws too and
    the Job Table is as it was.  The store and the connectors see what
    [publishPost] does, and nothing more. *)
Theorem fire_removes_entry `{RT : Runtime} (h : nat) (t : ScheduledTask) (w : World) :
  tasks w !! h = Some t →
  running t = true →
  let '(published, w1) := publishPost (target t) w in
  let '(r, w') := fire h w in
  match published with
  | Ok _ => r = Ok () ∧ jobs w' = delete (pretty (target t)) (jobs w)
  | Throw e => r = Throw e ∧ jobs w' = jobs w
  end ∧
  store w' = store w1 ∧ requests w' = requests w1 ∧ calls w' = calls w1 ∧
  log w' = log w1.
Proof.
  intros Hh Hrun.
  pose proof (publishPost_jobs (target t) w) as Hj.
  unfold fire, on_fire, mbind, Eff_bind, bind, gets, modify. cbn [fst snd].
  rewrite Hh, Hrun.
  destruct (publishPost (target t) w) as [[v|e] w1]; simpl in *; by rewrite Hj.
Qed.

(** ** What [publishPost] leaves alone *)

Section Confinement.
Context `{RT : Runtime} {B : Type} (postId : Z) (obs : World → B).
Context (Hobs : Confined postId obs).

Lemma request_confined r : addresses postId r = true → leaves obs (request r).
Proof using Hobs.
  intros Hr w. unfold request.
  destruct (store_fault (requests w) r); simpl; by apply Hobs.
Qed.

Lemma findOne_confined populate : leaves obs (findOne postId populate).
Proof using Hobs.
  unfold findOne. repeat frame_step. apply request_confined. simpl. lia.
Qed.

Lemma update_confined data : leaves obs (update postId data).
Proof using Hobs.
  unfold update. repeat frame_step; [|apply Hobs].
  apply request_confined. simpl. lia.
Qed.

Lemma dispatch_confined post platform : leaves obs (dispatch post platform).
Proof using Hobs.
  unfold dispatch. destruct platform; try apply leaves_ret.
  repeat case_decide; repeat frame_step; intros w; apply Hobs.
Qed.

Lemma publish_to_confined platform :
  leaves (λ fw : Fanout * World, obs fw.2) (publish_to postId platform).
Proof using Hobs.
  unfold publish_to, attempt.
  repeat first
    [ apply dispatch_confined | apply update_confined
    | (intros w; apply Hobs) | frame_step ].
Qed.

Lemma publishPost_confined_frame w :
  obs (publishPost postId w).2
  = obs (set_log (λ l, l ++ [LogInfo [VStr "Publishing scheduled post "; VNum postId]]) w).
Proof using Hobs.
  pose (body := (found ← findOne postId ["media"; "campaign"; "template"];
     match found with
     | None => throw (VStr "Post not found")
     | Some post =>
         platforms ← of_result (iterate "post.platforms" (attr post "platforms"));
         '(_, f) ← block (mkFanout [] [] post) (for_each (publish_to postId) platforms);
         t ← gets now;
         update postId (list_to_map [
           ("status", VStr (final_status f));
           ("publishedAt", VStr (toISOString t));
           ("publishErrors", VArr (errors f))]);;
         ret (VObj (list_to_map [
           ("success", VBool (bool_decide (errors f = [])));
           ("results", VArr (results f));
           ("errors", VArr (errors f));
           ("postId", VNum postId)]))
     end) : Eff World value).
  set (w1 := set_log _ w).
  assert (publishPost postId w = try_catch body (publishPost_catch postId) w1)
    as -> by done.
  assert (leaves obs (try_catch body (publishPost_catch postId))) as H; [|apply H].
  unfold body, publishPost_catch.
  repeat first
    [ apply findOne_confined | apply update_confined | apply publish_to_confined
    | (intros w'; apply Hobs) | frame_step ].
Qed.

End Confinement.

Lemma confined_others (postId other : Z) :
  other ≠ postId → Confined postId (λ w, store w !! other).
Proof.
  intros Hne. split; try done. intros f w; simpl. by rewrite lookup_alter_ne.
Qed.

Lemma confined_foreign_requests (postId : Z) :
  Confined postId (λ w, filter (λ r, addresses postId r = false) (requests w)).
Proof.
  split; try done. intros r w Hr; simpl.
  rewrite filter_app, filter_cons_False, filter_nil, app_nil_r; [done|].
  by rewrite Hr.
Qed.

(** X10: [publishPost] is confined to its post: it leaves the Job Table,
    the registry of triggers and the clock as they were, creates and
    deletes no entity of the Post Store, changes no entity but the one it
    publishes, and addresses every request it sends to the store to that
    entity. *)
Theorem publishPost_confined `{RT : Runtime} (postId : Z) (w : World) :
  let w' := (publishPost postId w).2 in
  jobs w' = jobs w ∧
  tasks w' = tasks w ∧
  now w' = now w ∧
  dom (store w') = dom (store w) ∧
  (∀ other, other ≠ postId → store w' !! other = store w !! other) ∧
  filter (λ r, addresses postId r = false) (requests w')
  = filter (λ r, addresses postId r = false) (requests w).
Proof.
  intros w'. subst w'.
  split; [apply publishPost_jobs|]. split; [apply publishPost_tasks|].
  split; [apply publishPost_now|].
  split; [by rewrite (publishPost_frame _ unaffected_entities)|].
  split.
  - intros other Hne.
    by rewrite (publishPost_confined_frame postId _ (confined_others postId other Hne)).
  - by rewrite (publishPost_confined_frame postId _ (confined_foreign_requests postId)).
Qed.

(** ** Every platform is accounted for *)

Lemma omap_length_le {A B} (f : A → option B) (l : list A) :
  (length (omap f l) ≤ length l)%nat.
Proof.
  induction l as [|a l IH]; [done|].
  change (omap f (a :: l))
    with (match f a with Some y => y :: omap f l | None => omap f l end).
  destruct (f a); simpl; lia.
Qed.

(** Closes one case of an iteration, for the count of what it pushed. *)
Ltac account_end :=
  split; [reflexivity|]; simpl;
  unfold succeeded, get_opt; simpl;
  repeat match goal with H : _ = _ |- _ => rewrite H end;
  rewrite ?app_nil_r; simpl;
  repeat split; try done; try lia;
  repeat constructor; simpl; by rewrite ?lookup_insert_eq.

Ltac account new :=
  first [ eexists _, _, new, []; account_end
        | eexists _, _, new, [_]; account_end ].

Section Accounting.
Context `{RT : Runtime}.

Lemma publish_to_accounts postId platform f w :
  ∃ f' w' new errs,
    publish_to postId platform (f, w) = (Ok (), (f', w')) ∧
    calls w' = calls w ++ new ∧
    results f' = results f ++ omap succeeded new ∧
    errors f' = errors f ++ errs ∧
    (length new ≤ 1)%nat ∧
    (1 ≤ length (omap succeeded new) + length errs)%nat ∧
    (length errs ≤ 1)%nat ∧
    Forall (λ e, member e "platform" = platform) errs.
Proof.
  unfold publish_to, try_catch, attempt.
  unfold mbind, Eff_bind, bind, locals, lift, gets; cbn [fst snd].
  destruct (dispatch_cases (post f) platform w) as [H|[[e H]|[c H]]];
    rewrite H; clear H; simpl.
  - account (@nil (Call * result value)).
  - account (@nil (Call * result value)).
  - destruct (connector (calls w) c) as [result|e] eqn:Hc; simpl.
    2:{ account [(c, @Throw value e)]. }
    unfold get, get_opt, of_result, update, request, assign, modify, ret,
      mbind, Eff_bind, bind, gets.
    destruct (nullish result) eqn:Hnull; simpl.
    { account [(c, Ok result)]. }
    destruct (truthy (member result "success")) eqn:Hsuccess; simpl.
    2:{ account [(c, Ok result)]. }
    destruct (set_member _ _ _) as [externalIds|e]; simpl.
    2:{ account [(c, Ok result)]. }
    destruct (truthy (attr (post f) "externalIds")); simpl;
      destruct (store_fault _ _); simpl; account [(c, Ok result)].
Qed.

Lemma fanout_accounts postId platforms f w :
  ∃ f' w' new errs,
    for_each (publish_to postId) platforms (f, w) = (Ok (), (f', w')) ∧
    calls w' = calls w ++ new ∧
    results f' = results f ++ omap succeeded new ∧
    errors f' = errors f ++ errs ∧
    (length new ≤ length platforms)%nat ∧
    (length platforms ≤ length (omap succeeded new) + length errs)%nat ∧
    (length errs ≤ length platforms)%nat ∧
    Forall (λ e, member e "platform" ∈ platforms) errs.
Proof.
  revert f w. induction platforms as [|p platforms IH]; intros f w; simpl.
  { eexists f, w, [], []. rewrite !app_nil_r. repeat split; try done. }
  destruct (publish_to_accounts postId p f w)
    as (f1 & w1 & new1 & errs1 & Hrun & Hcalls & Hres & Herr & Hn1 & Ha1 & He1 & Hp1).
  destruct (IH f1 w1)
    as (f2 & w2 & new2 & errs2 & Hrun2 & Hcalls2 & Hres2 & Herr2 & Hn2 & Ha2 & He2 & Hp2).
  exists f2, w2, (new1 ++ new2), (errs1 ++ errs2).
  unfold mbind, Eff_bind, bind. rewrite Hrun, Hrun2.
  rewrite Hcalls2, Hcalls, Hres2, Hres, Herr2, Herr, omap_app, !length_app.
  rewrite !(assoc_L (++)).
  repeat split; try done; try lia.
  apply Forall_app. split.
  - eapply Forall_impl; [exact Hp1|]. intros e ->. left.
  - eapply Forall_impl; [exact Hp2|]. intros e ?. by right.
Qed.

End Accounting.

(** X11: [publishPost] accounts for every platform of the post: when the
    store is available and [post.platforms] is an array, it calls a
    connector at most once per platform, every platform yields a result or
    an error (both, when the external id cannot be assigned), and every
    error names a platform of the array. *)
Theorem publishPost_accounts `{RT : Runtime}
    (w : World) (postId : Z) (o : gmap string value) (platforms : list value) :
  available →
  store w !! postId = Some o →
  attr (mkPost postId o) "platforms" = VArr platforms →
  let '(r, w') := publishPost postId w in
  ∃ rs es,
    r = Ok (VObj (list_to_map [
          ("success", VBool (bool_decide (es = [])));
          ("results", VArr rs);
          ("errors", VArr es);
          ("postId", VNum postId)])) ∧
    (length (calls w') ≤ length (calls w) + length platforms)%nat ∧
    (length platforms ≤ length rs + length es)%nat ∧
    (length rs ≤ length platforms)%nat ∧
    (length es ≤ length platforms)%nat ∧
    Forall (λ e, member e "platform" ∈ platforms) es.
Proof.
  intros Hav Hstore Hplat.
  destruct (publishPost_loaded postId o platforms w Hav Hstore)
    as (f & w2 & Hrun & _ & _ & ->).
  { by rewrite Hplat. }
  edestruct (fanout_accounts postId platforms)
    as (f' & w' & new & errs & Hrun' & Hcalls & Hres & Herr & Hn & Ha & He & Hp).
  rewrite Hrun in Hrun'. injection Hrun' as <- <-.
  exists (results f), (errors f). split; [done|].
  simpl in *. rewrite Hcalls, Hres, Herr, length_app.
  pose proof (omap_length_le succeeded new) as Hle.
  repeat split; try done; lia.
Qed.

(** ** The properties above on the runs of the fixture *)

Lemma job_table_invariant_kept_witness :
  let w := exec (RT := Fixture.runtime) (SchedulePost Fixture.due_tomorrow) Fixture.w1 in
  jobs_wf w ∧
  jobs_wf (fire (RT := Fixture.runtime) 0 w).2 ∧
  jobs_wf (destroy w).2.
Proof.
  intros w.
  assert (jobs_wf w) as Hw.
  { apply (schedulePost_keeps (RT := Fixture.runtime)). apply start_jobs_wf. }
  split; [exact Hw|].
  destruct (job_table_invariant_kept (RT := Fixture.runtime)
              (LS := FixtureListing.listing Fixture.t0)
              w Fixture.due_tomorrow 1 None 0 Hw)
    as (_ & _ & _ & _ & Hfire & _ & _ & Hdestroy).
  split; [exact Hfire|exact Hdestroy].
Defined.

Lemma schedulePost_listed_witness :
  let s := Fixture.t0 + Fixture.day in
  let z := Some (Fixture.wall_clock 0 s) in
  new_Date (RT := Fixture.runtime) (attr Fixture.due_tomorrow "scheduledAt") = Some s ∧
  now Fixture.w1 < s ∧
  utcToZonedTime (Runtime := Fixture.runtime) (Some s)
    (or_else (attr Fixture.due_tomorrow "timezone") (VStr "UTC")) = Ok z ∧
  cron_validate (Runtime := Fixture.runtime) (cron_expression z) = true ∧
  length (getScheduledJobs
            (schedulePost (RT := Fixture.runtime) Fixture.due_tomorrow Fixture.w1).2)
  = 1%nat.
Proof.
  intros s z.
  assert (new_Date (RT := Fixture.runtime) (attr Fixture.due_tomorrow "scheduledAt")
          = Some s) as Hdate by (vm_compute; reflexivity).
  assert (now Fixture.w1 < s) as Hlt by (vm_compute; reflexivity).
  assert (utcToZonedTime (Runtime := Fixture.runtime) (Some s)
            (or_else (attr Fixture.due_tomorrow "timezone") (VStr "UTC")) = Ok z)
    as Hzone by (vm_compute; reflexivity).
  assert (cron_validate (Runtime := Fixture.runtime) (cron_expression z) = true)
    as Hvalid by reflexivity.
  split; [exact Hdate|]. split; [exact Hlt|]. split; [exact Hzone|].
  split; [exact Hvalid|].
  destruct (schedulePost_listed (RT := Fixture.runtime) Fixture.due_tomorrow
              Fixture.w1 s z Hdate Hlt Hzone Hvalid) as (_ & Hlen & Hsize).
  rewrite Hlen, Hsize. vm_compute. reflexivity.
Defined.

Lemma schedulePost_unschedulePost_witness :
  let s := Fixture.t0 + Fixture.day in
  let z := Some (Fixture.wall_clock 0 s) in
  new_Date (RT := Fixture.runtime) (attr Fixture.due_tomorrow "scheduledAt") = Some s ∧
  now Fixture.w1 < s ∧
  utcToZonedTime (Runtime := Fixture.runtime) (Some s)
    (or_else (attr Fixture.due_tomorrow "timezone") (VStr "UTC")) = Ok z ∧
  cron_validate (Runtime := Fixture.runtime) (cron_expression z) = true ∧
  live_triggers 1
    (unschedulePost 1
       (schedulePost (RT := Fixture.runtime) Fixture.due_tomorrow Fixture.w1).2).2
  = [].
Proof.
  intros s z.
  assert (new_Date (RT := Fixture.runtime) (attr Fixture.due_tomorrow "scheduledAt")
          = Some s) as Hdate by (vm_compute; reflexivity).
  assert (now Fixture.w1 < s) as Hlt by (vm_compute; reflexivity).
  assert (utcToZonedTime (Runtime := Fixture.runtime) (Some s)
            (or_else (attr Fixture.due_tomorrow "timezone") (VStr "UTC")) = Ok z)
    as Hzone by (vm_compute; reflexivity).
  assert (cron_validate (Runtime := Fixture.runtime) (cron_expression z) = true)
    as Hvalid by reflexivity.
  split; [exact Hdate|]. split; [exact Hlt|]. split; [exact Hzone|].
  split; [exact Hvalid|].
  pose proof (schedulePost_unschedulePost (RT := Fixture.runtime) Fixture.due_tomorrow
                Fixture.w1 s z Hdate Hlt Hzone Hvalid) as H.
  change (id Fixture.due_tomorrow) with 1 in H.
  destruct (unschedulePost 1
              (schedulePost (RT := Fixture.runtime) Fixture.due_tomorrow Fixture.w1).2)
    as [r w'].
  destruct H as (_ & _ & _ & Hlive). exact (Hlive 1).
Defined.

Lemma reschedulePost_one_job_witness :
  let w := (schedulePost (RT := Fixture.runtime) Fixture.due_tomorrow Fixture.w1).2 in
  let t2 := Fixture.t0 + 2 * Fixture.day in
  let z := Some (Fixture.wall_clock 0 t2) in
  let job := mkJob "1" 0 1 (Some (Fixture.t0 + Fixture.day)) in
  @available Fixture.runtime ∧
  jobs w !! pretty 1 = Some job ∧
  (∀ i t, tasks w !! i = Some t → running t = true → target t = 1 → i = task job) ∧
  store w !! 1 = Some (fields Fixture.due_tomorrow) ∧
  now w < t2 ∧
  length (live_triggers 1
            (reschedulePost (RT := Fixture.runtime) 1 (Some t2) w).2) = 1%nat ∧
  stored (reschedulePost (RT := Fixture.runtime) 1 (Some t2) w).2 1 "scheduledAt"
  = VStr (toISOString (Runtime := Fixture.runtime) t2).
Proof.
  intros w t2 z job.
  assert (jobs w !! pretty 1 = Some job) as Hjob by (vm_compute; reflexivity).
  assert (∀ i t, tasks w !! i = Some t → running t = true → target t = 1 →
                 i = task job) as Honly.
  { intros [|i] t Hi _ _; [reflexivity|]. vm_compute in Hi. destruct i; discriminate Hi. }
  assert (store w !! 1 = Some (fields Fixture.due_tomorrow)) as Hstore
    by (vm_compute; reflexivity).
  assert (now w < t2) as Hlt by (vm_compute; reflexivity).
  split; [exact fixture_available|]. split; [exact Hjob|]. split; [exact Honly|].
  split; [exact Hstore|]. split; [exact Hlt|].
  destruct (reschedulePost_one_job (RT := Fixture.runtime) 1
              (fields Fixture.due_tomorrow) job w t2 z fixture_available Hjob Honly
              Hstore Hlt) as (_ & Hlive & Hstored);
    [vm_compute; reflexivity|reflexivity|].
  split; [by rewrite Hlive|exact Hstored].
Defined.

Lemma reschedulePost_failure_witness :
  store_fault (Runtime := Fixture.runtime) (requests Fixture.w0) (FindOne 7 []) = None ∧
  store Fixture.w0 !! 7 = None ∧
  (reschedulePost (RT := Fixture.runtime) 7 (Some Fixture.t0) Fixture.w0).1
  = Ok (VObj (list_to_map [
      ("success", VBool false); ("error", VStr "Post not found")])).
Proof.
  assert (store Fixture.w0 !! 7 = None) as Hstore by (vm_compute; reflexivity).
  split; [reflexivity|]. split; [exact Hstore|].
  pose proof (reschedulePost_failure (RT := Fixture.runtime) 7 (Some Fixture.t0)
                Fixture.w0 eq_refl (or_introl Hstore)) as H.
  destruct (reschedulePost (RT := Fixture.runtime) 7 (Some Fixture.t0) Fixture.w0)
    as [r w'].
  destruct H as [Hr _]. rewrite Hstore in Hr. exact Hr.
Defined.

Lemma fire_removes_entry_witness :
  let w := (schedulePost (RT := Fixture.runtime) Fixture.due_tomorrow Fixture.w1).2 in
  let t := mkTask "33 18 2 11 *" (VStr "UTC") 1 true in
  tasks w !! 0%nat = Some t ∧
  running t = true ∧
  store (fire (RT := Fixture.runtime) 0 w).2
  = store (publishPost (RT := Fixture.runtime) 1 w).2.
Proof.
  intros w t.
  assert (tasks w !! 0%nat = Some t) as Hh by (vm_compute; reflexivity).
  split; [exact Hh|]. split; [reflexivity|].
  pose proof (fire_removes_entry (RT := Fixture.runtime) 0 t w Hh eq_refl) as H.
  change (target t) with 1 in H.
  destruct (publishPost (RT := Fixture.runtime) 1 w) as [published w1].
  destruct (fire (RT := Fixture.runtime) 0 w) as [r w'].
  destruct H as (_ & Hs & _). exact Hs.
Defined.

Lemma publishPost_accounts_witness :
  @available Fixture.runtime ∧
  store Fixture.w0 !! 1 = Some (fields Fixture.post1) ∧
  attr (mkPost 1 (fields Fixture.post1)) "platforms"
    = VArr [VStr "facebook"; VStr "twitter"] ∧
  (length (calls (publishPost (RT := Fixture.runtime) 1 Fixture.w0).2) ≤ 2)%nat.
Proof.
  assert (store Fixture.w0 !! 1 = Some (fields Fixture.post1)) as Hstore
    by (vm_compute; reflexivity).
  assert (attr (mkPost 1 (fields Fixture.post1)) "platforms"
          = VArr [VStr "facebook"; VStr "twitter"]) as Hplat
    by (vm_compute; reflexivity).
  split; [exact fixture_available|]. split; [exact Hstore|]. split; [exact Hplat|].
  pose proof (publishPost_accounts (RT := Fixture.runtime) Fixture.w0 1
                (fields Fixture.post1) _ fixture_available Hstore Hplat) as H.
  destruct (publishPost (RT := Fixture.runtime) 1 Fixture.w0) as [r w'].
  destruct H as (rs & es & _ & Hcalls & _). exact Hcalls.
Defined.

(** ** When the formatter throws *)

Section Formatting.

Lemma mapM_url (l : list value) :
  forallb (λ m, negb (nullish m)) l = true →
  mapM (λ m, get m "url") l = Ok ((λ m, member m "url") <$> l).
Proof.
  induction l as [|m l IH]; [done|].
  cbn [forallb]. intros [Hm Hl]%andb_true_iff.
  cbn [mapM]. unfold get at 1. apply negb_true_iff in Hm. rewrite Hm.
  cbn [rbind]. by rewrite IH.
Qed.

Lemma mapM_url_throws (l : list value) :
  forallb (λ m, negb (nullish m)) l = false →
  ∃ m, m ∈ l ∧ nullish m = true ∧
       mapM (λ m, get m "url") l = Throw (cannot_read m "url").
Proof.
  induction l as [|m l IH]; [done|].
  cbn [forallb mapM]. unfold get at 1.
  destruct (nullish m) eqn:Hm; cbn [negb andb rbind].
  - intros _. exists m. split; [left|done].
  - intros (m' & Hin & Hnull & ->)%IH. exists m'. split; [by right|done].
Qed.

Lemma media_urls_ok post :
  mappable (attr post "media") = true → ∃ urls, media_urls post = Ok (VArr urls).
Proof.
  unfold media_urls, mappable.
  destruct (attr post "media") as [| | | | | |l|]; try done;
    try (intros _; by exists []).
  intros Hl. rewrite (mapM_url l Hl). by eexists.
Qed.

Lemma media_urls_throws post :
  mappable (attr post "media") = false → ∃ e, media_urls post = Throw e.
Proof.
  unfold media_urls, mappable.
  destruct (attr post "media") as [| | | | | |l|]; try done;
    try (intros _; by eexists).
  intros (m & _ & _ & ->)%mapM_url_throws. by eexists.
Qed.

Lemma format_media_throws post platform e :
  media_urls post = Throw e → platform ∈ maps_media →
  formatPostForPlatform post platform = Throw e.
Proof.
  intros He Hin. unfold formatPostForPlatform. rewrite He.
  unfold maps_media in Hin. rewrite !elem_of_cons, elem_of_nil in Hin.
  destruct_or!; subst; try done;
    repeat case_decide; try done; destruct_or?; done.
Qed.

Lemma format_throws_media post platform e :
  formatPostForPlatform post platform = Throw e →
  platform ∈ maps_media ∧ media_urls post = Throw e.
Proof.
  unfold formatPostForPlatform, maps_media.
  repeat case_decide; try done; destruct_or?; subst;
    (destruct (media_urls post) as [urls|e']; [done|]);
    intros [= ->]; (split; [|done]); repeat constructor.
Qed.

End Formatting.

(** X12: [formatPostForPlatform] throws exactly for facebook, instagram,
    twitter and linkedin on a post whose [media] cannot be mapped to URLs:
    a [media] that is neither [null], [undefined] nor an array, or an array
    that holds [null] or [undefined].  For every other platform name, and
    for youtube and tiktok whatever the media are, it returns a payload. *)
Theorem formatPostForPlatform_throws (post : Post) (platform : string) :
  (∃ e, formatPostForPlatform post platform = Throw e) ↔
  platform ∈ maps_media ∧ mappable (attr post "media") = false.
Proof.
  split.
  - intros [e [Hin He]%format_throws_media]. split; [done|].
    destruct (mappable (attr post "media")) eqn:Hm; [|done].
    destruct (media_urls_ok post Hm) as [urls Hurls]. congruence.
  - intros [Hin [e He]%media_urls_throws]. exists e.
    by apply format_media_throws.
Qed.

(** X13: the fields of a payload.  For twitter, linkedin, youtube and
    tiktok the payload has the fields of [payload_fields], whatever the
    overrides of the post name; for facebook and instagram it has
    [message], [media] and every field of the overrides; for another
    platform name it has no field. *)
Theorem formatPostForPlatform_fields (post : Post) (platform : string) (payload : value) :
  formatPostForPlatform post platform = Ok payload →
  ∃ o : gmap string value,
    payload = VObj o ∧
    dom o =
      if decide (platform = "facebook" ∨ platform = "instagram")
      then {["message"; "media"]} ∪ dom (own_props (overrides post platform))
      else list_to_set (payload_fields platform).
Proof.
  unfold formatPostForPlatform, payload_fields.
  repeat case_decide; try (destruct_or?; subst; done);
    try (destruct (media_urls post) as [urls|e]; [|done]);
    intros [= <-]; eexists; (split; [done|]); cbn [list_to_map foldr list_to_set];
    rewrite ?dom_union_L, ?dom_insert_L, ?dom_empty_L; set_solver.
Qed.

Lemma formatPostForPlatform_fields_witness :
  ∃ payload o,
    formatPostForPlatform Fixture.tweet "twitter" = Ok payload ∧
    payload = VObj o ∧ "threadPosts" ∈ dom o.
Proof.
  destruct (formatPostForPlatform Fixture.tweet "twitter") as [payload|e] eqn:E;
    [|by vm_compute in E].
  destruct (formatPostForPlatform_fields Fixture.tweet "twitter" payload E)
    as (o & Ho & Hdom).
  exists payload, o. split; [reflexivity|]. split; [exact Ho|].
  rewrite Hdom. rewrite decide_False by (intros [?|?]; discriminate).
  unfold payload_fields; simpl. set_solver.
Defined.

(** ** Platforms whose payload cannot be formatted *)

Section Unformattable.
Context `{RT : Runtime}.



End Unformattable.



(** ** The external ids of a post *)


Section ExternalIds.
Context `{RT : Runtime} (postId : Z).




End ExternalIds.





(** ** Posts that cannot be scheduled *)

(** X17: a post that is not due and cannot be scheduled, because its time
    zone is rejected or its cron expression does not validate, is refused
    without a trace in the scheduler: [schedulePost] returns
    [{success: false, error}], logs the error, and registers no task, files
    no entry, sends nothing to the store and calls no connector. *)
Theorem schedulePost_rejected `{RT : Runtime} (post : Post) (w : World) (e : value) :
  let scheduledAt := new_Date (attr post "scheduledAt") in
  let timezone := or_else (attr post "timezone") (VStr "UTC") in
  Date_le scheduledAt (now w) = false →
  (utcToZonedTime scheduledAt timezone = Throw e ∨
   ∃ z, utcToZonedTime scheduledAt timezone = Ok z ∧
        cron_validate (cron_expression z) = false ∧
        e = VStr ("Invalid cron expression: " +:+ cron_expression z)) →
  schedulePost post w
  = (Ok (VObj (list_to_map [("success", VBool false); ("error", e)])),
     set_log (λ l, l ++ [LogError [VStr "Error scheduling post:"] e]) w).
Proof.
  intros scheduledAt timezone Hdue Hcase.
  unfold schedulePost, try_catch.
  unfold mbind, Eff_bind, bind, gets; cbn [fst snd].
  fold scheduledAt timezone. rewrite Hdue. unfold of_result.
  destruct Hcase as [->|(z & -> & Hvalid & ->)]; [done|].
  cbn [fst snd]. by rewrite Hvalid.
Qed.

Lemma schedulePost_rejected_witness :
  let post := with_attr "timezone" (VStr "Mars/Olympus") Fixture.due_tomorrow in
  let e := VStr "Invalid time zone specified: Mars/Olympus" in
  Date_le (new_Date (RT := Fixture.runtime) (attr post "scheduledAt")) (now Fixture.w1)
    = false ∧
  utcToZonedTime (Runtime := Fixture.runtime)
    (new_Date (RT := Fixture.runtime) (attr post "scheduledAt"))
    (or_else (attr post "timezone") (VStr "UTC")) = Throw e ∧
  tasks (schedulePost (RT := Fixture.runtime) post Fixture.w1).2 = [] ∧
  (schedulePost (RT := Fixture.runtime) post Fixture.w1).1
  = Ok (VObj (list_to_map [("success", VBool false); ("error", e)])).
Proof.
  intros post e.
  assert (Date_le (new_Date (RT := Fixture.runtime) (attr post "scheduledAt"))
            (now Fixture.w1) = false) as Hdue by (vm_compute; reflexivity).
  assert (utcToZonedTime (Runtime := Fixture.runtime)
            (new_Date (RT := Fixture.runtime) (attr post "scheduledAt"))
            (or_else (attr post "timezone") (VStr "UTC")) = Throw e) as Hzone
    by (vm_compute; reflexivity).
  split; [exact Hdue|]. split; [exact Hzone|].
  rewrite (schedulePost_rejected (RT := Fixture.runtime) post Fixture.w1 e Hdue
             (or_introl Hzone)).
  split; reflexivity.
Defined.

(** ** What start-up restores *)

Section Restoring.
Context `{RT : Runtime}.






End Restoring.



(** * The platform connectors: properties *)

Section FacebookConnector.
Context `{H : Facebook.Http}.

Lemma credentials_eq s :
  Facebook.credentials s
  = match Facebook.configured s with
    | Some tp => (Ok tp, s)
    | None => (Throw (Error (VStr "Facebook credentials not configured")), s)
    end.
Proof.
  unfold Facebook.credentials, Facebook.configured, mbind, Eff_bind, bind, gets;
    cbn [fst snd].
  destruct (Facebook.config s) as [[? ? token [page|]]|]; try done.
  by destruct (String.eqb token "" || String.eqb page "").
Qed.

(** The [catch] block on an error object. *)
Lemma failed_eq label e s :
  nullish e = false →
  Facebook.failed label e s
  = (Ok (VObj (list_to_map [
       ("success", VBool false);
       ("error", or_else (get_opt (member e "response") "data") (member e "message"));
       ("platform", VStr "facebook")])),
     Facebook.set_log (λ l, l ++ [LogError [VStr label] e]) s).
Proof.
  intros He. unfold Facebook.failed, Facebook.read, get, of_result, modify,
    mbind, Eff_bind, bind; cbn [fst snd].
  by rewrite He.
Qed.

Lemma refused label s :
  Facebook.failed label (Error (VStr "Facebook credentials not configured")) s
  = (Ok (VObj (list_to_map [
       ("success", VBool false);
       ("error", VStr "Facebook credentials not configured");
       ("platform", VStr "facebook")])),
     Facebook.set_log (λ l, l ++ [LogError [VStr label]
       (Error (VStr "Facebook credentials not configured"))]) s).
Proof. by rewrite failed_eq. Qed.

End FacebookConnector.

(** X19: without an access token or a page id the facebook connector
    publishes nothing: [publishPost], [publishVideo] and [publishAlbum]
    answer [{success: false, error: 'Facebook credentials not configured',
    platform: 'facebook'}], log the error and send no request; and a
    service initialised from an environment that lacks
    [FACEBOOK_ACCESS_TOKEN] or [FACEBOOK_PAGE_ID] is in that state. *)
Theorem facebook_unconfigured `{H : Facebook.Http} (postData : value) (s : Facebook.Service) :
  let error := Error (VStr "Facebook credentials not configured") in
  let refusal (label : string) :=
    (Ok (VObj (list_to_map [
       ("success", VBool false);
       ("error", VStr "Facebook credentials not configured");
       ("platform", VStr "facebook")])),
     Facebook.set_log (λ l, l ++ [LogError [VStr label] error]) s) in
  (Facebook.configured s = None →
   Facebook.publishPost postData s = refusal "Facebook publish error:" ∧
   Facebook.publishVideo postData s = refusal "Facebook video publish error:" ∧
   Facebook.publishAlbum postData s = refusal "Facebook album publish error:") ∧
  (default "" (Facebook.env "FACEBOOK_ACCESS_TOKEN") = "" ∨
   default "" (Facebook.env "FACEBOOK_PAGE_ID") = "" →
   Facebook.configured (Facebook.initialize s).2 = None).
Proof.
  intros error refusal. split.
  - intros Hc.
    unfold Facebook.publishPost, Facebook.publishVideo, Facebook.publishAlbum,
      try_catch, mbind, Eff_bind, bind.
    rewrite credentials_eq, Hc. cbn [fst snd]. by rewrite refused.
  - unfold Facebook.initialize, Facebook.configured, Facebook.env_or_empty, modify,
      mbind, Eff_bind, bind; cbn.
    intros [-> | ->]; [done|]. by rewrite orb_true_r.
Qed.

Lemma facebook_unconfigured_witness :
  let s := Facebook.mkService None [] [] in
  Facebook.configured s = None ∧
  Facebook.exchange (Facebook.publishPost (H := Facebook.accepting) Facebook.clip s).2 = [] ∧
  member (default VUndef
            (match (Facebook.publishPost (H := Facebook.accepting) Facebook.clip s).1 with
             | Ok v => Some v
             | Throw _ => None
             end)) "success" = VBool false.
Proof.
  intros s.
  destruct (facebook_unconfigured (H := Facebook.accepting) Facebook.clip s)
    as [Hrefuse _].
  destruct (Hrefuse eq_refl) as (-> & _ & _).
  repeat split.
Defined.

(** ** The answers of the connector *)

Section Throwing.
Context {S : Type}.

Lemma throws_ret {A} (a : A) : throws_errors (ret a : Eff S A).
Proof. by intros s e s'. Qed.

Lemma throws_mret {A} (a : A) : throws_errors (mret a : Eff S A).
Proof. by intros s e s'. Qed.

Lemma throws_modify (f : S → S) : throws_errors (modify f).
Proof. by intros s e s'. Qed.

Lemma throws_throw {A} e :
  nullish e = false → throws_errors (throw e : Eff S A).
Proof. by intros He s e' s' [= <- _]. Qed.

Lemma throws_bind {A B} (m : Eff S A) (k : A → Eff S B) :
  throws_errors m → (∀ a, throws_errors (k a)) → throws_errors (m ≫= k).
Proof.
  intros Hm Hk s e s'. unfold mbind, Eff_bind, bind.
  destruct (m s) as [[a|e1] s1] eqn:Hms.
  - apply Hk.
  - intros [= <- _]. by eapply Hm.
Qed.

Lemma returns_bind {A B} (P : B → Prop) (m : Eff S A) (k : A → Eff S B) :
  (∀ a, returns P (k a)) → returns P (m ≫= k).
Proof.
  intros Hk s v s'. unfold mbind, Eff_bind, bind.
  destruct (m s) as [[a|e1] s1]; [apply Hk|done].
Qed.

Lemma returns_bind_with {A B} (Q : A → Prop) (P : B → Prop)
    (m : Eff S A) (k : A → Eff S B) :
  returns Q m → (∀ a, Q a → returns P (k a)) → returns P (m ≫= k).
Proof.
  intros Hm Hk s v s'. unfold mbind, Eff_bind, bind.
  destruct (m s) as [[a|e1] s1] eqn:Hms; [|done].
  apply Hk. by eapply Hm.
Qed.

Lemma moves_bind {A B} (step : S → S → Prop) `{!Transitive step}
    (m : Eff S A) (k : A → Eff S B) :
  moves step m → (∀ a, moves step (k a)) → moves step (m ≫= k).
Proof.
  intros Hm Hk s. unfold mbind, Eff_bind, bind.
  specialize (Hm s). destruct (m s) as [[a|e1] s1]; cbn [snd] in *; [|done].
  etrans; [exact Hm|apply Hk].
Qed.

Lemma moves_try_catch {A} (step : S → S → Prop) `{!Transitive step}
    (m : Eff S A) (h : value → Eff S A) :
  moves step m → (∀ e, moves step (h e)) → moves step (try_catch m h).
Proof.
  intros Hm Hh s. unfold try_catch.
  specialize (Hm s). destruct (m s) as [[a|e1] s1]; cbn [snd] in *; [done|].
  etrans; [exact Hm|apply Hh].
Qed.

(** A computation that always returns an answer throws nothing. *)
Lemma answers_throws P (m : Eff S value) :
  (∀ s, ∃ v s', m s = (Ok v, s') ∧ P v) → throws_errors m.
Proof. intros Hm s e s' Hs. destruct (Hm s) as (v & s1 & Hv & _). congruence. Qed.

Lemma answers_returns P (m : Eff S value) :
  (∀ s, ∃ v s', m s = (Ok v, s') ∧ P v) → returns P m.
Proof.
  intros Hm s v s' Hs. destruct (Hm s) as (v1 & s1 & Hv & Hwf). congruence.
Qed.

End Throwing.

Section FacebookAnswers.
Context `{H : Facebook.Http} (Herrors : Facebook.rejects_with_errors).

Lemma throws_read v k : throws_errors (Facebook.read v k).
Proof.
  intros s e s'. unfold Facebook.read, of_result, get.
  destruct (nullish v); [|done]. by intros [= <- _].
Qed.

Lemma throws_credentials : throws_errors Facebook.credentials.
Proof.
  intros s e s'. rewrite credentials_eq.
  destruct (Facebook.configured s); [done|]. by intros [= <- _].
Qed.

Lemma throws_post endpoint params :
  throws_errors (Facebook.post endpoint params).
Proof using Herrors.
  intros s e s'. unfold Facebook.post. intros [= Hanswer _].
  destruct Herrors as (Haxios & _ & _). by eapply Haxios.
Qed.

Lemma throws_positive {S} v : throws_errors (@of_result S _ (Facebook.positive v)).
Proof using Herrors.
  intros s e s'. unfold of_result. intros [= Hv _].
  destruct Herrors as (_ & Hgreater & _).
  destruct v; try done; by eapply Hgreater.
Qed.

Lemma throws_getMediaType {S} v :
  throws_errors (@of_result S _ (Facebook.getMediaType v)).
Proof.
  intros s e s'. unfold of_result. intros [= Hv _].
  by destruct v; simplify_eq/=.
Qed.

Lemma throws_scheduled {S} v :
  throws_errors (@of_result S _ (Facebook.scheduled_publish_time v)).
Proof.
  intros s e s'. unfold of_result. intros [= Hv _].
  destruct v as [| | | | |[t|]| |]; by simplify_eq/=.
Qed.

Lemma throws_each {S} v : throws_errors (@of_result S _ (Facebook.each v)).
Proof using Herrors.
  intros s e s'. unfold of_result, Facebook.each. intros [= Hv _].
  destruct Herrors as (_ & _ & Hiter).
  destruct (or_else v (VArr [])); simplify_eq/=; by apply Hiter.
Qed.

Lemma throws_published response type :
  throws_errors (Facebook.published response type).
Proof.
  unfold Facebook.published.
  repeat (apply throws_bind; [apply throws_read|intros ?]). apply throws_ret.
Qed.

Lemma throws_upload token page media :
  throws_errors (Facebook.upload token page media).
Proof using Herrors.
  induction media as [|url rest IH]; [apply throws_ret|].
  cbn [Facebook.upload].
  apply throws_bind; [apply throws_post|intros ?].
  repeat (apply throws_bind; [apply throws_read|intros ?]).
  apply throws_bind; [apply IH|intros ?]. apply throws_ret.
Qed.

Lemma returns_published response type :
  returns Facebook.well_formed (Facebook.published response type).
Proof.
  intros s v s'. unfold Facebook.published, Facebook.read, of_result, ret,
    mbind, Eff_bind, bind; cbn [fst snd].
  destruct (TypeError (get response "data")) as [data|?]; [|done].
  cbn [fst snd].
  destruct (TypeError (get data "id")) as [postId|?]; [|done].
  intros [= <- _]. eexists. split; [done|]. cbn [app list_to_map foldr].
  split.
  - rewrite !lookup_insert_ne by done. apply lookup_insert_eq.
  - left. split; [apply lookup_insert_eq|].
    rewrite lookup_insert_ne by done. by rewrite lookup_insert_eq.
Qed.

(** A method whose body throws error objects only, and returns answers
    only, always answers. *)
Lemma answers_try_catch body label s :
  throws_errors body → returns Facebook.well_formed body →
  ∃ v s', try_catch body (Facebook.failed label) s = (Ok v, s') ∧
          Facebook.well_formed v.
Proof.
  intros Hthrows Hreturns. unfold try_catch.
  destruct (body s) as [[v|e] s1] eqn:Hbody.
  - exists v, s1. split; [done|]. by eapply Hreturns.
  - rewrite failed_eq by by eapply Hthrows.
    eexists _, _. split; [done|]. eexists. split; [done|].
    split; [done|]. right. by split.
Qed.

(** Splits a goal about what a method body throws or returns along the
    structure of the body. *)
Ltac connector_step :=
  lazymatch goal with
  | |- throws_errors (mbind _ _) => apply throws_bind; [|intros ?]
  | |- throws_errors (ret _) => apply throws_ret
  | |- throws_errors (mret _) => apply throws_mret
  | |- throws_errors (Facebook.read _ _) => apply throws_read
  | |- throws_errors Facebook.credentials => apply throws_credentials
  | |- throws_errors (Facebook.post _ _) => apply throws_post
  | |- throws_errors (Facebook.published _ _) => apply throws_published
  | |- throws_errors (Facebook.upload _ _ _) => apply throws_upload
  | |- throws_errors (of_result (Facebook.positive _)) => apply throws_positive
  | |- throws_errors (of_result (Facebook.getMediaType _)) =>
      apply throws_getMediaType
  | |- throws_errors (of_result (Facebook.scheduled_publish_time _)) =>
      apply throws_scheduled
  | |- throws_errors (of_result (Facebook.each _)) => apply throws_each
  | |- throws_errors (match ?x with _ => _ end) => destruct x
  | |- throws_errors _ => progress cbv zeta
  | |- returns Facebook.well_formed (mbind _ _) => apply returns_bind; intros ?
  | |- returns Facebook.well_formed (Facebook.published _ _) => apply returns_published
  | |- returns Facebook.well_formed (match ?x with _ => _ end) => destruct x
  | |- returns Facebook.well_formed _ => progress cbv zeta
  end.

Lemma publishVideo_answers postData s :
  ∃ v s', Facebook.publishVideo postData s = (Ok v, s') ∧ Facebook.well_formed v.
Proof using Herrors.
  unfold Facebook.publishVideo. apply answers_try_catch; repeat connector_step.
Qed.

Lemma publishAlbum_answers postData s :
  ∃ v s', Facebook.publishAlbum postData s = (Ok v, s') ∧ Facebook.well_formed v.
Proof using Herrors.
  unfold Facebook.publishAlbum. apply answers_try_catch; repeat connector_step.
Qed.

Lemma publishPost_answers postData s :
  ∃ v s', Facebook.publishPost postData s = (Ok v, s') ∧ Facebook.well_formed v.
Proof using Herrors.
  unfold Facebook.publishPost. apply answers_try_catch;
    repeat first
      [ apply (answers_throws Facebook.well_formed), publishVideo_answers
      | apply (answers_throws Facebook.well_formed), publishAlbum_answers
      | apply answers_returns, publishVideo_answers
      | apply answers_returns, publishAlbum_answers
      | connector_step ].
Qed.

End FacebookAnswers.

(** X20: the facebook connector always answers: when axios and the runtime
    reject with error objects (never with [null] or [undefined]),
    [publishPost], [publishVideo] and [publishAlbum] return, for every
    payload and whatever the Graph API answers, an object with
    [platform: 'facebook'] and either [success: true] and a [postId], or
    [success: false] and an [error]: the [result.success] the orchestrator
    reads is always there. *)
Theorem facebook_always_answers `{H : Facebook.Http}
    (postData : value) (s : Facebook.Service) :
  Facebook.rejects_with_errors →
  (∃ v s', Facebook.publishPost postData s = (Ok v, s') ∧ Facebook.well_formed v) ∧
  (∃ v s', Facebook.publishVideo postData s = (Ok v, s') ∧ Facebook.well_formed v) ∧
  (∃ v s', Facebook.publishAlbum postData s = (Ok v, s') ∧ Facebook.well_formed v).
Proof.
  intros Herrors. split; [by apply publishPost_answers|].
  split; [by apply publishVideo_answers|by apply publishAlbum_answers].
Qed.

Lemma accepting_rejects_with_errors : @Facebook.rejects_with_errors Facebook.accepting.
Proof. repeat split; intros; simpl in *; done. Defined.

Lemma facebook_always_answers_witness :
  @Facebook.rejects_with_errors Facebook.accepting ∧
  ∃ v s',
    Facebook.publishPost (H := Facebook.accepting) Facebook.album Facebook.page
      = (Ok v, s') ∧
    Facebook.well_formed v.
Proof.
  split; [exact accepting_rejects_with_errors|].
  destruct (facebook_always_answers (H := Facebook.accepting) Facebook.album
              Facebook.page accepting_rejects_with_errors) as [Hpost _].
  exact Hpost.
Defined.

(** ** Where a post with media goes *)

Section FacebookRoutes.
Context `{H : Facebook.Http}.

Lemma read_field (o : gmap string value) k s :
  Facebook.read (VObj o) k s = (Ok (member (VObj o) k), s).
Proof. done. Qed.

Lemma member_insert_ne (o : gmap string value) k k' v :
  k ≠ k' → member (VObj (<[k := v]> o)) k' = member (VObj o) k'.
Proof. intros Hne. simpl. by rewrite lookup_insert_ne. Qed.

Lemma publishVideo_ext o o' s :
  member (VObj o') "message" = member (VObj o) "message" →
  member (VObj o') "media" = member (VObj o) "media" →
  Facebook.publishVideo (VObj o') s = Facebook.publishVideo (VObj o) s.
Proof.
  intros Hmessage Hmedia. unfold Facebook.publishVideo, try_catch, mbind, Eff_bind, bind.
  destruct (Facebook.credentials s) as [[[token page]|e] s1]; [|done].
  cbn [fst snd]. rewrite !read_field. cbn [fst snd].
  by rewrite Hmessage, Hmedia.
Qed.

Lemma publishAlbum_ext o o' s :
  member (VObj o') "message" = member (VObj o) "message" →
  member (VObj o') "media" = member (VObj o) "media" →
  Facebook.publishAlbum (VObj o') s = Facebook.publishAlbum (VObj o) s.
Proof.
  intros Hmessage Hmedia. unfold Facebook.publishAlbum, try_catch, mbind, Eff_bind, bind.
  destruct (Facebook.credentials s) as [[[token page]|e] s1]; [|done].
  cbn [fst snd]. rewrite !read_field. cbn [fst snd].
  by rewrite Hmessage, Hmedia.
Qed.

(** A payload with one media that is a video goes to [publishVideo], and a
    payload with several media goes to [publishAlbum], before
    [scheduledTime] is looked at. *)
Lemma publishPost_routes o urls token page s :
  Facebook.configured s = Some (token, page) →
  o !! "media" = Some (VArr urls) →
  Facebook.publishPost (VObj o) s
  = match urls with
    | [] => Facebook.publishPost (VObj o) s
    | [url] =>
        match Facebook.getMediaType url with
        | Ok Facebook.video =>
            try_catch (Facebook.publishVideo (VObj o))
              (Facebook.failed "Facebook publish error:") s
        | _ => Facebook.publishPost (VObj o) s
        end
    | _ =>
        try_catch (Facebook.publishAlbum (VObj o))
          (Facebook.failed "Facebook publish error:") s
    end.
Proof.
  intros Hc Hmedia. destruct urls as [|url [|url2 urls]]; [done| |].
  - destruct (Facebook.getMediaType url) as [[]|e] eqn:Htype; try done.
    assert (member (VObj o) "media" = VArr [url]) as Hm by (simpl; by rewrite Hmedia).
    unfold Facebook.publishPost at 1, try_catch, mbind, Eff_bind, bind.
    rewrite credentials_eq, Hc. cbn [fst snd]. rewrite read_field. cbn [fst snd].
    cbv zeta. rewrite !Hm.
    change (member (VArr [url]) "length") with (VNum 1).
    change (member (VArr [url]) "0") with url.
    unfold of_result. cbn [truthy Facebook.positive Facebook.is_one Z.ltb Z.eqb
      Z.compare Pos.compare fst snd].
    by rewrite Htype.
  - assert (member (VObj o) "media" = VArr (url :: url2 :: urls)) as Hm
      by (simpl; by rewrite Hmedia).
    unfold Facebook.publishPost at 1, try_catch, mbind, Eff_bind, bind.
    rewrite credentials_eq, Hc. cbn [fst snd]. rewrite read_field. cbn [fst snd].
    cbv zeta. rewrite !Hm.
    change (member (VArr (url :: url2 :: urls)) "length")
      with (VNum (Z.of_nat (S (S (length urls))))).
    unfold of_result. cbn [truthy Facebook.positive fst snd].
    assert (Facebook.is_one (VNum (Z.of_nat (S (S (length urls))))) = false) as ->.
    { unfold Facebook.is_one. apply Z.eqb_neq. lia. }
    assert ((0 <? Z.of_nat (S (S (length urls)))) = true) as ->.
    { apply Z.ltb_lt. lia. }
    done.
Qed.

End FacebookRoutes.

(** X21: the facebook connector drops the schedule of a post with a video
    or with several media: a payload whose [media] holds one URL that
    [getMediaType] takes for a video is handed to [publishVideo], and one
    with two or more URLs to [publishAlbum], before [scheduledTime] is
    read; the answer and the requests sent are those of that method, and
    they are the same whatever [scheduledTime] the payload carries. *)
Theorem facebook_schedule_ignored `{H : Facebook.Http}
    (o : gmap string value) (urls : list value) (token page : string)
    (scheduledTime : value) (s : Facebook.Service) :
  Facebook.rejects_with_errors →
  Facebook.configured s = Some (token, page) →
  o !! "media" = Some (VArr urls) →
  (∃ url, urls = [url] ∧ Facebook.getMediaType url = Ok Facebook.video) ∨
  (2 ≤ length urls)%nat →
  Facebook.publishPost (VObj o) s
  = (if decide (length urls = 1%nat)
     then Facebook.publishVideo (VObj o) s
     else Facebook.publishAlbum (VObj o) s) ∧
  Facebook.publishPost (VObj (<["scheduledTime" := scheduledTime]> o)) s
  = Facebook.publishPost (VObj o) s.
Proof.
  intros Herrors Hc Hmedia Hcase.
  assert (<["scheduledTime" := scheduledTime]> o !! "media" = Some (VArr urls))
    as Hmedia' by by rewrite lookup_insert_ne.
  rewrite (publishPost_routes _ urls token page s Hc Hmedia').
  rewrite (publishPost_routes o urls token page s Hc Hmedia).
  destruct Hcase as [(url & -> & Htype)|Hlen].
  - rewrite Htype. rewrite decide_True by done.
    unfold try_catch.
    rewrite (publishVideo_ext o (<["scheduledTime" := scheduledTime]> o))
      by by apply member_insert_ne.
    destruct (publishVideo_answers Herrors (VObj o) s) as (v & s' & -> & _).
    done.
  - destruct urls as [|url [|url2 urls]]; [simpl in Hlen; lia..|].
    rewrite decide_False by done.
    unfold try_catch.
    rewrite (publishAlbum_ext o (<["scheduledTime" := scheduledTime]> o))
      by by apply member_insert_ne.
    destruct (publishAlbum_answers Herrors (VObj o) s) as (v & s' & -> & _).
    done.
Qed.

Lemma facebook_schedule_ignored_witness :
  let urls := [VStr "https://example.com/clip.mp4"] in
  let o : gmap string value := list_to_map [
    ("message", VStr "Watch"); ("media", VArr urls)] in
  @Facebook.rejects_with_errors Facebook.accepting ∧
  Facebook.configured Facebook.page = Some ("token", "42") ∧
  o !! "media" = Some (VArr urls) ∧
  Facebook.getMediaType (H := Facebook.accepting) (VStr "https://example.com/clip.mp4")
    = Ok Facebook.video ∧
  Facebook.publishPost (H := Facebook.accepting)
    (VObj (<["scheduledTime" := VDate (Some 1793558000000)]> o)) Facebook.page
  = Facebook.publishVideo (H := Facebook.accepting) (VObj o) Facebook.page.
Proof.
  intros urls o.
  assert (Facebook.configured Facebook.page = Some ("token", "42")) as Hc
    by reflexivity.
  assert (o !! "media" = Some (VArr urls)) as Hmedia by (vm_compute; reflexivity).
  assert (Facebook.getMediaType (H := Facebook.accepting)
            (VStr "https://example.com/clip.mp4") = Ok Facebook.video) as Htype
    by (vm_compute; reflexivity).
  split; [exact accepting_rejects_with_errors|]. split; [exact Hc|].
  split; [exact Hmedia|]. split; [exact Htype|].
  destruct (facebook_schedule_ignored (H := Facebook.accepting) o urls "token" "42"
              (VDate (Some 1793558000000)) Facebook.page
              accepting_rejects_with_errors Hc Hmedia
              (or_introl (ex_intro _ _ (conj eq_refl Htype)))) as [Hroute Hsame].
  rewrite Hsame. exact Hroute.
Defined.

(** ** The requests of an album *)

Section FacebookAlbum.
Context `{H : Facebook.Http}.

(** The catch block sends no request, and its answer reports a failure. *)
Lemma failed_spec label e s :
  Facebook.exchange (Facebook.failed label e s).2 = Facebook.exchange s ∧
  ∀ v, (Facebook.failed label e s).1 = Ok v → member v "success" = VBool false.
Proof.
  unfold Facebook.failed, Facebook.read, get, of_result, modify,
    mbind, Eff_bind, bind; cbn [fst snd].
  destruct (nullish e); cbn [fst snd TypeError]; [done|].
  split; [done|]. by intros v [= <-].
Qed.

Lemma published_spec response type s :
  Facebook.exchange (Facebook.published response type s).2 = Facebook.exchange s.
Proof.
  unfold Facebook.published, Facebook.read, of_result, ret,
    mbind, Eff_bind, bind; cbn [fst snd].
  destruct (TypeError (get response "data")) as [data|?]; [|done].
  cbn [fst snd].
  by destruct (TypeError (get data "id")).
Qed.

(** The uploads are sent in the order of the media, until one fails. *)
Lemma upload_spec token page urls s :
  ∃ sent,
    Facebook.exchange (Facebook.upload token page urls s).2
      = Facebook.exchange s ++ sent ∧
    sent.*1 = Facebook.photo_upload token page <$> take (length sent) urls ∧
    (length sent ≤ length urls)%nat ∧
    ∀ ids, (Facebook.upload token page urls s).1 = Ok ids →
           length sent = length urls ∧ length ids = length urls.
Proof.
  revert s. induction urls as [|url rest IH]; intros s.
  { exists []. rewrite app_nil_r. split; [done|]. split; [done|]. split; [done|].
    by intros ids [= <-]. }
  cbn [Facebook.upload]. unfold mbind, Eff_bind, bind, Facebook.post.
  fold (Facebook.photo_upload token page url).
  set (r := Facebook.photo_upload token page url).
  cbn [fst snd].
  assert (∀ (x : result (list value)) answer,
            (∀ ids, x ≠ Ok ids) →
            ∃ sent,
              Facebook.exchange (Facebook.set_exchange (λ l, l ++ [(r, answer)]) s)
                = Facebook.exchange s ++ sent ∧
              sent.*1 = Facebook.photo_upload token page <$> take (length sent) (url :: rest) ∧
              (length sent ≤ length (url :: rest))%nat ∧
              ∀ ids, x = Ok ids →
                     length sent = length (url :: rest) ∧ length ids = length (url :: rest))
    as Hstop.
  { intros x answer Hx. exists [(r, answer)].
    split; [done|]. split; [done|]. split; [simpl; lia|].
    intros ids Hids. by destruct (Hx ids). }
  destruct (Facebook.axios_post (Facebook.exchange s) r) as [response|e] eqn:Hanswer;
    [|by apply Hstop].
  unfold Facebook.read, of_result. cbn [fst snd].
  destruct (TypeError (get response "data")) as [data|e]; cbn [fst snd];
    [|by apply Hstop].
  destruct (TypeError (get data "id")) as [media_fbid|e]; cbn [fst snd];
    [|by apply Hstop].
  destruct (IH (Facebook.set_exchange (λ l, l ++ [(r, Ok response)]) s))
    as (sent & Hsent & Hreq & Hlen & Hids).
  destruct (Facebook.upload token page rest _) as [[ids|e] s1]; cbn [fst snd] in *.
  - exists ((r, Ok response) :: sent). unfold ret. cbn [fst snd].
    rewrite Hsent. cbn [Facebook.exchange Facebook.set_exchange].
    split; [by rewrite <-(assoc_L (++))|].
    split; [cbn [length take]; rewrite !fmap_cons; by rewrite <-Hreq|].
    split; [simpl; lia|].
    intros ids' [= <-]. destruct (Hids ids eq_refl) as [Hall Hn].
    simpl. by rewrite Hall, Hn.
  - exists ((r, Ok response) :: sent). rewrite Hsent.
    cbn [Facebook.exchange Facebook.set_exchange].
    split; [by rewrite <-(assoc_L (++))|].
    split; [cbn [length take]; rewrite !fmap_cons; by rewrite <-Hreq|].
    split; [simpl; lia|done].
Qed.

End FacebookAlbum.

(** X22: the requests of [publishAlbum] for a payload whose [media] is an
    array: it uploads the photos in the order of the array, each
    unpublished, and stops at the first upload that fails; the feed post
    that attaches them is sent only after every photo is uploaded, and an
    answer with [success: true] is given only after the feed post was
    sent.  The photos uploaded before a failure stay uploaded. *)
Theorem facebook_album_requests `{H : Facebook.Http}
    (o : gmap string value) (urls : list value) (token page : string)
    (s : Facebook.Service) :
  Facebook.configured s = Some (token, page) →
  o !! "media" = Some (VArr urls) →
  let '(r, s') := Facebook.publishAlbum (VObj o) s in
  ∃ uploads feed,
    Facebook.exchange s' = Facebook.exchange s ++ uploads ++ feed ∧
    uploads.*1 = Facebook.photo_upload token page <$> take (length uploads) urls ∧
    (length uploads ≤ length urls)%nat ∧
    (feed = [] ∨
     length uploads = length urls ∧
     ∃ ids answer,
       length ids = length urls ∧
       feed = [(Facebook.mkRequest (Facebook.graph page "feed") (list_to_map [
                  ("message", Facebook.Val (member (VObj o) "message"));
                  ("attached_media",
                   Facebook.Val (VStr (Facebook.JSON_stringify (VArr ids))));
                  ("access_token", Facebook.Val (VStr token))]),
                answer)]) ∧
    ∀ v, r = Ok v → member v "success" = VBool true → feed ≠ [].
Proof.
  intros Hc Hmedia.
  assert (member (VObj o) "media" = VArr urls) as Hm by (simpl; by rewrite Hmedia).
  unfold Facebook.publishAlbum, try_catch, mbind, Eff_bind, bind.
  rewrite credentials_eq, Hc. cbn [fst snd]. rewrite read_field. cbn [fst snd].
  rewrite Hm. unfold of_result.
  change (Facebook.each (VArr urls)) with (Ok (A := list value) urls). cbn [fst snd].
  destruct (upload_spec token page urls s) as (uploads & Hsent & Hreq & Hlen & Hids).
  destruct (Facebook.upload token page urls s) as [[ids|e] s1]; cbn [fst snd] in *.
  - destruct (Hids ids eq_refl) as [Hall Hn].
    unfold Facebook.post at 1. cbn [fst snd].
    match goal with
    | |- context [Facebook.axios_post _ ?req] => set (request := req)
    end.
    set (answer := Facebook.axios_post (Facebook.exchange s1) request).
    assert (∀ w : Facebook.Service,
              Facebook.exchange w = Facebook.exchange s ++ uploads ++ [(request, answer)] →
              ∃ uploads0 feed,
                Facebook.exchange w = Facebook.exchange s ++ uploads0 ++ feed ∧
                uploads0.*1 = Facebook.photo_upload token page <$> take (length uploads0) urls ∧
                (length uploads0 ≤ length urls)%nat ∧
                (feed = [] ∨
                 length uploads0 = length urls ∧
                 ∃ (ids0 : list value) answer0,
                   length ids0 = length urls ∧
                   feed = [(Facebook.mkRequest (Facebook.graph page "feed") (list_to_map [
                              ("message", Facebook.Val (member (VObj o) "message"));
                              ("attached_media",
                               Facebook.Val (VStr (Facebook.JSON_stringify (VArr ids0))));
                              ("access_token", Facebook.Val (VStr token))]),
                            answer0)]) ∧
                feed ≠ []) as Hfeed.
    { intros w Hw. exists uploads, [(request, answer)].
      split; [done|]. split; [done|]. split; [done|]. split; [|done].
      right. split; [done|]. by exists ids, answer. }
    destruct answer as [response|e] eqn:Hanswer; cbn [fst snd].
    + pose proof (published_spec response [("type", VStr "album")]
                    (Facebook.set_exchange (λ l, l ++ [(request, Ok response)]) s1))
        as Hpub.
      destruct (Facebook.published response _ _) as [[v|e] s2]; cbn [fst snd] in *.
      * destruct (Hfeed s2) as (u & f & ? & ? & ? & ? & ?).
        { rewrite Hpub. cbn [Facebook.exchange Facebook.set_exchange].
          by rewrite Hsent, <-(assoc_L (++)). }
        cbv beta iota. exists u, f. by repeat split.
      * destruct (failed_spec "Facebook album publish error:" e s2) as [Hex Hv].
        destruct (Facebook.failed _ e s2) as [r s3]; cbn [fst snd] in *.
        destruct (Hfeed s3) as (u & f & ? & ? & ? & ? & ?).
        { rewrite Hex, Hpub. cbn [Facebook.exchange Facebook.set_exchange].
          by rewrite Hsent, <-(assoc_L (++)). }
        cbv beta iota. exists u, f. by repeat split.
    + destruct (failed_spec "Facebook album publish error:" e
                  (Facebook.set_exchange (λ l, l ++ [(request, Throw e)]) s1))
        as [Hex Hv].
      destruct (Facebook.failed _ e _) as [r s3]; cbn [fst snd] in *.
      destruct (Hfeed s3) as (u & f & ? & ? & ? & ? & ?).
      { rewrite Hex. cbn [Facebook.exchange Facebook.set_exchange].
        by rewrite Hsent, <-(assoc_L (++)). }
      cbv beta iota. exists u, f. by repeat split.
  - destruct (failed_spec "Facebook album publish error:" e s1) as [Hex Hv].
    destruct (Facebook.failed _ e s1) as [r s3]; cbn [fst snd] in *.
    cbv beta iota. exists uploads, []. rewrite app_nil_r, Hex.
    split; [done|]. split; [done|]. split; [done|]. split; [by left|].
    intros v -> Hsuccess. rewrite (Hv v eq_refl) in Hsuccess. discriminate.
Qed.

Lemma facebook_album_requests_witness :
  let urls := [VStr "https://example.com/a.jpg"; VStr "https://example.com/b.jpg"] in
  let o : gmap string value := list_to_map [("message", VStr "Look"); ("media", VArr urls)] in
  Facebook.configured Facebook.page = Some ("token", "42") ∧
  o !! "media" = Some (VArr urls) ∧
  (length (Facebook.exchange
             (Facebook.publishAlbum (H := Facebook.accepting) (VObj o) Facebook.page).2)
   ≤ 3)%nat.
Proof.
  intros urls o.
  assert (Facebook.configured Facebook.page = Some ("token", "42")) as Hc
    by reflexivity.
  assert (o !! "media" = Some (VArr urls)) as Hmedia by (vm_compute; reflexivity).
  split; [exact Hc|]. split; [exact Hmedia|].
  pose proof (facebook_album_requests (H := Facebook.accepting) o urls "token" "42"
                Facebook.page Hc Hmedia) as Halbum.
  destruct (Facebook.publishAlbum (H := Facebook.accepting) (VObj o) Facebook.page)
    as [r s'].
  destruct Halbum as (uploads & feed & Hsent & _ & Hlen & Hfeed & _).
  cbn [snd]. rewrite Hsent, !length_app. simpl in Hlen |- *.
  destruct Hfeed as [->|(_ & ids & answer & _ & ->)]; simpl; lia.
Defined.

(** ** The schedule of a post without media *)

(** X23: [publishPost] of the facebook connector on a payload without
    media.  A [scheduledTime] that is a Date turns the post into an
    unpublished one, scheduled at the time in seconds (rounded down): one
    request is sent, to the feed of the page, with [published: false] and
    [scheduled_publish_time].  A [scheduledTime] that is truthy but is not
    a Date (a string or a number, as JSON holds it) makes the connector
    fail before any request is sent, with the TypeError of the call of
    [getTime]. *)
Theorem facebook_scheduledTime `{H : Facebook.Http}
    (o : gmap string value) (token page : string) (s : Facebook.Service) :
  Facebook.configured s = Some (token, page) →
  truthy (member (VObj o) "media") = false ∨ member (VObj o) "media" = VArr [] →
  truthy (member (VObj o) "scheduledTime") = true →
  let '(r, s') := Facebook.publishPost (VObj o) s in
  match member (VObj o) "scheduledTime" with
  | VDate d =>
      let request := Facebook.mkRequest (Facebook.graph page "feed") (list_to_map [
        ("scheduled_publish_time",
         match d with
         | Some t => Facebook.Val (VNum (t / 1000))
         | None => Facebook.NaN
         end);
        ("published", Facebook.Val (VBool false));
        ("message", Facebook.Val (member (VObj o) "message"));
        ("access_token", Facebook.Val (VStr token))]) in
      Facebook.exchange s'
      = Facebook.exchange s ++ [(request, Facebook.axios_post (Facebook.exchange s) request)]
  | _ =>
      Facebook.exchange s' = Facebook.exchange s ∧
      r = Ok (VObj (list_to_map [
            ("success", VBool false);
            ("error", VStr "postData.scheduledTime.getTime is not a function");
            ("platform", VStr "facebook")]))
  end.
Proof.
  intros Hc Hmedia Hscheduled.
  assert (∀ (feed other : Eff Facebook.Service value) s0,
            (if truthy (member (VObj o) "media") then
               some ← of_result (Facebook.positive
                                   (member (member (VObj o) "media") "length"));
               if (some : bool) then other else feed
             else feed) s0 = feed s0) as Hroute.
  { intros feed other s0. destruct Hmedia as [->| ->]; [done|].
    change (member (VArr []) "length") with (VNum 0). done. }
  unfold Facebook.publishPost, try_catch, mbind, Eff_bind, bind.
  rewrite credentials_eq, Hc. cbn [fst snd]. rewrite read_field. cbn [fst snd].
  cbv zeta.
  match goal with
  | |- context [(if truthy (member (VObj o) "media") then ?a else ?feed) s] =>
      let Heq := fresh in
      pose proof (Hroute feed) as Heq;
      unfold mbind, Eff_bind, bind in Heq;
      erewrite Heq; clear Heq
  end.
  rewrite Hscheduled. unfold of_result.
  destruct (member (VObj o) "scheduledTime") as [| | | | |d| |] eqn:Htime;
    try done; cbn [Facebook.scheduled_publish_time fst snd];
    try (rewrite failed_eq by done; by split).
  assert (∀ time request,
            request = Facebook.mkRequest (Facebook.graph page "feed") (list_to_map [
              ("scheduled_publish_time", time);
              ("published", Facebook.Val (VBool false));
              ("message", Facebook.Val (member (VObj o) "message"));
              ("access_token", Facebook.Val (VStr token))]) →
            let '(r, s') :=
              (let (r, s') :=
                 let (r, s') := Facebook.post (Facebook.graph page "feed")
                                  (Facebook.params request) s in
                 match r with
                 | Ok a => Facebook.published a [] s'
                 | Throw e => (Throw e, s')
                 end in
               match r with
               | Ok a => (Ok a, s')
               | Throw e => Facebook.failed "Facebook publish error:" e s'
               end) in
            Facebook.exchange s'
            = Facebook.exchange s
              ++ [(request, Facebook.axios_post (Facebook.exchange s) request)])
    as Hsent.
  { intros time request ->. unfold Facebook.post. cbn [fst snd Facebook.params].
    match goal with
    | |- context [Facebook.axios_post _ ?req] => set (request := req)
    end.
    destruct (Facebook.axios_post (Facebook.exchange s) request) as [response|e].
    - pose proof (published_spec response []
                    (Facebook.set_exchange (λ l, l ++ [(request, Ok response)]) s))
        as Hpub.
      destruct (Facebook.published response [] _) as [[v|e] s2]; cbn [fst snd] in *.
      + by rewrite Hpub.
      + destruct (failed_spec "Facebook publish error:" e s2) as [Hex _].
        destruct (Facebook.failed _ e s2) as [r s3]; cbn [fst snd] in *.
        by rewrite Hex, Hpub.
    - destruct (failed_spec "Facebook publish error:" e
                  (Facebook.set_exchange (λ l, l ++ [(request, Throw e)]) s))
        as [Hex _].
      destruct (Facebook.failed _ e _) as [r s3]; cbn [fst snd] in *.
      by rewrite Hex. }
  destruct d as [t|]; unfold ret; cbn [fst snd].
  - exact (Hsent (Facebook.Val (VNum (t / 1000))) _ eq_refl).
  - exact (Hsent Facebook.NaN _ eq_refl).
Qed.

Lemma facebook_scheduledTime_witness :
  let o : gmap string value := list_to_map [
    ("message", VStr "Later"); ("scheduledTime", VStr "2026-12-01T10:00:00.000Z")] in
  Facebook.configured Facebook.page = Some ("token", "42") ∧
  truthy (member (VObj o) "media") = false ∧
  truthy (member (VObj o) "scheduledTime") = true ∧
  Facebook.exchange (Facebook.publishPost (H := Facebook.accepting) (VObj o) Facebook.page).2
  = [].
Proof.
  intros o.
  assert (Facebook.configured Facebook.page = Some ("token", "42")) as Hc
    by reflexivity.
  assert (truthy (member (VObj o) "media") = false) as Hmedia
    by (vm_compute; reflexivity).
  assert (member (VObj o) "scheduledTime" = VStr "2026-12-01T10:00:00.000Z") as Htime
    by (vm_compute; reflexivity).
  assert (truthy (member (VObj o) "scheduledTime") = true) as Hscheduled
    by (rewrite Htime; reflexivity).
  split; [exact Hc|]. split; [exact Hmedia|]. split; [exact Hscheduled|].
  pose proof (facebook_scheduledTime (H := Facebook.accepting) o "token" "42"
                Facebook.page Hc (or_introl Hmedia) Hscheduled) as Hpost.
  rewrite Htime in Hpost.
  destruct (Facebook.publishPost (H := Facebook.accepting) (VObj o) Facebook.page)
    as [r s'].
  destruct Hpost as [Hexchange _]. exact Hexchange.
Defined.

Lemma loadScheduledPosts_registers_witness :
  let LS := FixtureListing.rejecting in
  findMany (store Fixture.w1)
    (scheduled_from (toISOString (Runtime := Fixture.runtime) (now Fixture.w1)))
    = Throw (VStr "connect ECONNREFUSED") ∧
  tasks (loadScheduledPosts (RT := Fixture.runtime) (LS := LS) Fixture.w1).2 = [] ∧
  (initialize (RT := Fixture.runtime) (LS := LS) Fixture.w1).1 = Ok ().
Proof.
  intros LS. split; [reflexivity|].
  pose proof (loadScheduledPosts_registers (RT := Fixture.runtime) (LS := LS) Fixture.w1)
    as Hload.
  cbv zeta in Hload.
  destruct (loadScheduledPosts (RT := Fixture.runtime) (LS := LS) Fixture.w1) as [r w'].
  destruct Hload as (_ & _ & _ & Hrejected).
  destruct (Hrejected (VStr "connect ECONNREFUSED") eq_refl) as [-> ->].
  split; reflexivity.
Defined.

(** ** Photos and videos *)

Section FacebookMedia.
Context `{H : Facebook.Http}.

Lemma prefix_spec (needle hay : string) :
  String.prefix needle hay = true ↔ ∃ rest, hay = needle +:+ rest.
Proof.
  revert hay. induction needle as [|a needle IH]; intros hay.
  { split; [intros _; by exists hay|intros _; by destruct hay]. }
  destruct hay as [|b hay]; simpl.
  { split; [done|]. by intros [rest ?]. }
  destruct (Ascii.ascii_dec a b) as [->|Hne].
  - rewrite IH. split.
    + intros [rest ->]. by exists rest.
    + intros [rest [= ->]]. by exists rest.
  - split; [done|]. by intros [rest [= ? _]].
Qed.

(** [includes] is the substring test of [String.prototype.includes]. *)
Lemma includes_spec (needle hay : string) :
  Facebook.includes needle hay = true ↔ ∃ before after, hay = before +:+ needle +:+ after.
Proof.
  induction hay as [|c hay IH]; cbn [Facebook.includes];
    rewrite orb_true_iff, prefix_spec.
  - split.
    + intros [[rest ->]|?]; [|done]. by exists "", rest.
    + intros (before & after & Heq). left. exists after.
      destruct before; [done|discriminate Heq].
  - rewrite IH. split.
    + intros [[rest ->]|(before & after & ->)]; [by exists "", rest|].
      by exists (String c before), after.
    + intros ([|c' before] & after & Heq).
      * left. by exists after.
      * right. injection Heq as -> ->. by exists before, after.
Qed.

End FacebookMedia.

(** X24: [getMediaType] takes a URL for a video exactly when one of the six
    video extensions occurs somewhere in the lower-cased URL, be it in the
    host, the path or the query; every other URL is a photo. *)
Theorem facebook_getMediaType `{H : Facebook.Http} (url : string) :
  (Facebook.getMediaType (VStr url) = Ok Facebook.video ∨
   Facebook.getMediaType (VStr url) = Ok Facebook.photo) ∧
  (Facebook.getMediaType (VStr url) = Ok Facebook.video ↔
   ∃ ext before after,
     ext ∈ Facebook.videoExtensions ∧
     Facebook.toLowerCase url = before +:+ ext +:+ after).
Proof.
  unfold Facebook.getMediaType.
  destruct (existsb _ _) eqn:Hsome.
  - split; [by left|]. split; [intros _|done].
    apply existsb_exists in Hsome as (ext & Hin & (before & after & Heq)%includes_spec).
    exists ext, before, after. by rewrite list_elem_of_In.
  - split; [by right|]. split; [done|].
    intros (ext & before & after & Hin & Heq).
    assert (existsb (λ ext, Facebook.includes ext (Facebook.toLowerCase url))
              Facebook.videoExtensions = true) as Hyes; [|congruence].
    apply existsb_exists. exists ext. rewrite <-list_elem_of_In.
    split; [done|]. apply includes_spec. by exists before, after.
Qed.

(** ** The answers of the twitter connector *)

Section TwitterAnswers.
Context `{A : Twitter.Api} (Herrors : Twitter.rejects_with_errors).

Lemma twitter_read v k : throws_errors (Twitter.read v k).
Proof.
  intros s e s'. unfold Twitter.read, of_result, get.
  destruct (nullish v); [|done]. by intros [= <- _].
Qed.

Lemma twitter_ready : throws_errors Twitter.ready.
Proof.
  intros s e s'. unfold Twitter.ready, mbind, Eff_bind, bind, gets; cbn [fst snd].
  destruct (Twitter.client s); [done|]. by intros [= <- _].
Qed.

Lemma twitter_call c : throws_errors (Twitter.call c).
Proof using Herrors.
  intros s e s'. unfold Twitter.call. intros [= Hanswer _].
  destruct Herrors as (Hcall & _). by eapply Hcall.
Qed.

Lemma twitter_buffer {S} v : throws_errors (@of_result S _ (Twitter.Buffer_from v)).
Proof using Herrors.
  intros s e s'. unfold of_result. intros [= Hv _].
  destruct Herrors as (_ & Hbuffer & _). by eapply Hbuffer.
Qed.

Lemma twitter_positive {S} v : throws_errors (@of_result S _ (Twitter.positive v)).
Proof using Herrors.
  intros s e s'. unfold of_result. intros [= Hv _].
  destruct Herrors as (_ & _ & Hgreater & _).
  destruct v; try done; by eapply Hgreater.
Qed.

Lemma twitter_each {S} v : throws_errors (@of_result S _ (Twitter.each v)).
Proof using Herrors.
  intros s e s'. unfold of_result, Twitter.each. intros [= Hv _].
  destruct Herrors as (_ & _ & _ & Hiter).
  destruct v; simplify_eq/=; by apply Hiter.
Qed.

Lemma twitter_reply replyToId threadPosts :
  throws_errors (Twitter.reply replyToId threadPosts).
Proof using Herrors.
  revert replyToId. induction threadPosts as [|threadText rest IH]; intros replyToId;
    [apply throws_ret|].
  cbn [Twitter.reply].
  apply throws_bind; [apply twitter_call|intros ?].
  repeat (apply throws_bind; [apply twitter_read|intros ?]).
  apply throws_bind; [apply IH|intros ?]. apply throws_ret.
Qed.

(** [uploadMedia] returns an array, whatever happens. *)
Lemma uploadMedia_returns mediaUrls s :
  ∃ mediaIds s', Twitter.uploadMedia mediaUrls s = (Ok (VArr mediaIds), s').
Proof.
  unfold Twitter.uploadMedia, try_catch.
  match goal with |- context [let (_, _) := ?body s in _] => destruct (body s) as [[v|e] s1] eqn:Hbody end.
  - revert Hbody. unfold mbind, Eff_bind, bind.
    destruct (Twitter.ready s) as [[[]|e] s2]; [|done].
    unfold of_result. destruct (Twitter.each mediaUrls) as [urls|e]; [|done].
    cbn [fst snd]. destruct (Twitter.upload urls s2) as [[ids|e] s3]; [|done].
    intros [= <- <-]. by eexists _, _.
  - by eexists _, _.
Qed.

Lemma twitter_uploadMedia mediaUrls : throws_errors (Twitter.uploadMedia mediaUrls).
Proof.
  intros s e s' Hs. destruct (uploadMedia_returns mediaUrls s) as (ids & s1 & Hids).
  congruence.
Qed.

(** The [catch] block on an error object. *)
Lemma twitter_failed_eq label fallback e s :
  nullish e = false →
  Twitter.failed label fallback e s
  = (Ok (VObj (list_to_map [
       ("success", VBool false);
       ("error", or_else (member e "message") (VStr fallback));
       ("platform", VStr "twitter")])),
     Twitter.set_log (λ l, l ++ [Twitter.error label e]) s).
Proof.
  intros He. unfold Twitter.failed, Twitter.strapi_log, Twitter.read, get, of_result,
    modify, mbind, Eff_bind, bind; cbn [fst snd].
  by rewrite He.
Qed.

Lemma twitter_answers_try_catch body label fallback s :
  truthy (VStr fallback) = true →
  throws_errors body → returns Twitter.well_formed body →
  ∃ v s', try_catch body (Twitter.failed label fallback) s = (Ok v, s') ∧
          Twitter.well_formed v.
Proof.
  intros Hfallback Hthrows Hreturns. unfold try_catch.
  destruct (body s) as [[v|e] s1] eqn:Hbody.
  - exists v, s1. split; [done|]. by eapply Hreturns.
  - rewrite twitter_failed_eq by by eapply Hthrows.
    eexists _, _. split; [done|]. eexists. split; [done|].
    split; [done|]. right. split; [done|]. eexists. split; [done|].
    unfold or_else. by destruct (truthy (member e "message")) eqn:Hm.
Qed.

(** Splits a goal about what a method body throws or returns along the
    structure of the body. *)
Ltac twitter_step :=
  lazymatch goal with
  | |- throws_errors (mbind _ _) => apply throws_bind; [|intros ?]
  | |- throws_errors (ret _) => apply throws_ret
  | |- throws_errors (mret _) => apply throws_mret
  | |- throws_errors (Twitter.read _ _) => apply twitter_read
  | |- throws_errors Twitter.ready => apply twitter_ready
  | |- throws_errors (Twitter.call _) => apply twitter_call
  | |- throws_errors (Twitter.reply _ _) => apply twitter_reply
  | |- throws_errors (Twitter.uploadMedia _) => apply twitter_uploadMedia
  | |- throws_errors (of_result (Twitter.positive _)) => apply twitter_positive
  | |- throws_errors (of_result (Twitter.each _)) => apply twitter_each
  | |- throws_errors (match ?x with _ => _ end) => destruct x
  | |- throws_errors _ => progress cbv zeta
  | |- returns _ (mbind _ _) => apply returns_bind; intros ?
  | |- returns _ (match ?x with _ => _ end) => destruct x
  | |- returns _ (ret _) =>
      intros ? ? ? [= <- _]; eexists; split; [done|];
      split; [done|]; left; by split
  | |- returns _ _ => progress cbv zeta
  end.

Lemma publishThread_answers postData s :
  ∃ v s', Twitter.publishThread postData s = (Ok v, s') ∧ Twitter.well_formed v.
Proof using Herrors.
  unfold Twitter.publishThread.
  apply twitter_answers_try_catch; [done|..]; repeat twitter_step.
Qed.

Lemma twitter_publishPost_answers postData s :
  ∃ v s', Twitter.publishPost postData s = (Ok v, s') ∧ Twitter.well_formed v.
Proof using Herrors.
  unfold Twitter.publishPost.
  apply twitter_answers_try_catch; [done|..];
    repeat first
      [ apply (answers_throws Twitter.well_formed), publishThread_answers
      | apply answers_returns, publishThread_answers
      | twitter_step ].
Qed.

End TwitterAnswers.

(** X25: the twitter connector always answers: when the Twitter API, axios
    and the runtime reject with error objects, [publishPost] and
    [publishThread] return, for every payload, an object with
    [platform: 'twitter'] and either [success: true] and a [postId], or
    [success: false] and an [error] that is not empty; [uploadMedia]
    returns an array even without that assumption: a failed download or
    upload is logged and answered with the empty array. *)
Theorem twitter_always_answers `{A : Twitter.Api} (postData : value) (s : Twitter.Service) :
  (∃ mediaIds s', Twitter.uploadMedia postData s = (Ok (VArr mediaIds), s')) ∧
  (Twitter.rejects_with_errors →
   (∃ v s', Twitter.publishPost postData s = (Ok v, s') ∧ Twitter.well_formed v) ∧
   (∃ v s', Twitter.publishThread postData s = (Ok v, s') ∧ Twitter.well_formed v)).
Proof.
  split; [apply uploadMedia_returns|]. intros Herrors.
  split; [by apply twitter_publishPost_answers|by apply publishThread_answers].
Qed.

Lemma accepting_tweets_rejects_with_errors : @Twitter.rejects_with_errors Twitter.accepting.
Proof. repeat split; intros; simpl in *; done. Defined.

Lemma twitter_always_answers_witness :
  @Twitter.rejects_with_errors Twitter.accepting ∧
  ∃ v s',
    Twitter.publishPost (A := Twitter.accepting) Twitter.thread Twitter.signed_in
      = (Ok v, s') ∧
    Twitter.well_formed v.
Proof.
  split; [exact accepting_tweets_rejects_with_errors|].
  destruct (twitter_always_answers (A := Twitter.accepting) Twitter.thread
              Twitter.signed_in) as [_ Hanswers].
  destruct (Hanswers accepting_tweets_rejects_with_errors) as [Hpost _].
  exact Hpost.
Defined.

(** ** The tweets of a thread *)

Section TwitterThread.
Context `{A : Twitter.Api}.

Lemma read_ok v k s :
  nullish v = false → Twitter.read v k s = (Ok (member v k), s).
Proof. intros Hv. unfold Twitter.read, of_result, get. by rewrite Hv. Qed.

Lemma read_nullish v k s :
  nullish v = true → ∃ e, Twitter.read v k s = (Throw e, s).
Proof. intros Hv. unfold Twitter.read, of_result, get. rewrite Hv. by eexists. Qed.

(** The replies are sent in the order of the texts, each to the tweet
    before it, until a tweet fails. *)
Lemma reply_spec replyToId threadPosts s :
  ∃ sent,
    Twitter.exchange (Twitter.reply replyToId threadPosts s).2
      = Twitter.exchange s ++ sent ∧
    Twitter.chained replyToId threadPosts sent ∧
    (length sent ≤ length threadPosts)%nat ∧
    ∀ tweets, (Twitter.reply replyToId threadPosts s).1 = Ok tweets →
      length sent = length threadPosts ∧
      (λ data, member data "id") <$> tweets = (λ x, Twitter.tweet_id x.2) <$> sent.
Proof.
  revert replyToId s.
  induction threadPosts as [|threadText rest IH]; intros replyToId s.
  { exists []. rewrite app_nil_r. split; [done|]. split; [done|]. split; [done|].
    by intros tweets [= <-]. }
  cbn [Twitter.reply]. unfold mbind, Eff_bind, bind, Twitter.call.
  fold (Twitter.thread_tweet threadText replyToId).
  set (c := Twitter.v2_tweet (Twitter.thread_tweet threadText replyToId)).
  cbn [fst snd].
  assert (∀ (x : result (list value)) a,
            (∀ tweets, x ≠ Ok tweets) →
            ∃ sent,
              Twitter.exchange (Twitter.set_exchange (λ l, l ++ [(c, a)]) s)
                = Twitter.exchange s ++ sent ∧
              Twitter.chained replyToId (threadText :: rest) sent ∧
              (length sent ≤ length (threadText :: rest))%nat ∧
              ∀ tweets, x = Ok tweets →
                length sent = length (threadText :: rest) ∧
                (λ data, member data "id") <$> tweets
                = (λ x, Twitter.tweet_id x.2) <$> sent) as Hstop.
  { intros x a Hx. exists [(c, a)].
    split; [done|]. split; [by cbn [Twitter.chained]|]. split; [simpl; lia|].
    intros tweets Htweets. by destruct (Hx tweets). }
  destruct (Twitter.answer (Twitter.exchange s) c) as [tweet|e] eqn:Hanswer;
    [|by apply Hstop].
  destruct (nullish tweet) eqn:Htweet.
  { destruct (read_nullish tweet "data"
                (Twitter.set_exchange (λ l, l ++ [(c, Ok tweet)]) s) Htweet) as [e ->].
    by apply Hstop. }
  rewrite read_ok by done. cbn [fst snd].
  destruct (nullish (member tweet "data")) eqn:Hdata.
  { destruct (read_nullish (member tweet "data") "id"
                (Twitter.set_exchange (λ l, l ++ [(c, Ok tweet)]) s) Hdata) as [e ->].
    by apply Hstop. }
  rewrite read_ok by done. cbn [fst snd].
  assert (Twitter.tweet_id (Ok tweet) = member (member tweet "data") "id") as Hid.
  { unfold Twitter.tweet_id, get_opt. by rewrite Htweet, Hdata. }
  destruct (IH (member (member tweet "data") "id")
              (Twitter.set_exchange (λ l, l ++ [(c, Ok tweet)]) s))
    as (sent & Hsent & Hchain & Hlen & Hids).
  destruct (Twitter.reply _ rest _) as [[tweets|e] s1]; cbn [fst snd] in *.
  - exists ((c, Ok tweet) :: sent). unfold ret. cbn [fst snd].
    rewrite Hsent. cbn [Twitter.exchange Twitter.set_exchange].
    split; [by rewrite <-(assoc_L (++))|].
    split; [cbn [Twitter.chained]; by rewrite Hid|].
    split; [simpl; lia|].
    intros tweets' [= <-]. destruct (Hids tweets eq_refl) as [Hall Heq].
    split; [simpl; by rewrite Hall|].
    rewrite !fmap_cons. cbn [snd]. by rewrite Hid, Heq.
  - exists ((c, Ok tweet) :: sent). rewrite Hsent.
    cbn [Twitter.exchange Twitter.set_exchange].
    split; [by rewrite <-(assoc_L (++))|].
    split; [cbn [Twitter.chained]; by rewrite Hid|].
    split; [simpl; lia|done].
Qed.

End TwitterThread.

Section TwitterCalls.
Context `{A : Twitter.Api}.

(** The catch block makes no call, and its answer reports a failure. *)
Lemma twitter_failed_spec label fallback e s :
  Twitter.exchange (Twitter.failed label fallback e s).2 = Twitter.exchange s ∧
  ∀ v, (Twitter.failed label fallback e s).1 = Ok v → member v "success" = VBool false.
Proof.
  unfold Twitter.failed, Twitter.strapi_log, Twitter.read, get, of_result, modify,
    mbind, Eff_bind, bind; cbn [fst snd].
  destruct (nullish e); cbn [fst snd TypeError]; [done|].
  split; [done|]. by intros v [= <-].
Qed.

Lemma ready_eq c s : Twitter.client s = Some c → Twitter.ready s = (Ok (), s).
Proof.
  intros Hc. unfold Twitter.ready, mbind, Eff_bind, bind, gets; cbn [fst snd].
  by rewrite Hc.
Qed.

End TwitterCalls.

(** X26: the tweets of [publishThread] for a payload whose [threadPosts] is
    an array: the first tweet carries the text of the post; every text of
    [threadPosts] is then tweeted, in order, in reply to the tweet before
    it, until a tweet fails; an answer with [success: true] is given only
    when every text was tweeted, and its [postId] is the id of the first
    tweet and its [threadIds] the ids of all tweets, in order. *)
Theorem twitter_thread_chain `{A : Twitter.Api}
    (o : gmap string value) (threadPosts : list value) (c : Twitter.TwitterApi)
    (s : Twitter.Service) :
  Twitter.client s = Some c →
  o !! "threadPosts" = Some (VArr threadPosts) →
  let '(r, s') := Twitter.publishThread (VObj o) s in
  ∃ first sent,
    Twitter.exchange s'
    = Twitter.exchange s
      ++ (Twitter.v2_tweet (VObj {["text" := member (VObj o) "text"]}), first) :: sent ∧
    Twitter.chained (Twitter.tweet_id first) threadPosts sent ∧
    (length sent ≤ length threadPosts)%nat ∧
    ∀ v, r = Ok v → member v "success" = VBool true →
         length sent = length threadPosts ∧
         member v "postId" = Twitter.tweet_id first ∧
         member v "threadIds"
         = VArr (Twitter.tweet_id first :: ((λ x, Twitter.tweet_id x.2) <$> sent)).
Proof.
  intros Hc Hposts.
  assert (member (VObj o) "threadPosts" = VArr threadPosts) as Hm
    by (simpl; by rewrite Hposts).
  unfold Twitter.publishThread, try_catch, mbind, Eff_bind, bind.
  rewrite (ready_eq c s Hc). cbn [fst snd].
  rewrite read_ok by done. cbn [fst snd].
  unfold Twitter.call at 1. cbn [fst snd].
  set (call := Twitter.v2_tweet (VObj {["text" := member (VObj o) "text"]})).
  set (first := Twitter.answer (Twitter.exchange s) call).
  set (s1 := Twitter.set_exchange (λ l, l ++ [(call, first)]) s).
  assert (∀ e, let '(r, s') := Twitter.failed "Twitter thread publish error:"
                                 "Failed to publish thread" e s1 in
               ∃ first0 sent,
                 Twitter.exchange s' = Twitter.exchange s ++ (call, first0) :: sent ∧
                 Twitter.chained (Twitter.tweet_id first0) threadPosts sent ∧
                 (length sent ≤ length threadPosts)%nat ∧
                 ∀ v, r = Ok v → member v "success" = VBool true →
                      length sent = length threadPosts ∧
                      member v "postId" = Twitter.tweet_id first0 ∧
                      member v "threadIds"
                      = VArr (Twitter.tweet_id first0
                                :: ((λ x, Twitter.tweet_id x.2) <$> sent))) as Hstop.
  { intros e.
    destruct (twitter_failed_spec "Twitter thread publish error:"
                "Failed to publish thread" e s1) as [Hex Hv].
    destruct (Twitter.failed _ _ e s1) as [r s2]; cbn [fst snd] in *.
    exists first, []. rewrite Hex. split; [done|]. split; [done|].
    split; [simpl; lia|]. intros v -> Hsuccess.
    rewrite (Hv v eq_refl) in Hsuccess. discriminate. }
  destruct first as [tweet|e] eqn:Hfirst; [|apply Hstop].
  destruct (nullish tweet) eqn:Htweet.
  { destruct (read_nullish tweet "data" s1 Htweet) as [e ->]. apply Hstop. }
  rewrite read_ok by done. cbn [fst snd].
  destruct (nullish (member tweet "data")) eqn:Hdata.
  { destruct (read_nullish (member tweet "data") "id" s1 Hdata) as [e ->]. apply Hstop. }
  rewrite read_ok by done. cbn [fst snd].
  assert (Twitter.tweet_id (Ok tweet) = member (member tweet "data") "id") as Hid.
  { unfold Twitter.tweet_id, get_opt. by rewrite Htweet, Hdata. }
  rewrite Hm. cbn [truthy]. unfold of_result. cbn [Twitter.each fst snd].
  destruct (reply_spec (member (member tweet "data") "id") threadPosts s1)
    as (sent & Hsent & Hchain & Hlen & Hids).
  destruct (Twitter.reply _ threadPosts s1) as [[tweets|e] s2]; cbn [fst snd] in *.
  - unfold ret. exists (Ok tweet), sent. rewrite Hsent.
    split; [subst s1; cbn [Twitter.exchange Twitter.set_exchange];
            by rewrite <-(assoc_L (++))|].
    split; [by rewrite Hid|]. split; [done|].
    intros v [= <-] _. destruct (Hids tweets eq_refl) as [Hall Heq].
    split; [done|]. split; [by rewrite Hid|].
    rewrite Hid, <-Heq. reflexivity.
  - destruct (twitter_failed_spec "Twitter thread publish error:"
                "Failed to publish thread" e s2) as [Hex Hv].
    destruct (Twitter.failed _ _ e s2) as [r s3]; cbn [fst snd] in *.
    exists (Ok tweet), sent. rewrite Hex, Hsent.
    split; [subst s1; cbn [Twitter.exchange Twitter.set_exchange];
            by rewrite <-(assoc_L (++))|].
    split; [by rewrite Hid|]. split; [done|].
    intros v -> Hsuccess. rewrite (Hv v eq_refl) in Hsuccess. discriminate.
Qed.

Lemma twitter_thread_chain_witness :
  let threadPosts := [VStr "2/3"; VStr "3/3"] in
  let o : gmap string value := list_to_map [
    ("text", VStr "1/3"); ("threadMode", VBool true); ("threadPosts", VArr threadPosts)] in
  Twitter.client Twitter.signed_in
    = Some (Twitter.mkClient "key" "secret" "token" "token-secret") ∧
  o !! "threadPosts" = Some (VArr threadPosts) ∧
  (length (Twitter.exchange
             (Twitter.publishThread (A := Twitter.accepting) (VObj o)
                Twitter.signed_in).2) ≤ 3)%nat.
Proof.
  intros threadPosts o.
  assert (o !! "threadPosts" = Some (VArr threadPosts)) as Hposts
    by (vm_compute; reflexivity).
  split; [reflexivity|]. split; [exact Hposts|].
  pose proof (twitter_thread_chain (A := Twitter.accepting) o threadPosts _
                Twitter.signed_in eq_refl Hposts) as Hthread.
  destruct (Twitter.publishThread (A := Twitter.accepting) (VObj o) Twitter.signed_in)
    as [r s'].
  destruct Hthread as (first & sent & Hsent & _ & Hlen & _).
  cbn [snd]. rewrite Hsent. simpl in Hlen |- *. lia.
Defined.

(** ** Threads, media and polls *)

Section TwitterRoutes.
Context `{A : Twitter.Api}.

Lemma publishThread_ext o o' s :
  member (VObj o') "text" = member (VObj o) "text" →
  member (VObj o') "threadPosts" = member (VObj o) "threadPosts" →
  Twitter.publishThread (VObj o') s = Twitter.publishThread (VObj o) s.
Proof.
  intros Htext Hposts. unfold Twitter.publishThread, try_catch, mbind, Eff_bind, bind.
  destruct (Twitter.ready s) as [[[]|e] s1]; [|done].
  cbn [fst snd]. rewrite !read_ok by done. cbn [fst snd].
  by rewrite Htext, Hposts.
Qed.

(** In thread mode, with texts to thread, [publishPost] hands the payload
    to [publishThread] before it looks at the media and the poll. *)
Lemma twitter_publishPost_thread o threadPosts c s :
  Twitter.client s = Some c →
  truthy (member (VObj o) "threadMode") = true →
  o !! "threadPosts" = Some (VArr threadPosts) →
  threadPosts ≠ [] →
  Twitter.publishPost (VObj o) s
  = try_catch (Twitter.publishThread (VObj o))
      (Twitter.failed "Twitter publish error:" "Failed to publish tweet") s.
Proof.
  intros Hc Hmode Hposts Hsome.
  assert (member (VObj o) "threadPosts" = VArr threadPosts) as Hm
    by (simpl; by rewrite Hposts).
  unfold Twitter.publishPost, try_catch, mbind, Eff_bind, bind.
  rewrite (ready_eq c s Hc). cbn [fst snd].
  rewrite read_ok by done. cbn [fst snd]. cbv zeta.
  rewrite Hmode, Hm. cbn [truthy andb]. unfold of_result.
  change (member (VArr threadPosts) "length") with (VNum (Z.of_nat (length threadPosts))).
  cbn [Twitter.positive fst snd].
  assert ((0 <? Z.of_nat (length threadPosts)) = true) as ->; [|done].
  apply Z.ltb_lt. destruct threadPosts; [done|simpl; lia].
Qed.

End TwitterRoutes.

(** X27: a thread drops the media and the poll of the post: in thread mode
    (a truthy [threadMode] and a non-empty array of [threadPosts])
    [publishPost] answers as [publishThread] does, which reads the text and
    the thread posts only: the answer and the calls are the same whatever
    [media] and [poll] the payload carries. *)
Theorem twitter_thread_drops_media `{A : Twitter.Api}
    (o : gmap string value) (threadPosts : list value) (c : Twitter.TwitterApi)
    (media poll : value) (s : Twitter.Service) :
  Twitter.rejects_with_errors →
  Twitter.client s = Some c →
  truthy (member (VObj o) "threadMode") = true →
  o !! "threadPosts" = Some (VArr threadPosts) →
  threadPosts ≠ [] →
  Twitter.publishPost (VObj o) s = Twitter.publishThread (VObj o) s ∧
  Twitter.publishPost (VObj (<["media" := media]> (<["poll" := poll]> o))) s
  = Twitter.publishPost (VObj o) s.
Proof.
  intros Herrors Hc Hmode Hposts Hsome.
  assert (∀ k, k ≠ "media" → k ≠ "poll" →
               member (VObj (<["media" := media]> (<["poll" := poll]> o))) k
               = member (VObj o) k) as Hsame.
  { intros k ??. simpl. by rewrite !lookup_insert_ne. }
  assert (truthy (member (VObj (<["media" := media]> (<["poll" := poll]> o)))
                    "threadMode") = true) as Hmode' by by rewrite Hsame.
  assert (<["media" := media]> (<["poll" := poll]> o) !! "threadPosts"
          = Some (VArr threadPosts)) as Hposts' by by rewrite !lookup_insert_ne.
  rewrite (twitter_publishPost_thread _ threadPosts c s Hc Hmode' Hposts' Hsome).
  rewrite (twitter_publishPost_thread o threadPosts c s Hc Hmode Hposts Hsome).
  unfold try_catch.
  rewrite (publishThread_ext o (<["media" := media]> (<["poll" := poll]> o)))
    by by apply Hsame.
  destruct (publishThread_answers Herrors (VObj o) s) as (v & s' & -> & _).
  done.
Qed.

Lemma twitter_thread_drops_media_witness :
  let threadPosts := [VStr "2/3"; VStr "3/3"] in
  let o : gmap string value := list_to_map [
    ("text", VStr "1/3"); ("threadMode", VBool true); ("threadPosts", VArr threadPosts)] in
  @Twitter.rejects_with_errors Twitter.accepting ∧
  truthy (member (VObj o) "threadMode") = true ∧
  o !! "threadPosts" = Some (VArr threadPosts) ∧
  threadPosts ≠ [] ∧
  Twitter.publishPost (A := Twitter.accepting)
    (VObj (<["media" := VArr [VStr "https://example.com/a.jpg"]]>
             (<["poll" := VUndef]> o))) Twitter.signed_in
  = Twitter.publishThread (A := Twitter.accepting) (VObj o) Twitter.signed_in.
Proof.
  intros threadPosts o.
  assert (truthy (member (VObj o) "threadMode") = true) as Hmode
    by (vm_compute; reflexivity).
  assert (o !! "threadPosts" = Some (VArr threadPosts)) as Hposts
    by (vm_compute; reflexivity).
  assert (threadPosts ≠ []) as Hsome by discriminate.
  split; [exact accepting_tweets_rejects_with_errors|]. split; [exact Hmode|].
  split; [exact Hposts|]. split; [exact Hsome|].
  destruct (twitter_thread_drops_media (A := Twitter.accepting) o threadPosts _
              (VArr [VStr "https://example.com/a.jpg"]) VUndef Twitter.signed_in
              accepting_tweets_rejects_with_errors eq_refl Hmode Hposts Hsome)
    as [Hroute Hsame].
  rewrite Hsame. exact Hroute.
Defined.

(** ** The media of a tweet *)

Section TwitterMedia.
Context `{A : Twitter.Api}.

#[local] Instance without_tweets_refl : Reflexive Twitter.without_tweets.
Proof. intros s. exists []. by rewrite app_nil_r. Qed.

#[local] Instance without_tweets_trans : Transitive Twitter.without_tweets.
Proof.
  intros s1 s2 s3 (sent1 & H1 & Hn1) (sent2 & H2 & Hn2).
  exists (sent1 ++ sent2). rewrite H2, H1, (assoc_L (++)). split; [done|].
  unfold Twitter.tweets_of in *. by rewrite omap_app, Hn1, Hn2.
Qed.

(** A step that makes no call. *)
Ltac no_call :=
  let s := fresh "s" in
  intros s; unfold Twitter.read, Twitter.ready, Twitter.strapi_log, of_result, ret,
    mret, modify, gets, mbind, Eff_bind, bind; cbn [fst snd];
  try destruct (Twitter.client s); cbn [fst snd];
  exists []; by rewrite app_nil_r.

Lemma upload_without_tweets mediaUrls :
  moves Twitter.without_tweets (Twitter.upload mediaUrls).
Proof.
  induction mediaUrls as [|mediaUrl rest IH]; [no_call|].
  cbn [Twitter.upload].
  repeat first
    [ apply IH
    | apply moves_bind; [apply _| |intros ?]
    | no_call
    | intros s; eexists [_]; by split ].
Qed.

Lemma upload_all mediaUrls :
  returns (λ mediaIds, length mediaIds = length mediaUrls) (Twitter.upload mediaUrls).
Proof.
  induction mediaUrls as [|mediaUrl rest IH].
  { by intros s v s' [= <- _]. }
  cbn [Twitter.upload].
  do 6 (apply returns_bind; intros ?).
  eapply returns_bind_with; [exact IH|].
  intros mediaIds Hlen s v s' [= <- _]. simpl. by rewrite Hlen.
Qed.

(** [uploadMedia] returns the id of every media, or no id at all. *)
Lemma uploadMedia_spec mediaUrls s :
  ∃ mediaIds s',
    Twitter.uploadMedia (VArr mediaUrls) s = (Ok (VArr mediaIds), s') ∧
    Twitter.without_tweets s s' ∧
    (mediaIds = [] ∨ length mediaIds = length mediaUrls).
Proof.
  assert (moves Twitter.without_tweets (Twitter.uploadMedia (VArr mediaUrls))) as Hmoves.
  { unfold Twitter.uploadMedia.
    apply moves_try_catch; [apply _| |].
    - apply moves_bind; [apply _|no_call|intros ?].
      repeat first
        [ apply upload_without_tweets
        | apply moves_bind; [apply _| |intros ?]
        | no_call ].
    - intros e. apply moves_bind; [apply _| |intros ?]; no_call. }
  specialize (Hmoves s).
  unfold Twitter.uploadMedia, try_catch in *.
  match goal with
  | |- context [let (_, _) := ?body s in _] =>
      destruct (body s) as [[v|e] s1] eqn:Hbody
  end; cbn [snd] in *.
  - revert Hbody. unfold mbind, Eff_bind, bind.
    destruct (Twitter.ready s) as [[[]|e] s2]; [|done].
    unfold of_result. cbn [Twitter.each fst snd].
    destruct (Twitter.upload mediaUrls s2) as [[ids|e] s3] eqn:Hupload; [|done].
    intros [= <- <-]. exists ids, s3. split; [done|]. split; [done|]. right.
    by eapply upload_all.
  - eexists [], _. split; [done|]. split; [done|]. by left.
Qed.

End TwitterMedia.

(** X28: the media of a tweet are attached all or not at all: for a post
    that is not a thread and whose [media] is a non-empty array,
    [publishPost] sends exactly one tweet, and that tweet carries either
    the id of every media, in order, or, when a download or an upload
    failed, no media at all: the failure is logged by [uploadMedia] and the
    tweet is published without its media. *)
Theorem twitter_media_all_or_nothing `{A : Twitter.Api}
    (o : gmap string value) (mediaUrls : list value) (c : Twitter.TwitterApi)
    (s : Twitter.Service) :
  Twitter.client s = Some c →
  truthy (member (VObj o) "threadMode") = false →
  o !! "media" = Some (VArr mediaUrls) →
  mediaUrls ≠ [] →
  let '(r, s') := Twitter.publishPost (VObj o) s in
  ∃ mediaIds answer sent,
    Twitter.exchange s' = Twitter.exchange s ++ sent ∧
    Twitter.tweets_of sent = [(VObj (Twitter.tweet_data (VObj o) mediaIds), answer)] ∧
    (mediaIds = [] ∨ length mediaIds = length mediaUrls).
Proof.
  intros Hc Hmode Hmedia Hsome.
  assert (member (VObj o) "media" = VArr mediaUrls) as Hm
    by (simpl; by rewrite Hmedia).
  unfold Twitter.publishPost, try_catch, mbind, Eff_bind, bind.
  rewrite (ready_eq c s Hc). cbn [fst snd].
  rewrite read_ok by done. cbn [fst snd]. cbv zeta.
  rewrite Hmode. cbn [andb]. unfold ret at 1. cbn [fst snd].
  rewrite Hm. cbn [truthy]. unfold of_result at 1.
  change (member (VArr mediaUrls) "length") with (VNum (Z.of_nat (length mediaUrls))).
  cbn [Twitter.positive fst snd].
  assert ((0 <? Z.of_nat (length mediaUrls)) = true) as ->.
  { apply Z.ltb_lt. destruct mediaUrls; [done|simpl; lia]. }
  destruct (uploadMedia_spec mediaUrls s)
    as (mediaIds & s1 & -> & (uploads & Hsent & Hnone) & Hall).
  cbn [fst snd]. unfold of_result at 1.
  change (member (VArr mediaIds) "length") with (VNum (Z.of_nat (length mediaIds))).
  cbn [Twitter.positive fst snd].
  match goal with
  | |- context [(if 0 <? _ then ret ?X else ret ?Y) s1] =>
      assert ((if 0 <? Z.of_nat (length mediaIds) then ret X else ret Y) s1
              = (Ok (match mediaIds with [] => Y | _ => X end), s1)) as ->
        by by destruct mediaIds
  end.
  cbn [fst snd].
  match goal with
  | |- context [Twitter.v2_tweet (VObj ?data)] =>
      assert (data = Twitter.tweet_data (VObj o) mediaIds) as ->
        by (unfold Twitter.tweet_data; by destruct mediaIds)
  end.
  set (tweetData := Twitter.tweet_data (VObj o) mediaIds).
  unfold Twitter.call at 1. cbn [fst snd].
  set (answer := Twitter.answer (Twitter.exchange s1) (Twitter.v2_tweet (VObj tweetData))).
  set (s2 := Twitter.set_exchange
               (λ l, l ++ [(Twitter.v2_tweet (VObj tweetData), answer)]) s1).
  assert (∀ w, Twitter.exchange w = Twitter.exchange s2 →
               ∃ mediaIds0 answer0 sent,
                 Twitter.exchange w = Twitter.exchange s ++ sent ∧
                 Twitter.tweets_of sent
                 = [(VObj (Twitter.tweet_data (VObj o) mediaIds0), answer0)] ∧
                 (mediaIds0 = [] ∨ length mediaIds0 = length mediaUrls)) as Hdone.
  { intros w ->. exists mediaIds, answer,
      (uploads ++ [(Twitter.v2_tweet (VObj tweetData), answer)]).
    subst s2. cbn [Twitter.exchange Twitter.set_exchange].
    rewrite Hsent, <-(assoc_L (++)). split; [done|]. split; [|done].
    unfold Twitter.tweets_of in *. by rewrite omap_app, Hnone. }
  assert (∀ e w, Twitter.exchange w = Twitter.exchange s2 →
                 let '(r, s') := Twitter.failed "Twitter publish error:"
                                   "Failed to publish tweet" e w in
                 ∃ mediaIds0 answer0 sent,
                   Twitter.exchange s' = Twitter.exchange s ++ sent ∧
                   Twitter.tweets_of sent
                   = [(VObj (Twitter.tweet_data (VObj o) mediaIds0), answer0)] ∧
                   (mediaIds0 = [] ∨ length mediaIds0 = length mediaUrls)) as Hfailed.
  { intros e w Hw.
    destruct (twitter_failed_spec "Twitter publish error:" "Failed to publish tweet" e w)
      as [Hex _].
    destruct (Twitter.failed _ _ e w) as [r s3]; cbn [fst snd] in *.
    apply Hdone. by rewrite Hex. }
  destruct answer as [tweet|e]; [|by apply Hfailed].
  destruct (nullish tweet) eqn:Htweet.
  { destruct (read_nullish tweet "data" s2 Htweet) as [e ->]. by apply Hfailed. }
  rewrite read_ok by done. cbn [fst snd].
  destruct (nullish (member tweet "data")) eqn:Hdata2.
  { destruct (read_nullish (member tweet "data") "id" s2 Hdata2) as [e ->].
    by apply Hfailed. }
  rewrite read_ok by done. cbn [fst snd]. unfold ret. by apply Hdone.
Qed.

Lemma twitter_media_all_or_nothing_witness :
  let mediaUrls := [VStr "https://example.com/a.jpg"] in
  let o : gmap string value := list_to_map [
    ("text", VStr "Look"); ("media", VArr mediaUrls)] in
  Twitter.client Twitter.signed_in
    = Some (Twitter.mkClient "key" "secret" "token" "token-secret") ∧
  truthy (member (VObj o) "threadMode") = false ∧
  o !! "media" = Some (VArr mediaUrls) ∧
  mediaUrls ≠ [] ∧
  length (Twitter.tweets_of
            (Twitter.exchange
               (Twitter.publishPost (A := Twitter.accepting) (VObj o)
                  Twitter.signed_in).2)) = 1%nat.
Proof.
  intros mediaUrls o.
  assert (truthy (member (VObj o) "threadMode") = false) as Hmode
    by (vm_compute; reflexivity).
  assert (o !! "media" = Some (VArr mediaUrls)) as Hmedia by (vm_compute; reflexivity).
  assert (mediaUrls ≠ []) as Hsome by discriminate.
  split; [reflexivity|]. split; [exact Hmode|]. split; [exact Hmedia|].
  split; [exact Hsome|].
  pose proof (twitter_media_all_or_nothing (A := Twitter.accepting) o mediaUrls _
                Twitter.signed_in eq_refl Hmode Hmedia Hsome) as Hpost.
  destruct (Twitter.publishPost (A := Twitter.accepting) (VObj o) Twitter.signed_in)
    as [r s'].
  destruct Hpost as (mediaIds & answer & sent & Hsent & Htweets & _).
  cbn [snd]. rewrite Hsent. cbn [Twitter.exchange Twitter.signed_in app].
  by rewrite Htweets.
Defined.

(** ** A service without a client *)

(** X29: without a client the twitter connector makes no call:
    [publishPost] and [publishThread] answer
    [{success: false, error: 'Twitter client not initialized',
    platform: 'twitter'}] and log the error, and [uploadMedia] logs it and
    returns the empty array; and a service initialised from an environment
    that lacks one of the four OAuth credentials has no client. *)
Theorem twitter_unconfigured `{A : Twitter.Api} (postData : value) (s : Twitter.Service) :
  let thrown := Error (VStr "Twitter client not initialized") in
  let refusal (label : string) :=
    (Ok (VObj (list_to_map [
       ("success", VBool false);
       ("error", VStr "Twitter client not initialized");
       ("platform", VStr "twitter")])),
     Twitter.set_log (λ l, l ++ [Twitter.error label thrown]) s) in
  (Twitter.client s = None →
   Twitter.publishPost postData s = refusal "Twitter publish error:" ∧
   Twitter.publishThread postData s = refusal "Twitter thread publish error:" ∧
   Twitter.uploadMedia postData s
   = (Ok (VArr []),
      Twitter.set_log (λ l, l ++ [Twitter.error "Twitter media upload error:" thrown]) s)) ∧
  (Twitter.client s = None →
   Twitter.env_or_empty "TWITTER_API_KEY" = "" ∨
   Twitter.env_or_empty "TWITTER_API_SECRET" = "" ∨
   Twitter.env_or_empty "TWITTER_ACCESS_TOKEN" = "" ∨
   Twitter.env_or_empty "TWITTER_ACCESS_TOKEN_SECRET" = "" →
   Twitter.client (Twitter.initialize s).2 = None ∧
   last (Twitter.log (Twitter.initialize s).2)
   = Some (Twitter.warn "Twitter credentials not fully configured")).
Proof.
  intros thrown refusal. split.
  - intros Hc.
    assert (Twitter.ready s = (Throw thrown, s)) as Hready.
    { unfold Twitter.ready, mbind, Eff_bind, bind, gets; cbn [fst snd].
      by rewrite Hc. }
    unfold Twitter.publishPost, Twitter.publishThread, Twitter.uploadMedia,
      try_catch, mbind, Eff_bind, bind.
    rewrite Hready. cbn [fst snd]. by rewrite !twitter_failed_eq.
  - intros Hc Hmissing.
    unfold Twitter.initialize, Twitter.strapi_log, modify, mbind, Eff_bind, bind.
    cbv zeta. cbn [Twitter.appKey Twitter.appSecret Twitter.accessToken
      Twitter.accessSecret].
    assert (negb (String.eqb (Twitter.env_or_empty "TWITTER_API_KEY") "")
            && negb (String.eqb (Twitter.env_or_empty "TWITTER_API_SECRET") "")
            && negb (String.eqb (Twitter.env_or_empty "TWITTER_ACCESS_TOKEN") "")
            && negb (String.eqb (Twitter.env_or_empty "TWITTER_ACCESS_TOKEN_SECRET") "")
            = false) as ->.
    { destruct Hmissing as [-> | [-> | [-> | ->]]]; cbn [String.eqb negb andb];
        by rewrite ?andb_false_r. }
    cbn [fst snd Twitter.client Twitter.set_log Twitter.set_config Twitter.log].
    split; [done|]. by rewrite last_snoc.
Qed.

Lemma twitter_unconfigured_witness :
  let s := Twitter.mkService None None [] [] in
  Twitter.client s = None ∧
  Twitter.exchange (Twitter.publishPost (A := Twitter.accepting) Twitter.thread s).2 = [] ∧
  Twitter.client (Twitter.initialize (A := Twitter.accepting) s).2 = None.
Proof.
  intros s.
  destruct (twitter_unconfigured (A := Twitter.accepting) Twitter.thread s)
    as [Hrefuse Hinit].
  destruct (Hrefuse eq_refl) as (-> & _ & _).
  destruct (Hinit eq_refl (or_introl eq_refl)) as [Hclient _].
  split; [reflexivity|]. split; [reflexivity|exact Hclient].
Defined.
